(** * level_replay.level_sampler: a shallow embedding of [LevelSampler]

    The Python class [LevelSampler] (src/level_replay/level_sampler.py) keeps a
    score ledger over a fixed pool of level seeds and decides which seed to
    hand out next.  This file embeds the class method by method and proves
    the properties its specification states about it.

    Conventions of the embedding.
    - A floating-point number is a value of [fnum]: an exact rational, one of
      the two infinities, or NaN.  Finite arithmetic is exact (no rounding,
      no overflow); the special values follow IEEE 754 as numpy applies it
      (a numpy division by zero gives an infinity or NaN, a Python [float]
      division by zero raises).  Signed zeros are not distinguished.
      Integers ([np.int64] step counts, seeds) are unbounded.
    - Arrays are lists; a two-dimensional array is a list of rows of one
      length.  An index is a natural number, and reading or writing outside
      an array raises [IndexError].
    - Every method is a computation in the monad [M]: it threads the object
      ([self]), may raise a Python exception (the object keeps what was
      written before the exception), and appends to a log of the private
      helpers it enters.  The log is instrumentation only: no method reads
      it.
    - [self.seed_scores] and [self.seed_staleness] are passed to
      [_score_transform] by reference ([array_ref]), as numpy arrays are.
    - Random draws are explicit inputs ([draws]); [np.random.choice] with
      probabilities is numpy's inverse-CDF search on a uniform sample.
    - [exp], [log] and the power function are parameters of the development
      (section variables [fexp], [flog], [fpow]). *)

From Stdlib Require Import ZArith QArith Qcanon String Lia Lqa Bool.
From stdpp Require Import base option list sorting gmap.


(** ** Numbers *)

Module Num.

Definition Qcleb (x y : Qc) : bool := Qle_bool x y.
Definition Qcltb (x y : Qc) : bool := negb (Qle_bool y x).
Definition Qceqb (x y : Qc) : bool := Qeq_bool x y.

Definition Z2Qc (z : Z) : Qc := Q2Qc (inject_Z z).
Definition N2Qc (n : nat) : Qc := Z2Qc (Z.of_nat n).

Inductive fnum : Type :=
| Fin (q : Qc)
| PInf
| NInf
| NaN.

Definition f0 : fnum := Fin 0%Qc.
Definition f1 : fnum := Fin 1%Qc.
Definition fZ (z : Z) : fnum := Fin (Z2Qc z).
Definition fN (n : nat) : fnum := Fin (N2Qc n).

Definition is_finite (x : fnum) : bool :=
  match x with Fin _ => true | _ => false end.

Definition fneg (x : fnum) : fnum :=
  match x with
  | Fin q => Fin (- q)%Qc
  | PInf => NInf
  | NInf => PInf
  | NaN => NaN
  end.

Definition fadd (x y : fnum) : fnum :=
  match x, y with
  | NaN, _ | _, NaN => NaN
  | PInf, NInf | NInf, PInf => NaN
  | PInf, _ | _, PInf => PInf
  | NInf, _ | _, NInf => NInf
  | Fin a, Fin b => Fin (a + b)%Qc
  end.

Definition fsub (x y : fnum) : fnum := fadd x (fneg y).

(** The sign of an infinity times a finite factor: zero gives NaN. *)
Definition inf_times (positive : bool) (q : Qc) : fnum :=
  if Qceqb q 0%Qc then NaN
  else if xorb positive (Qcltb 0%Qc q) then NInf else PInf.

Definition fmul (x y : fnum) : fnum :=
  match x, y with
  | NaN, _ | _, NaN => NaN
  | PInf, PInf | NInf, NInf => PInf
  | PInf, NInf | NInf, PInf => NInf
  | PInf, Fin q | Fin q, PInf => inf_times true q
  | NInf, Fin q | Fin q, NInf => inf_times false q
  | Fin a, Fin b => Fin (a * b)%Qc
  end.

(** numpy's true division: dividing by zero yields an infinity or NaN. *)
Definition fdiv (x y : fnum) : fnum :=
  match x, y with
  | NaN, _ | _, NaN => NaN
  | Fin a, Fin b =>
      if Qceqb b 0%Qc then
        if Qceqb a 0%Qc then NaN else if Qcltb 0%Qc a then PInf else NInf
      else Fin (a / b)%Qc
  | Fin _, _ => f0
  | PInf, Fin b => if Qcltb b 0%Qc then NInf else PInf
  | NInf, Fin b => if Qcltb b 0%Qc then PInf else NInf
  | _, _ => NaN
  end.

Definition fabs (x : fnum) : fnum :=
  match x with
  | Fin q => Fin (if Qcltb q 0%Qc then - q else q)%Qc
  | PInf | NInf => PInf
  | NaN => NaN
  end.

(** Comparisons: every comparison with NaN is false, except [!=]. *)
Definition flt (x y : fnum) : bool :=
  match x, y with
  | NaN, _ | _, NaN => false
  | Fin a, Fin b => Qcltb a b
  | NInf, NInf | PInf, _ => false
  | NInf, _ => true
  | Fin _, PInf => true
  | Fin _, NInf => false
  end.

Definition feq (x y : fnum) : bool :=
  match x, y with
  | Fin a, Fin b => Qceqb a b
  | PInf, PInf | NInf, NInf => true
  | _, _ => false
  end.

Definition fle (x y : fnum) : bool := flt x y || feq x y.
Definition fgt (x y : fnum) : bool := flt y x.
Definition fge (x y : fnum) : bool := fle y x.
Definition fne (x y : fnum) : bool := negb (feq x y).

Definition isnan (x : fnum) : bool :=
  match x with NaN => true | _ => false end.

(** [max] as numpy and torch reduce it: NaN propagates. *)
Definition fmax (x y : fnum) : fnum :=
  if isnan x then NaN else if isnan y then NaN else if flt x y then y else x.

(** [np.isclose(a, b)] with the default tolerances:
    [|a - b| <= atol + rtol * |b|], equal infinities are close, NaN never. *)
Definition isclose_atol : Qc := Q2Qc (1 # 100000000).
Definition isclose_rtol : Qc := Q2Qc (1 # 100000).

Definition isclose (a b : fnum) : bool :=
  match a, b with
  | Fin _, Fin _ =>
      fle (fabs (fsub a b))
          (fadd (Fin isclose_atol) (fmul (Fin isclose_rtol) (fabs b)))
  | PInf, PInf | NInf, NInf => true
  | _, _ => false
  end.

(** [np.sum] / [torch.sum] of a one-dimensional array. *)
Definition fsum (l : list fnum) : fnum := fold_left fadd l f0.

(** [mean()]: the mean of an empty tensor is NaN (0/0). *)
Definition fmean (l : list fnum) : fnum := fdiv (fsum l) (fN (length l)).

#[global] Instance fnum_eq_dec : EqDecision fnum.
Proof. solve_decision. Defined.

End Num.
Export Num.

Open Scope string_scope.

(** ** The object *)

(** The constructor's configuration arguments, stored on [self] unchanged.
    [num_actions] is [action_space.n]. *)
Record Config : Type := {
  num_actions : nat;
  strategy : string;
  replay_schedule : string;
  score_transform : string;
  temperature : Qc;
  eps : Qc;
  rho : Qc;
  nu : Qc;
  alpha : Qc;
  staleness_coef : Qc;
  staleness_transform : string;
  staleness_temperature : Qc
}.

Record LevelSampler : Type := {
  config : Config;
  seeds : list Z;
  seed2index : gmap Z nat;
  unseen_seed_weights : list fnum;
  seed_scores : list fnum;
  partial_seed_scores : list (list fnum);
  partial_seed_steps : list (list Z);
  seed_staleness : list fnum;
  next_seed_index : nat
}.

Definition set_unseen_seed_weights (v : list fnum) (s : LevelSampler) :=
  {| config := config s; seeds := seeds s; seed2index := seed2index s;
     unseen_seed_weights := v; seed_scores := seed_scores s;
     partial_seed_scores := partial_seed_scores s;
     partial_seed_steps := partial_seed_steps s;
     seed_staleness := seed_staleness s;
     next_seed_index := next_seed_index s |}.

Definition set_seed_scores (v : list fnum) (s : LevelSampler) :=
  {| config := config s; seeds := seeds s; seed2index := seed2index s;
     unseen_seed_weights := unseen_seed_weights s; seed_scores := v;
     partial_seed_scores := partial_seed_scores s;
     partial_seed_steps := partial_seed_steps s;
     seed_staleness := seed_staleness s;
     next_seed_index := next_seed_index s |}.

Definition set_partial_seed_scores (v : list (list fnum)) (s : LevelSampler) :=
  {| config := config s; seeds := seeds s; seed2index := seed2index s;
     unseen_seed_weights := unseen_seed_weights s; seed_scores := seed_scores s;
     partial_seed_scores := v;
     partial_seed_steps := partial_seed_steps s;
     seed_staleness := seed_staleness s;
     next_seed_index := next_seed_index s |}.

Definition set_partial_seed_steps (v : list (list Z)) (s : LevelSampler) :=
  {| config := config s; seeds := seeds s; seed2index := seed2index s;
     unseen_seed_weights := unseen_seed_weights s; seed_scores := seed_scores s;
     partial_seed_scores := partial_seed_scores s;
     partial_seed_steps := v;
     seed_staleness := seed_staleness s;
     next_seed_index := next_seed_index s |}.

Definition set_seed_staleness (v : list fnum) (s : LevelSampler) :=
  {| config := config s; seeds := seeds s; seed2index := seed2index s;
     unseen_seed_weights := unseen_seed_weights s; seed_scores := seed_scores s;
     partial_seed_scores := partial_seed_scores s;
     partial_seed_steps := partial_seed_steps s;
     seed_staleness := v;
     next_seed_index := next_seed_index s |}.

Definition set_next_seed_index (v : nat) (s : LevelSampler) :=
  {| config := config s; seeds := seeds s; seed2index := seed2index s;
     unseen_seed_weights := unseen_seed_weights s; seed_scores := seed_scores s;
     partial_seed_scores := partial_seed_scores s;
     partial_seed_steps := partial_seed_steps s;
     seed_staleness := seed_staleness s;
     next_seed_index := v |}.

(** ** Exceptions, the call log and the monad *)

Inductive exn : Type :=
| IndexError
| KeyError
| ValueError
| ZeroDivisionError
| UnboundLocalError
| RuntimeError.

Inductive result (A : Type) : Type :=
| Ok (a : A)
| Raise (e : exn).
Arguments Ok {A} a.
Arguments Raise {A} e.

#[global] Instance exn_eq_dec : EqDecision exn.
Proof. solve_decision. Defined.

#[global] Instance result_eq_dec {A : Type} `{EqDecision A} :
  EqDecision (result A).
Proof. solve_decision. Defined.

(** Entries of the instrumentation log: which helper was entered, with the
    indices it was called on. *)
Inductive call : Type :=
| Call_update_seed_score (actor_index seed_idx : nat)
| Call_partial_update_seed_score (actor_index seed_idx : nat)
| Call_sample_replay_level
| Call_sample_unseen_level
| Call_update_staleness (selected_idx : nat).

#[global] Instance call_eq_dec : EqDecision call.
Proof. solve_decision. Defined.

Record outcome (A : Type) : Type := Outcome {
  final : LevelSampler;
  calls : list call;
  value : result A
}.
Arguments Outcome {A} final calls value.
Arguments final {A} o.
Arguments calls {A} o.
Arguments value {A} o.

Definition M (A : Type) : Type := LevelSampler -> outcome A.

#[global] Instance M_ret : MRet M :=
  fun A a self => Outcome self [] (Ok a).

#[global] Instance M_bind : MBind M :=
  fun A B f m self =>
    let o := m self in
    match value o with
    | Ok a =>
        let o' := f a (final o) in
        Outcome (final o') (calls o ++ calls o') (value o')
    | Raise e => Outcome (final o) (calls o) (Raise e)
    end.

Definition raise {A : Type} (e : exn) : M A :=
  fun self => Outcome self [] (Raise e).

Definition gets {A : Type} (f : LevelSampler -> A) : M A :=
  fun self => Outcome self [] (Ok (f self)).

Definition modify (f : LevelSampler -> LevelSampler) : M unit :=
  fun self => Outcome (f self) [] (Ok tt).

Definition enter (c : call) : M unit :=
  fun self => Outcome self [c] (Ok tt).

Definition lift {A : Type} (r : result A) : M A :=
  fun self => Outcome self [] r.

(** Pure fallible code (the score functions, array helpers) lives in
    [result]. *)
#[global] Instance result_ret : MRet result := fun A a => Ok a.
#[global] Instance result_bind : MBind result :=
  fun A B f r => match r with Ok a => f a | Raise e => Raise e end.

(** [l[i]] for a non-negative index: out of range raises [IndexError]. *)
Definition index {A : Type} (l : list A) (i : nat) : result A :=
  match l !! i with
  | Some x => Ok x
  | None => Raise IndexError
  end.

(** [l[i] = x]. *)
Definition store {A : Type} (l : list A) (i : nat) (x : A) : result (list A) :=
  if decide (i < length l) then Ok (<[i := x]> l) else Raise IndexError.

(** [m[i][j]] and [m[i][j] = x] on a two-dimensional array. *)
Definition index2 {A : Type} (m : list (list A)) (i j : nat) : result A :=
  row ← index m i; index row j.

Definition store2 {A : Type} (m : list (list A)) (i j : nat) (x : A)
  : result (list (list A)) :=
  row ← index m i; row' ← store row j x; store m i row'.

(** Reading [self] through a fallible accessor, and a fallible in-place
    update of [self]: when the update raises, [self] is left as it was. *)
Definition reads {A : Type} (f : LevelSampler -> result A) : M A :=
  fun self => Outcome self [] (f self).

Definition updates (f : LevelSampler -> result LevelSampler) : M unit :=
  fun self =>
    match f self with
    | Ok self' => Outcome self' [] (Ok tt)
    | Raise e => Outcome self [] (Raise e)
    end.

(** ** The score ledger *)

(** [_partial_update_seed_score(actor_index, seed_idx, score, num_steps, done)] *)
Definition _partial_update_seed_score
    (actor_index seed_idx : nat) (score : fnum) (num_steps : Z) (done : bool)
  : M fnum :=
  enter (Call_partial_update_seed_score actor_index seed_idx);;
  partial_score ← reads (fun self =>
    index2 (partial_seed_scores self) actor_index seed_idx);
  partial_num_steps ← reads (fun self =>
    index2 (partial_seed_steps self) actor_index seed_idx);
  let running_num_steps := (partial_num_steps + num_steps)%Z in
  let merged_score :=
    fadd partial_score
         (fdiv (fmul (fsub score partial_score) (fZ num_steps))
               (fZ running_num_steps)) in
  (if done then
     updates (fun self =>
       m ← store2 (partial_seed_scores self) actor_index seed_idx f0;
       mret (set_partial_seed_scores m self));;
     updates (fun self =>
       m ← store2 (partial_seed_steps self) actor_index seed_idx 0%Z;
       mret (set_partial_seed_steps m self))
   else
     updates (fun self =>
       m ← store2 (partial_seed_scores self) actor_index seed_idx merged_score;
       mret (set_partial_seed_scores m self));;
     updates (fun self =>
       m ← store2 (partial_seed_steps self) actor_index seed_idx
                  running_num_steps;
       mret (set_partial_seed_steps m self)));;
  mret merged_score.

(** [update_seed_score(actor_index, seed_idx, score, num_steps)] *)
Definition update_seed_score
    (actor_index seed_idx : nat) (score : fnum) (num_steps : Z) : M unit :=
  enter (Call_update_seed_score actor_index seed_idx);;
  score ← _partial_update_seed_score actor_index seed_idx score num_steps true;
  updates (fun self =>
    u ← store (unseen_seed_weights self) seed_idx f0;
    mret (set_unseen_seed_weights u self));;
  old_score ← reads (fun self => index (seed_scores self) seed_idx);
  updates (fun self =>
    let a := alpha (config self) in
    v ← store (seed_scores self) seed_idx
          (fadd (fmul (Fin (1 - a)%Qc) old_score) (fmul (Fin a) score));
    mret (set_seed_scores v self)).

(** The loops of [after_update]: [for seed_idx in range(shape[1])] inside
    [for actor_index in range(shape[0])]. *)
Fixpoint for_each {A : Type} (body : A -> M unit) (l : list A) : M unit :=
  match l with
  | [] => mret tt
  | x :: l' => body x;; for_each body l'
  end.

(** [a.shape[1]] of a two-dimensional array.  An array without rows is
    given width 0 here; [after_update] reads the width only inside the loop
    over the rows, which is then empty. *)
Definition shape1 {A : Type} (m : list (list A)) : nat :=
  match m with
  | [] => 0
  | row :: _ => length row
  end.

Definition after_update_seed (actor_index seed_idx : nat) : M unit :=
  p ← reads (fun self =>
    index2 (partial_seed_scores self) actor_index seed_idx);
  if fne p f0 then update_seed_score actor_index seed_idx f0 0%Z
  else mret tt.

(** [a.fill(0)] *)
Definition fill {A : Type} (x : A) (m : list (list A)) : list (list A) :=
  map (map (fun _ => x)) m.

(** [after_update()] *)
Definition after_update : M unit :=
  shape ← gets (fun self =>
    (length (partial_seed_scores self), shape1 (partial_seed_scores self)));
  for_each (fun actor_index =>
    for_each (fun seed_idx => after_update_seed actor_index seed_idx)
             (seq 0 (snd shape)))
    (seq 0 (fst shape));;
  modify (fun self => set_partial_seed_scores (fill f0 (partial_seed_scores self)) self);;
  modify (fun self => set_partial_seed_steps (fill 0%Z (partial_seed_steps self)) self).

(** [_update_staleness(selected_idx)] *)
Definition _update_staleness (selected_idx : nat) : M unit :=
  enter (Call_update_staleness selected_idx);;
  coef ← gets (fun self => staleness_coef (config self));
  if Qcltb 0%Qc coef then
    modify (fun self =>
      set_seed_staleness (map (fun x => fadd x f1) (seed_staleness self)) self);;
    updates (fun self =>
      v ← store (seed_staleness self) selected_idx f0;
      mret (set_seed_staleness v self))
  else mret tt.


(** ** Arrays and tensors *)

Fixpoint mapR {A B : Type} (f : A -> result B) (l : list A) : result (list B) :=
  match l with
  | [] => Ok []
  | x :: l' => y ← f x; ys ← mapR f l'; mret (y :: ys)
  end.

(** [x[:, j]]: column [j] of a two-dimensional array. *)
Definition column {A : Type} (x : list (list A)) (j : nat) : result (list A) :=
  mapR (fun row => index row j) x.

(** [l[start:stop]] with Python's treatment of negative and out-of-range
    bounds; [None] is an omitted bound. *)
Definition clamp_bound (len : nat) (b : Z) : nat :=
  let b' := (if b <? 0 then b + Z.of_nat len else b)%Z in
  Z.to_nat (Z.min (Z.max b' 0) (Z.of_nat len)).

Definition py_slice {A : Type} (l : list A) (start stop : option Z) : list A :=
  let lo := from_option (clamp_bound (length l)) 0 start in
  let hi := from_option (clamp_bound (length l)) (length l) stop in
  take (hi - lo) (drop lo l).

(** An elementwise binary operation on one-dimensional arrays: the sizes
    must agree, or one of them is 1 and that operand is broadcast; otherwise
    the library raises ([RuntimeError] in torch, [ValueError] in numpy). *)
Definition elementwise (e : exn) (f : fnum -> fnum -> fnum) (xs ys : list fnum)
  : result (list fnum) :=
  if decide (length xs = length ys) then Ok (zip_with f xs ys)
  else match xs, ys with
       | [x], _ => Ok (map (f x) ys)
       | _, [y] => Ok (map (fun x => f x y) xs)
       | _, _ => Raise e
       end.

(** ** The rollout batch *)

(** The external collaborator: for [T] steps and [W] workers, [level_seeds],
    [masks], [rewards] are [T x W], [action_log_dist] is [T x W x num_actions];
    [returns] and [value_preds] have at least [T] rows. *)
Record RolloutStorage : Type := {
  level_seeds : list (list Z);
  action_log_dist : list (list (list fnum));
  masks : list (list fnum);
  returns : list (list fnum);
  rewards : list (list fnum);
  value_preds : list (list fnum)
}.

(** The keyword arguments handed to a score function: [episode_logits] is
    always present, the value buffers only when the strategy requires them. *)
Record kwargs : Type := {
  kw_episode_logits : list (list fnum);
  kw_returns : option (list fnum);
  kw_rewards : option (list fnum);
  kw_value_preds : option (list fnum)
}.

(** [kwargs['key']] *)
Definition kw {A : Type} (o : option A) : result A :=
  match o with
  | Some x => Ok x
  | None => Raise KeyError
  end.

(** ** Score functions, sampling weights and the scheduler *)

Section Sampler.

(** The transcendental functions of numpy and torch. *)
Variable fexp : fnum -> fnum.
Variable flog : fnum -> fnum.
Variable fpow : fnum -> fnum -> fnum.

(** [torch.log_softmax(x, -1)] on one row. *)
Definition log_softmax (row : list fnum) : list fnum :=
  let lse := flog (fsum (map fexp row)) in
  map (fun x => fsub x lse) row.

(** [_average_entropy] *)
Definition _average_entropy (n_actions : nat) (k : kwargs) : result fnum :=
  let episode_logits := kw_episode_logits k in
  if decide (n_actions = 0) then Raise ZeroDivisionError
  else
    let inv_n := Fin (1 / N2Qc n_actions)%Qc in
    let max_entropy := fmul (fmul (fneg inv_n) (flog inv_n)) (fN n_actions) in
    let per_step :=
      map (fun row => fsum (map (fun l => fmul (fneg (fexp l)) l) row))
          episode_logits in
    Ok (fdiv (fmean per_step) max_entropy).

(** [x.max(-1)] on one row: an empty row cannot be reduced (torch raises
    [IndexError]). *)
Definition row_max (row : list fnum) : result fnum :=
  match row with
  | [] => Raise IndexError
  | x :: row' => Ok (fold_left fmax row' x)
  end.

(** [_average_least_confidence] *)
Definition _average_least_confidence (k : kwargs) : result fnum :=
  let episode_logits := kw_episode_logits k in
  maxima ← mapR row_max episode_logits;
  Ok (fmean (map (fun m => fsub f1 (fexp m)) maxima)).

(** [x.topk(2, dim=-1)[0]] on one row: the two largest entries, largest
    first; fewer than two entries is an error. *)
Definition top2_step (acc : fnum * fnum) (x : fnum) : fnum * fnum :=
  let '(a, b) := acc in
  if flt a x then (x, a) else if flt b x then (a, x) else (a, b).

Definition row_top2 (row : list fnum) : result (fnum * fnum) :=
  match row with
  | x :: y :: row' =>
      Ok (fold_left top2_step row' (if flt x y then (y, x) else (x, y)))
  | _ => Raise RuntimeError
  end.

(** [_average_min_margin] *)
Definition _average_min_margin (k : kwargs) : result fnum :=
  let episode_logits := kw_episode_logits k in
  tops ← mapR row_top2 episode_logits;
  let top2_confidence := map (fun t => (fexp (fst t), fexp (snd t))) tops in
  Ok (fsub f1 (fmean (map (fun t => fsub (fst t) (snd t)) top2_confidence))).

(** [_average_gae] *)
Definition _average_gae (k : kwargs) : result fnum :=
  returns ← kw (kw_returns k);
  value_preds ← kw (kw_value_preds k);
  advantages ← elementwise RuntimeError fsub returns value_preds;
  Ok (fmean advantages).

(** [_average_value_l1] *)
Definition _average_value_l1 (k : kwargs) : result fnum :=
  returns ← kw (kw_returns k);
  value_preds ← kw (kw_value_preds k);
  advantages ← elementwise RuntimeError fsub returns value_preds;
  Ok (fmean (map fabs advantages)).

(** [_one_step_td_error] *)
Definition _one_step_td_error (k : kwargs) : result fnum :=
  rewards ← kw (kw_rewards k);
  value_preds ← kw (kw_value_preds k);
  let max_t := Z.of_nat (length rewards) in
  s ← elementwise RuntimeError fadd (py_slice rewards None (Some (-1)%Z))
         (py_slice value_preds None (Some (max_t - 1)%Z));
  d ← elementwise RuntimeError fsub s (py_slice value_preds (Some 1%Z) (Some max_t));
  let td_errors := map fabs d in
  Ok (fmean (map fabs td_errors)).

(** [requires_value_buffers] *)
Definition requires_value_buffers (self : LevelSampler) : bool :=
  let s := strategy (config self) in
  (s =? "gae") || (s =? "value_l1") || (s =? "one_step_td_error").

(** [x[start_t:stop, actor_index]] ([stop = None] is the open slice
    [start_t:]). *)
Definition segment {A : Type} (x : list (list A))
    (start_t : nat) (stop : option nat) (actor_index : nat) : result (list A) :=
  column (py_slice x (Some (Z.of_nat start_t)) (Z.of_nat <$> stop)) actor_index.

(** The keyword arguments built for one segment of worker [actor_index]. *)
Definition segment_kwargs (rollouts : RolloutStorage)
    (start_t : nat) (stop : option nat) (actor_index : nat) : M kwargs :=
  episode_logits ←
    lift (segment (action_log_dist rollouts) start_t stop actor_index);
  needs ← gets requires_value_buffers;
  if needs : bool then
    rets ← lift (segment (returns rollouts) start_t stop actor_index);
    rews ← lift (segment (rewards rollouts) start_t stop actor_index);
    vals ← lift (segment (value_preds rollouts) start_t stop actor_index);
    mret {| kw_episode_logits := map log_softmax episode_logits;
            kw_returns := Some rets;
            kw_rewards := Some rews;
            kw_value_preds := Some vals |}
  else
    mret {| kw_episode_logits := map log_softmax episode_logits;
            kw_returns := None; kw_rewards := None; kw_value_preds := None |}.

(** [self.seed2index[level_seeds[start_t, actor_index].item()]] *)
Definition seed_index_at (rollouts : RolloutStorage)
    (start_t actor_index : nat) : M nat :=
  seed_t ← lift (index2 (level_seeds rollouts) start_t actor_index);
  reads (fun self =>
    match seed2index self !! seed_t with
    | Some i => Ok i
    | None => Raise KeyError
    end).

(** The body of [for t in done_steps]; the loop variable [start_t] is
    threaded through and returned. [break] leaves the loop with the rest of
    [done_steps] unread, [continue] moves to the next [t]. *)
Fixpoint done_loop (score_function : kwargs -> result fnum)
    (rollouts : RolloutStorage) (total_steps actor_index : nat)
    (done_steps : list nat) (start_t : nat) : M nat :=
  match done_steps with
  | [] => mret start_t
  | t :: done_steps' =>
      if negb (start_t <? total_steps)%nat then mret start_t
      else if (t =? 0)%nat then
        done_loop score_function rollouts total_steps actor_index
                  done_steps' start_t
      else
        seed_idx_t ← seed_index_at rollouts start_t actor_index;
        k ← segment_kwargs rollouts start_t (Some t) actor_index;
        score ← lift (score_function k);
        let num_steps := Z.of_nat (length (kw_episode_logits k)) in
        update_seed_score actor_index seed_idx_t score num_steps;;
        done_loop score_function rollouts total_steps actor_index
                  done_steps' t
  end.

(** [done[:, actor_index].nonzero()[:total_steps, 0]] where
    [done = ~(masks > 0)]: the steps at which the worker's episode ended. *)
Definition nonzero (l : list bool) : list nat :=
  map fst (filter (fun p => snd p = true) (imap (fun i b => (i, b)) l)).

Definition done_steps_of (rollouts : RolloutStorage)
    (total_steps actor_index : nat) : result (list nat) :=
  col ← column (masks rollouts) actor_index;
  Ok (take total_steps (nonzero (map (fun m => negb (fgt m f0)) col))).

(** The body of [for actor_index in range(num_actors)]. *)
Definition update_actor (score_function : kwargs -> result fnum)
    (rollouts : RolloutStorage) (total_steps actor_index : nat) : M unit :=
  done_steps ← lift (done_steps_of rollouts total_steps actor_index);
  start_t ← done_loop score_function rollouts total_steps actor_index
                      done_steps 0;
  if (start_t <? total_steps)%nat then
    seed_idx_t ← seed_index_at rollouts start_t actor_index;
    k ← segment_kwargs rollouts start_t None actor_index;
    score ← lift (score_function k);
    let num_steps := Z.of_nat (length (kw_episode_logits k)) in
    _partial_update_seed_score actor_index seed_idx_t score num_steps false;;
    mret tt
  else mret tt.

(** [_update_with_rollouts(rollouts, score_function)] *)
Definition _update_with_rollouts (rollouts : RolloutStorage)
    (score_function : kwargs -> result fnum) : M unit :=
  let policy_logits := action_log_dist rollouts in
  let total_steps := length policy_logits in
  let num_actors := shape1 policy_logits in
  for_each (update_actor score_function rollouts total_steps)
           (seq 0 num_actors).

(** [update_with_rollouts(rollouts)] *)
Definition update_with_rollouts (rollouts : RolloutStorage) : M unit :=
  s ← gets (fun self => strategy (config self));
  if s =? "random" then mret tt
  else
    n ← gets (fun self => num_actions (config self));
    score_function ←
      (if s =? "policy_entropy" then mret (_average_entropy n)
       else if s =? "least_confidence" then mret _average_least_confidence
       else if s =? "min_margin" then mret _average_min_margin
       else if s =? "gae" then mret _average_gae
       else if s =? "value_l1" then mret _average_value_l1
       else if s =? "one_step_td_error" then mret _one_step_td_error
       else raise ValueError);
    _update_with_rollouts rollouts score_function.

(** *** Random draws and [np.random.choice] *)

(** The random numbers one call of [sample()] may consume. *)
Record draws : Type := {
  rand : Qc;            (* [np.random.rand()] in [sample] *)
  choice_sample : Qc;   (* the uniform sample behind [np.random.choice(.., p=p)] *)
  choice_index : nat;   (* the integer behind [np.random.choice(range(n))] *)
  tie_scores : nat;     (* the integer behind the tie-break of 'max' on scores *)
  tie_staleness : nat   (* the same, on staleness *)
}.

(** [np.random.choice(a)] without [p]: a uniform element of [a]; an empty
    population is refused. *)
Definition choice_uniform (a : list nat) (i : nat) : result nat :=
  match a with
  | [] => Raise ValueError
  | _ :: _ => index a (i mod length a)
  end.

Fixpoint cumsum_from (acc : fnum) (p : list fnum) : list fnum :=
  match p with
  | [] => []
  | x :: p' => fadd acc x :: cumsum_from (fadd acc x) p'
  end.

Definition cumsum (p : list fnum) : list fnum := cumsum_from f0 p.

(** [cdf.searchsorted(u, side='right')] on a sorted array: how many entries
    are [<= u]. *)
Definition searchsorted_right (cdf : list fnum) (u : fnum) : nat :=
  length (filter (fun c => fle c u = true) cdf).

(** The tolerance numpy allows on the sum of [p]: the square root of the
    double-precision machine epsilon, [2^-26]. *)
Definition choice_atol : Qc := Q2Qc (1 # 67108864).

(** [np.random.choice(range(pop_size), 1, p=p)[0]], as numpy implements it:
    [p] is validated, then the drawn uniform sample [u] is located in the
    cumulative distribution. *)
Definition choice_p (pop_size : nat) (p : list fnum) (u : Qc) : result nat :=
  if decide (pop_size = 0) then Raise ValueError
  else if decide (length p = pop_size) then
    let p_sum := fsum p in
    if isnan p_sum then Raise ValueError
    else if existsb (fun x => flt x f0) p then Raise ValueError
    else if fgt (fabs (fsub p_sum f1)) (Fin choice_atol) then Raise ValueError
    else
      let cdf := cumsum p in
      let cdf := map (fun c => fdiv c (List.last cdf NaN)) cdf in
      Ok (searchsorted_right cdf (Fin u))
  else Raise ValueError.

(** *** Weight transforms *)

(** [_score_transform] receives [self.seed_scores] or [self.seed_staleness];
    the array is passed by reference, so the argument is the attribute's
    name. *)
Inductive array_ref : Type :=
| Ref_seed_scores
| Ref_seed_staleness.

Definition deref (r : array_ref) (self : LevelSampler) : list fnum :=
  match r with
  | Ref_seed_scores => seed_scores self
  | Ref_seed_staleness => seed_staleness self
  end.

Definition assign (r : array_ref) (v : list fnum) (self : LevelSampler)
  : LevelSampler :=
  match r with
  | Ref_seed_scores => set_seed_scores v self
  | Ref_seed_staleness => set_seed_staleness v self
  end.

(** [a[mask] = x] with a boolean mask, which must have the size of [a]. *)
Definition masked_fill (a : list fnum) (mask : list bool) (x : fnum)
  : result (list fnum) :=
  if decide (length mask = length a) then
    Ok (zip_with (fun v (b : bool) => if b then x else v) a mask)
  else Raise IndexError.

(** [a.max()] *)
Definition array_max (a : list fnum) : result fnum :=
  match a with
  | [] => Raise ValueError
  | x :: a' => Ok (fold_left fmax a' x)
  end.

(** [np.flatnonzero] of a boolean array. *)
Definition flatnonzero (l : list bool) : list nat := nonzero l.

(** [a.argmax()]: the first index of the maximum, the first NaN if any. *)
Definition argmax_step (best : nat * fnum) (cur : nat * fnum) : nat * fnum :=
  if isnan (snd best) then best
  else if isnan (snd cur) || flt (snd best) (snd cur) then cur
  else best.

Definition argmax (a : list fnum) : result nat :=
  match a with
  | [] => Raise ValueError
  | x :: a' =>
      Ok (fst (fold_left argmax_step (imap (fun i v => (S i, v)) a') (0, x)))
  end.

(** [a.argsort()]: indices that sort [a] in ascending order, NaN last.
    The order among equal keys is the one of a stable sort.  numpy's default
    sort promises no order among equal keys (it is the stable one on short
    arrays, which it sorts by insertion); the model fixes the stable order
    for every length, and nothing below depends on how ties are ordered. *)
Definition sort_le (x y : fnum) : bool :=
  if isnan y then true else if isnan x then false else fle x y.

Fixpoint insert_sorted (a : list fnum) (i : nat) (l : list nat) : list nat :=
  match l with
  | [] => [i]
  | j :: l' =>
      if sort_le (default NaN (a !! j)) (default NaN (a !! i))
      then j :: insert_sorted a i l'
      else i :: j :: l'
  end.

Definition argsort (a : list fnum) : list nat :=
  fold_left (fun l i => insert_sorted a i l) (seq 0 (length a)) [].

(** [ranks[temp] = np.arange(len(temp)) + 1] on a fresh array. *)
Definition ranks_of (temp : list nat) : list nat :=
  fold_left (fun ranks p => <[snd p := S (fst p)]> ranks)
            (imap (fun i j => (i, j)) temp)
            (replicate (length temp) 0).

(** [1./temperature] on Python floats. *)
Definition py_inverse (temperature : Qc) : result fnum :=
  if Qceqb temperature 0%Qc then Raise ZeroDivisionError
  else Ok (Fin (1 / temperature)%Qc).

(** [_score_transform(transform, temperature, scores)].  [tie] is the
    integer drawn by the tie-break of 'max'.

    In the 'max' branch [scores = scores[:]] is a view of the array that was
    passed in (slicing a numpy array does not copy), so the masked
    assignment that follows writes into the attribute itself. *)
Definition _score_transform (transform : string) (temperature : Qc)
    (scores : array_ref) (tie : nat) : M (list fnum) :=
  s ← gets (deref scores);
  let constant_weights :=
    if transform =? "constant" then Some (map (fun _ => f1) s) else None in
  if transform =? "max" then
    let weights := map (fun _ => f0) s in
    unseen ← gets unseen_seed_weights;
    s' ← lift (masked_fill s (map (fun u => fgt u f0) unseen) NInf);
    modify (assign scores s');;
    m ← lift (array_max s');
    argmax ← lift (choice_uniform
                     (flatnonzero (map (fun x => isclose x m) s')) tie);
    lift (store weights argmax f1)
  else if transform =? "eps_greedy" then
    let weights := map (fun _ => f0) s in
    e ← gets (fun self => eps (config self));
    i ← lift (argmax s);
    weights ← lift (store weights i (Fin (1 - e)%Qc));
    n ← gets (fun self => length (seeds self));
    if decide (n = 0) then raise ZeroDivisionError
    else mret (map (fun w => fadd w (Fin (e / N2Qc n)%Qc)) weights)
  else if transform =? "rank" then
    let temp := rev (argsort s) in
    let ranks := ranks_of temp in
    inv ← lift (py_inverse temperature);
    mret (map (fun r => fdiv f1 (fpow (fN r) inv)) ranks)
  else if transform =? "power" then
    coef ← gets (fun self => staleness_coef (config self));
    let e := if Qcltb 0%Qc coef then 0%Qc else Q2Qc (1 # 1000) in
    inv ← lift (py_inverse temperature);
    mret (map (fun x => fpow (fadd x (Fin e)) inv) s)
  else if transform =? "softmax" then
    mret (map (fun x => fexp (fdiv x (Fin temperature))) s)
  else
    match constant_weights with
    | Some weights => mret weights
    | None => raise UnboundLocalError
    end.

(** [weights * (1 - self.unseen_seed_weights)] followed by
    [z = np.sum(weights); if z > 0: weights /= z]. *)
Definition mask_unseen (weights : list fnum) : M (list fnum) :=
  unseen ← gets unseen_seed_weights;
  lift (elementwise ValueError fmul weights (map (fun u => fsub f1 u) unseen)).

Definition normalize (weights : list fnum) : list fnum :=
  let z := fsum weights in
  if fgt z f0 then map (fun w => fdiv w z) weights else weights.

(** [sample_weights()] *)
Definition sample_weights (d : draws) : M (list fnum) :=
  transform ← gets (fun self => score_transform (config self));
  temp ← gets (fun self => temperature (config self));
  weights ← _score_transform transform temp Ref_seed_scores (tie_scores d);
  weights ← mask_unseen weights;
  let weights := normalize weights in
  coef ← gets (fun self => staleness_coef (config self));
  if Qcltb 0%Qc coef then
    transform ← gets (fun self => staleness_transform (config self));
    temp ← gets (fun self => staleness_temperature (config self));
    staleness_weights ←
      _score_transform transform temp Ref_seed_staleness (tie_staleness d);
    staleness_weights ← mask_unseen staleness_weights;
    let staleness_weights := normalize staleness_weights in
    lift (elementwise ValueError fadd
            (map (fmul (Fin (1 - coef)%Qc)) weights)
            (map (fmul (Fin coef)) staleness_weights))
  else mret weights.

(** The distribution [_sample_replay_level] hands to [np.random.choice]:
    [sample_weights()], or the uniform distribution when those sum to
    (nearly) zero. *)
Definition replay_distribution (sample_weights : list fnum) : list fnum :=
  if isclose (fsum sample_weights) f0
  then map (fun _ => fdiv f1 (fN (length sample_weights))) sample_weights
  else sample_weights.

(** [_sample_replay_level()] *)
Definition _sample_replay_level (d : draws) : M Z :=
  enter Call_sample_replay_level;;
  w ← sample_weights d;
  let p := replay_distribution w in
  n ← gets (fun self => length (seeds self));
  seed_idx ← lift (choice_p n p (choice_sample d));
  seed ← reads (fun self => index (seeds self) seed_idx);
  _update_staleness seed_idx;;
  mret seed.

(** [_sample_unseen_level()] *)
Definition _sample_unseen_level (d : draws) : M Z :=
  enter Call_sample_unseen_level;;
  unseen ← gets unseen_seed_weights;
  let p := map (fun u => fdiv u (fsum unseen)) unseen in
  n ← gets (fun self => length (seeds self));
  seed_idx ← lift (choice_p n p (choice_sample d));
  seed ← reads (fun self => index (seeds self) seed_idx);
  _update_staleness seed_idx;;
  mret seed.

(** [proportion_seen] as [sample] computes it. *)
Definition num_unseen (self : LevelSampler) : nat :=
  length (filter (fun u => fgt u f0 = true) (unseen_seed_weights self)).

Definition proportion_seen (self : LevelSampler) : fnum :=
  fdiv (fsub (fN (length (seeds self))) (fN (num_unseen self)))
       (fN (length (seeds self))).

(** [sample(strategy=None)] *)
Definition sample (strategy_arg : option string) (d : draws) : M Z :=
  own ← gets (fun self => strategy (config self));
  let strategy :=
    match strategy_arg with
    | None => own
    | Some s => if s =? "" then own else s
    end in
  if strategy =? "random" then
    n ← gets (fun self => length (seeds self));
    seed_idx ← lift (choice_uniform (seq 0 n) (choice_index d));
    reads (fun self => index (seeds self) seed_idx)
  else if strategy =? "sequential" then
    seed_idx ← gets next_seed_index;
    n ← gets (fun self => length (seeds self));
    (if decide (n = 0) then raise ZeroDivisionError
     else modify (set_next_seed_index ((seed_idx + 1) mod n)));;
    reads (fun self => index (seeds self) seed_idx)
  else
    seen ← gets proportion_seen;
    schedule ← gets (fun self => replay_schedule (config self));
    r ← gets (fun self => rho (config self));
    v ← gets (fun self => nu (config self));
    if schedule =? "fixed" then
      if fge seen (Fin r) then
        if fgt (Fin (rand d)) (Fin v) || negb (flt seen f1)
        then _sample_replay_level d
        else _sample_unseen_level d
      else _sample_unseen_level d
    else
      if fge seen (Fin r) && flt (Fin (rand d)) seen
      then _sample_replay_level d
      else _sample_unseen_level d.

(** [_init_seed_index] builds the dictionary [seed2index] (a seed listed
    twice keeps its last index); [__init__] is the fresh sampler. *)
Definition _init_seed_index (seeds : list Z) : gmap Z nat :=
  fold_left (fun m p => <[snd p := fst p]> m)
            (imap (fun i seed => (i, seed)) seeds) ∅.

Definition __init__ (seeds : list Z) (num_actors : nat) (c : Config) : LevelSampler :=
  {| config := c;
     seeds := seeds;
     seed2index := _init_seed_index seeds;
     unseen_seed_weights := replicate (length seeds) f1;
     seed_scores := replicate (length seeds) f0;
     partial_seed_scores := replicate num_actors (replicate (length seeds) f0);
     partial_seed_steps := replicate num_actors (replicate (length seeds) 0%Z);
     seed_staleness := replicate (length seeds) f0;
     next_seed_index := 0 |}.

(** ** Specification-side definitions *)

(** The merge rule [merge(p, n_p, s, n_s) = p + (s - p)·n_s/(n_p + n_s)]. *)
Definition merge (p : fnum) (n_p : Z) (s : fnum) (n_s : Z) : fnum :=
  fadd p (fdiv (fmul (fsub s p) (fZ n_s)) (fZ (n_p + n_s))).

(** The weighted mean [Σ(nᵢ·sᵢ)/Σnᵢ] of segments given as (score, steps). *)
Definition weighted_sum (segs : list (Qc * Z)) : Qc :=
  foldr (fun p acc => (Z2Qc (snd p) * fst p + acc)%Qc) 0%Qc segs.

Definition total_steps_of (segs : list (Qc * Z)) : Z :=
  foldr (fun p acc => (snd p + acc)%Z) 0%Z segs.

Definition weighted_mean (segs : list (Qc * Z)) : Qc :=
  (weighted_sum segs / Z2Qc (total_steps_of segs))%Qc.

(** Feeding a sequence of unfinished segments of one (worker, seed) pair to
    the ledger, as successive rollout batches do. *)
Definition feed_partial (actor_index seed_idx : nat) (segs : list (Qc * Z))
  : M unit :=
  for_each (fun p =>
    _partial_update_seed_score actor_index seed_idx (Fin (fst p)) (snd p) false;;
    mret tt) segs.

(** The one-step TD-error score in the specification's words: the mean over
    [t] in [0 .. T-2] of [|r[t] + v[t] - v[t+1]|]. *)
Definition td_error_spec (rewards value_preds : list fnum) : fnum :=
  fmean (map (fun t =>
           fabs (fsub (fadd (default NaN (rewards !! t))
                            (default NaN (value_preds !! t)))
                      (default NaN (value_preds !! S t))))
         (seq 0 (length rewards - 1))).

(** The two statements [weights = self._score_transform(...)] and
    [weights = weights * (1 - self.unseen_seed_weights)] of
    [sample_weights], taken together: the masked, not yet normalised
    weights. *)
Definition masked_weights (transform : string) (temp : Qc)
    (scores : array_ref) (tie : nat) : M (list fnum) :=
  weights ← _score_transform transform temp scores tie;
  mask_unseen weights.

Definition all_finite (l : list fnum) : Prop :=
  Forall (fun x => is_finite x = true) l.

(** The public operations the training loop calls. *)
Inductive operation : Type :=
| Op_update_with_rollouts (rollouts : RolloutStorage)
| Op_after_update
| Op_sample (strategy_arg : option string) (d : draws).

Definition run (op : operation) : M unit :=
  match op with
  | Op_update_with_rollouts rollouts => update_with_rollouts rollouts
  | Op_after_update => after_update
  | Op_sample strategy_arg d => sample strategy_arg d;; mret tt
  end.

(** ** Basic facts: numbers *)

Lemma Qceqb_true (x y : Qc) : Qceqb x y = true <-> x = y.
Proof.
  unfold Qceqb. rewrite Qeq_bool_iff. split.
  - apply Qc_is_canon.
  - intros ->. reflexivity.
Qed.

Lemma Qceqb_false (x y : Qc) : Qceqb x y = false <-> x <> y.
Proof.
  rewrite <- Qceqb_true. destruct (Qceqb x y); split; congruence.
Qed.

Lemma Qcltb_true (x y : Qc) : Qcltb x y = true <-> (x < y)%Qc.
Proof.
  unfold Qcltb. rewrite negb_true_iff, <- not_true_iff_false, Qle_bool_iff.
  split; intros H.
  - apply Qnot_le_lt in H. exact H.
  - apply Qlt_not_le. exact H.
Qed.

Lemma Qcltb_false (x y : Qc) : Qcltb x y = false <-> (y <= x)%Qc.
Proof.
  unfold Qcltb. rewrite negb_false_iff, Qle_bool_iff. reflexivity.
Qed.

Lemma Z2Qc_add (a b : Z) : Z2Qc (a + b) = (Z2Qc a + Z2Qc b)%Qc.
Proof.
  unfold Z2Qc. apply Qc_is_canon. simpl.
  rewrite !Qred_correct. rewrite inject_Z_plus. reflexivity.
Qed.

Lemma Z2Qc_0 : Z2Qc 0 = 0%Qc.
Proof. apply Qc_is_canon. reflexivity. Qed.

Lemma Z2Qc_pos (z : Z) : (0 < z)%Z -> (0 < Z2Qc z)%Qc.
Proof.
  intros H. unfold Z2Qc, Qclt. simpl.
  rewrite (Qred_correct (inject_Z z)). unfold Qlt. simpl. lia.
Qed.

Lemma Z2Qc_nonzero (z : Z) : (0 < z)%Z -> Z2Qc z <> 0%Qc.
Proof.
  intros H E. apply Z2Qc_pos in H. rewrite E in H.
  exact (Qclt_not_eq _ _ H eq_refl).
Qed.

(** ** Basic facts: arrays *)

Lemma index_Ok {A : Type} (l : list A) (i : nat) (x : A) :
  index l i = Ok x <-> l !! i = Some x.
Proof. unfold index. destruct (l !! i); split; congruence. Qed.

Lemma store_Ok {A : Type} (l l' : list A) (i : nat) (x : A) :
  store l i x = Ok l' <-> i < length l /\ l' = <[i := x]> l.
Proof.
  unfold store. destruct (decide (i < length l)); split.
  - intros [= <-]. done.
  - intros [_ ->]. done.
  - discriminate.
  - intros [? _]. lia.
Qed.

Lemma store_in_range {A : Type} (l : list A) (i : nat) (x v : A) :
  l !! i = Some v -> store l i x = Ok (<[i := x]> l).
Proof.
  intros H. apply store_Ok. split; [|done]. by eapply lookup_lt_Some.
Qed.

Lemma index2_Ok {A : Type} (m : list (list A)) (i j : nat) (x : A) :
  index2 m i j = Ok x <-> exists row, m !! i = Some row /\ row !! j = Some x.
Proof.
  unfold index2, index. destruct (m !! i) as [row|]; simpl.
  - destruct (row !! j) eqn:E; split.
    + intros [= <-]. eauto.
    + intros (? & [= <-] & ?). congruence.
    + discriminate.
    + intros (? & [= <-] & ?). congruence.
  - split; [discriminate|]. intros (? & ? & _). discriminate.
Qed.

Lemma store2_in_range {A : Type} (m : list (list A)) (i j : nat) (x v : A)
    (row : list A) :
  m !! i = Some row -> row !! j = Some v ->
  store2 m i j x = Ok (<[i := <[j := x]> row]> m).
Proof.
  intros Hm Hr. unfold store2, index. rewrite Hm. simpl.
  rewrite (store_in_range _ _ _ _ Hr). simpl.
  by eapply store_in_range.
Qed.

(** ** The ledger, one call at a time *)

Ltac run_monad :=
  cbv [mbind mret M_bind M_ret result_bind result_ret
       gets reads updates modify enter lift raise]; cbn [final calls value].

(** On an accumulator that exists, [_partial_update_seed_score] returns the
    merged score and either clears the accumulator or stores the merge. *)
Lemma partial_update_run (self : LevelSampler) (a s : nat) (score : fnum)
    (m : Z) (done : bool) (rowS : list fnum) (rowN : list Z) (p : fnum) (n : Z) :
  partial_seed_scores self !! a = Some rowS -> rowS !! s = Some p ->
  partial_seed_steps self !! a = Some rowN -> rowN !! s = Some n ->
  _partial_update_seed_score a s score m done self =
    Outcome
      (set_partial_seed_steps
         (<[a := <[s := if done then 0%Z else (n + m)%Z]> rowN]>
            (partial_seed_steps self))
         (set_partial_seed_scores
            (<[a := <[s := if done then f0 else merge p n score m]> rowS]>
               (partial_seed_scores self))
            self))
      [Call_partial_update_seed_score a s]
      (Ok (merge p n score m)).
Proof.
  intros HS Hp HN Hn.
  assert (E1 : index2 (partial_seed_scores self) a s = Ok p)
    by (apply index2_Ok; eauto).
  assert (E2 : index2 (partial_seed_steps self) a s = Ok n)
    by (apply index2_Ok; eauto).
  unfold _partial_update_seed_score. run_monad.
  rewrite E1. cbn. rewrite E2. cbn.
  destruct done; run_monad.
  - rewrite (store2_in_range _ _ _ f0 _ _ HS Hp). cbn.
    rewrite (store2_in_range _ _ _ 0%Z _ _ HN Hn). cbn. reflexivity.
  - rewrite (store2_in_range _ _ _ _ _ _ HS Hp). cbn.
    rewrite (store2_in_range _ _ _ _ _ _ HN Hn). cbn. reflexivity.
Qed.

Lemma bind_run {A B : Type} (m : M A) (f : A -> M B) (self : LevelSampler) :
  (m ≫= f) self =
    match value (m self) with
    | Ok a =>
        Outcome (final (f a (final (m self))))
                (calls (m self) ++ calls (f a (final (m self))))
                (value (f a (final (m self))))
    | Raise e => Outcome (final (m self)) (calls (m self)) (Raise e)
    end.
Proof. reflexivity. Qed.

Lemma fdiv_finite (a b : Qc) : b <> 0%Qc -> fdiv (Fin a) (Fin b) = Fin (a / b)%Qc.
Proof. intros H. unfold fdiv. apply Qceqb_false in H. by rewrite H. Qed.

Lemma merge_finite (p s : Qc) (n_p n_s : Z) :
  (0 < n_p + n_s)%Z ->
  merge (Fin p) n_p (Fin s) n_s =
    Fin (p + (s - p) * Z2Qc n_s / Z2Qc (n_p + n_s))%Qc.
Proof.
  intros H. unfold merge, fZ. cbn [fsub fneg fadd fmul].
  rewrite fdiv_finite by by apply Z2Qc_nonzero. reflexivity.
Qed.

Lemma total_steps_of_ge_length (segs : list (Qc * Z)) :
  Forall (fun p => (1 <= snd p)%Z) segs ->
  (Z.of_nat (length segs) <= total_steps_of segs)%Z.
Proof.
  induction 1 as [|p segs Hp _ IH]; unfold total_steps_of in *;
    cbn [foldr length]; lia.
Qed.

(** Merging a further run of segments into an accumulator that already
    holds the mean [p] of [n0] steps. *)
Lemma feed_partial_then_merge (segs : list (Qc * Z)) :
  forall (self : LevelSampler) (a s : nat) (rowS : list fnum) (rowN : list Z)
         (p : Qc) (n0 : Z) (sc : Qc) (n : Z) (done : bool),
  partial_seed_scores self !! a = Some rowS -> rowS !! s = Some (Fin p) ->
  partial_seed_steps self !! a = Some rowN -> rowN !! s = Some n0 ->
  (0 <= n0)%Z ->
  Forall (fun x => (1 <= snd x)%Z) (segs ++ [(sc, n)]) ->
  value ((feed_partial a s segs;;
          _partial_update_seed_score a s (Fin sc) n done) self) =
    Ok (Fin ((p * Z2Qc n0 + weighted_sum (segs ++ [(sc, n)]))
             / Z2Qc (n0 + total_steps_of (segs ++ [(sc, n)])))%Qc).
Proof.
  induction segs as [|[s1 n1] segs IH];
    intros self a s rowS rowN p n0 sc n done HS Hp HN Hn Hn0 Hall.
  - cbn [feed_partial for_each app]. rewrite bind_run.
    cbn [value final M_ret mret].
    rewrite (partial_update_run _ _ _ _ _ _ _ _ _ _ HS Hp HN Hn).
    cbn [value fst snd].
    apply Forall_cons in Hall as [Hn1 _]. cbn [snd] in Hn1.
    rewrite merge_finite by lia. do 2 f_equal.
    cbn [weighted_sum total_steps_of foldr fst snd].
    rewrite Z.add_0_r, !Z2Qc_add.
    assert (Hnz : (Z2Qc n0 + Z2Qc n)%Qc <> 0%Qc)
      by (rewrite <- Z2Qc_add; apply Z2Qc_nonzero; lia).
    field. exact Hnz.
  - cbn [app] in Hall. apply Forall_cons in Hall as [Hn1 Hall]. cbn [snd] in Hn1.
    unfold feed_partial. cbn [for_each]. fold (feed_partial a s segs).
    rewrite !bind_run.
    rewrite (partial_update_run _ _ _ _ _ _ _ _ _ _ HS Hp HN Hn).
    cbn [value final calls M_ret mret fst snd].
    rewrite merge_finite by lia.
    match goal with
    | |- context [feed_partial a s segs ?st] => set (self' := st)
    end.
    pose proof (IH self' a s (<[s := Fin (p + (s1 - p) * Z2Qc n1 / Z2Qc (n0 + n1))%Qc]> rowS)
                  (<[s := (n0 + n1)%Z]> rowN)
                  (p + (s1 - p) * Z2Qc n1 / Z2Qc (n0 + n1))%Qc (n0 + n1)%Z
                  sc n done) as IH'.
    assert (Hs1 : s < length rowS) by by eapply lookup_lt_Some.
    assert (Hs2 : s < length rowN) by by eapply lookup_lt_Some.
    assert (Ha1 : a < length (partial_seed_scores self))
      by by eapply lookup_lt_Some.
    assert (Ha2 : a < length (partial_seed_steps self))
      by by eapply lookup_lt_Some.
    rewrite bind_run in IH'.
    specialize (IH' ltac:(subst self'; cbn; by rewrite list_lookup_insert_eq)
                    ltac:(by rewrite list_lookup_insert_eq)
                    ltac:(subst self'; cbn; by rewrite list_lookup_insert_eq)
                    ltac:(by rewrite list_lookup_insert_eq)
                    ltac:(lia) Hall).
    destruct (value (feed_partial a s segs self')) eqn:Ev;
      cbn [value] in IH' |- *; [|discriminate].
    rewrite IH'. do 2 f_equal.
    cbn [weighted_sum total_steps_of foldr fst snd app].
    fold (weighted_sum (segs ++ [(sc, n)])).
    fold (total_steps_of (segs ++ [(sc, n)])).
    pose proof (total_steps_of_ge_length _ Hall) as Ht.
    rewrite length_app in Ht. cbn [length] in Ht.
    rewrite !Z2Qc_add.
    assert (Hnz1 : (Z2Qc n0 + Z2Qc n1)%Qc <> 0%Qc)
      by (rewrite <- Z2Qc_add; apply Z2Qc_nonzero; lia).
    assert (Hnz2 : (Z2Qc n0 + (Z2Qc n1
                      + Z2Qc (total_steps_of (segs ++ [(sc, n)]))))%Qc <> 0%Qc)
      by (rewrite <- !Z2Qc_add; apply Z2Qc_nonzero; lia).
    assert (Hnz3 : (Z2Qc n0 + Z2Qc n1
                      + Z2Qc (total_steps_of (segs ++ [(sc, n)])))%Qc <> 0%Qc)
      by (rewrite <- Qcplus_assoc; exact Hnz2).
    field. split; assumption.
Qed.

(** C1. Merge correctness: starting from the (0, 0) accumulator of a
    (worker, seed) pair, feeding segments with scores s1..sk and step counts
    n1..nk >= 1 through [_partial_update_seed_score] (the last one with
    either value of [done]) returns the exact weighted mean
    Σ(ni·si)/Σni of the concatenated segments. *)
Theorem merge_is_weighted_mean (self : LevelSampler) (a s : nat)
    (segs : list (Qc * Z)) (sc : Qc) (n : Z) (done : bool) :
  index2 (partial_seed_scores self) a s = Ok f0 ->
  index2 (partial_seed_steps self) a s = Ok 0%Z ->
  Forall (fun x => (1 <= snd x)%Z) (segs ++ [(sc, n)]) ->
  value ((feed_partial a s segs;;
          _partial_update_seed_score a s (Fin sc) n done) self) =
    Ok (Fin (weighted_mean (segs ++ [(sc, n)]))).
Proof.
  intros H1 H2 Hall.
  apply index2_Ok in H1 as (rowS & HS & Hp).
  apply index2_Ok in H2 as (rowN & HN & Hn).
  rewrite (feed_partial_then_merge segs self a s rowS rowN 0%Qc 0%Z sc n done
             HS Hp HN Hn ltac:(lia) Hall).
  do 2 f_equal. unfold weighted_mean.
  rewrite Z.add_0_l, Qcmult_0_l, Qcplus_0_l. reflexivity.
Qed.

(** ** The one-step TD-error score *)

Lemma fabs_fabs (x : fnum) : fabs (fabs x) = fabs x.
Proof.
  destruct x as [q| | |]; cbn; try reflexivity. f_equal.
  destruct (Qcltb q 0) eqn:E.
  - apply Qcltb_true in E.
    assert (H : Qcltb (- q) 0 = false).
    { apply Qcltb_false. apply Qclt_le_weak in E.
      apply Qcopp_le_compat in E. exact E. }
    by rewrite H.
  - by rewrite E.
Qed.

Lemma elementwise_same_length (e : exn) (f : fnum -> fnum -> fnum)
    (xs ys : list fnum) :
  length xs = length ys -> elementwise e f xs ys = Ok (zip_with f xs ys).
Proof. intros H. unfold elementwise. by rewrite decide_True. Qed.

Lemma py_slice_prefix {A : Type} (l : list A) (k : nat) :
  k <= length l -> py_slice l None (Some (Z.of_nat k)) = take k l.
Proof.
  intros H. unfold py_slice, clamp_bound. cbn [from_option].
  destruct (Z.ltb_spec (Z.of_nat k) 0); [lia|].
  rewrite Z.max_l, Z.min_l by lia. rewrite Nat2Z.id, Nat.sub_0_r. reflexivity.
Qed.

Lemma py_slice_drop_last {A : Type} (l : list A) :
  py_slice l None (Some (-1)%Z) = take (length l - 1) l.
Proof.
  unfold py_slice, clamp_bound. cbn [from_option].
  change (-1 <? 0)%Z with true. cbn match.
  rewrite Nat.sub_0_r. f_equal. cbn [drop]. lia.
Qed.

Lemma py_slice_from_1 {A : Type} (l : list A) (k : nat) :
  1 <= k <= length l ->
  py_slice l (Some 1%Z) (Some (Z.of_nat k)) = take (k - 1) (drop 1 l).
Proof.
  intros H. unfold py_slice, clamp_bound. cbn [from_option].
  change (1 <? 0)%Z with false. cbn match.
  destruct (Z.ltb_spec (Z.of_nat k) 0); [lia|].
  rewrite !Z.max_l, !Z.min_l by lia. rewrite Nat2Z.id.
  change (Z.to_nat 1) with 1. reflexivity.
Qed.

(** C9. One-step TD-error score: on a segment of length T >= 2 (rewards
    r[0..T-1], value estimates v with at least T entries) the score function
    [_one_step_td_error] returns the mean over t in 0..T-2 of
    |r[t] + v[t] - v[t+1]|. *)
Theorem one_step_td_error_is_mean_abs_td (k : kwargs)
    (rewards value_preds : list fnum) :
  kw_rewards k = Some rewards ->
  kw_value_preds k = Some value_preds ->
  2 <= length rewards ->
  length rewards <= length value_preds ->
  _one_step_td_error k = Ok (td_error_spec rewards value_preds).
Proof.
  intros Hr Hv HT Hlen. unfold _one_step_td_error. rewrite Hr, Hv.
  cbn [kw mbind result_bind].
  rewrite py_slice_drop_last.
  replace (Z.of_nat (length rewards) - 1)%Z
    with (Z.of_nat (length rewards - 1)) by lia.
  rewrite py_slice_prefix by lia.
  rewrite py_slice_from_1 by lia.
  set (T1 := length rewards - 1).
  rewrite elementwise_same_length by (rewrite !length_take; lia).
  cbn [mbind result_bind].
  rewrite elementwise_same_length
    by (rewrite length_zip_with, !length_take, length_drop; lia).
  cbn [mbind result_bind]. unfold td_error_spec. fold T1.
  do 2 f_equal. rewrite <- !list_fmap_compose.
  apply list_eq. intros i.
  rewrite !list_lookup_fmap, !lookup_zip_with.
  destruct (decide (i < T1)) as [Hi|Hi].
  - rewrite !lookup_take_lt, lookup_drop by lia.
    rewrite lookup_seq_lt by lia. cbn [fmap option_fmap option_map].
    destruct (lookup_lt_is_Some_2 rewards i ltac:(lia)) as [r Er].
    destruct (lookup_lt_is_Some_2 value_preds i ltac:(lia)) as [v Ev].
    destruct (lookup_lt_is_Some_2 value_preds (S i) ltac:(lia)) as [v' Ev'].
    rewrite Er, Ev. cbn. change (1 + i) with (S i). rewrite Ev'. cbn.
    rewrite Er, Ev. cbn. by rewrite fabs_fabs.
  - rewrite !lookup_take_ge by lia. cbn.
    rewrite lookup_seq_ge by lia. reflexivity.
Qed.

(** ** Reasoning about computations in [M] *)

(** A relation between the object before a computation, the calls it logged,
    whether it returned normally, and the object after it. *)
Definition rel : Type := LevelSampler -> list call -> bool -> LevelSampler -> Prop.

Definition is_ok {A : Type} (r : result A) : bool :=
  match r with Ok _ => true | Raise _ => false end.

(** Relations that hold of doing nothing and are closed under sequencing:
    they can be established statement by statement. *)
Class Sequential (R : rel) : Prop := {
  seq_skip : forall s b, R s [] b s;
  seq_comp : forall s (l : list call) s' (l' : list call) b s'',
    R s l true s' -> R s' l' b s'' -> R s (l ++ l')%list b s''
}.

Definition respects (R : rel) {A : Type} (m : M A) : Prop :=
  forall self, R self (calls (m self)) (is_ok (value (m self))) (final (m self)).

Section Respects.

Context (R : rel) `{!Sequential R}.

Lemma respects_ret {A : Type} (a : A) : respects R (mret a).
Proof. intros self. apply seq_skip. Qed.

Lemma respects_raise {A : Type} (e : exn) : respects R (@raise A e).
Proof. intros self. apply seq_skip. Qed.

Lemma respects_gets {A : Type} (f : LevelSampler -> A) : respects R (gets f).
Proof. intros self. apply seq_skip. Qed.

Lemma respects_reads {A : Type} (f : LevelSampler -> result A) :
  respects R (reads f).
Proof. intros self. apply seq_skip. Qed.

Lemma respects_lift {A : Type} (r : result A) : respects R (lift r).
Proof. intros self. apply seq_skip. Qed.

Lemma respects_bind {A B : Type} (m : M A) (f : A -> M B) :
  respects R m -> (forall a, respects R (f a)) -> respects R (m ≫= f).
Proof.
  intros Hm Hf self. rewrite bind_run. specialize (Hm self).
  destruct (value (m self)) as [a|e]; cbn [final calls value is_ok] in *.
  - eapply seq_comp; [exact Hm|]. apply Hf.
  - exact Hm.
Qed.

Lemma respects_modify (f : LevelSampler -> LevelSampler) :
  (forall s, R s [] true (f s)) -> respects R (modify f).
Proof. intros H self. apply H. Qed.

Lemma respects_updates (f : LevelSampler -> result LevelSampler) :
  (forall s s', f s = Ok s' -> R s [] true s') -> respects R (updates f).
Proof.
  intros H self. unfold updates. destruct (f self) eqn:E; cbn.
  - by apply H.
  - apply seq_skip.
Qed.

Lemma respects_enter (c : call) :
  (forall s, R s [c] true s) -> respects R (enter c).
Proof. intros H self. apply H. Qed.

Lemma respects_for_each {A : Type} (body : A -> M unit) (l : list A) :
  (forall x, respects R (body x)) -> respects R (for_each body l).
Proof.
  intros H. induction l as [|x l IH]; cbn [for_each].
  - apply respects_ret.
  - apply respects_bind; [apply H|]. intros _. exact IH.
Qed.

End Respects.

(** Walks through a method statement by statement, leaving the obligations
    of the statements that write to the object or to the log. *)
Ltac respects_walk :=
  repeat match goal with
    | |- respects _ (mret _) => apply respects_ret; solve [typeclasses eauto]
    | |- respects _ (raise _) => apply respects_raise; solve [typeclasses eauto]
    | |- respects _ (gets _) => apply respects_gets; solve [typeclasses eauto]
    | |- respects _ (reads _) => apply respects_reads; solve [typeclasses eauto]
    | |- respects _ (lift _) => apply respects_lift; solve [typeclasses eauto]
    | |- respects _ (for_each _ _) =>
        apply respects_for_each; [solve [typeclasses eauto] | intros ? ]
    | |- respects _ (mbind _ _) =>
        apply respects_bind; [solve [typeclasses eauto] | | intros ? ]
    | |- respects _ (if ?c then _ else _) => destruct c
    | |- respects _ (match ?c with _ => _ end) => destruct c
    | |- respects _ (let _ := _ in _) => cbv zeta
    end.

(** Two relations used throughout: a component of the object is left as it
    was, and every logged call satisfies a predicate. *)
Definition keeps {T : Type} (f : LevelSampler -> T) : rel :=
  fun s _ _ s' => f s' = f s.

Definition logs (P : call -> Prop) : rel :=
  fun _ l _ _ => Forall P l.

#[global] Instance keeps_sequential {T : Type} (f : LevelSampler -> T) :
  Sequential (keeps f).
Proof.
  split; unfold keeps.
  - reflexivity.
  - intros s l s' l' b s'' H1 H2. congruence.
Qed.

#[global] Instance logs_sequential (P : call -> Prop) : Sequential (logs P).
Proof.
  split; unfold logs.
  - intros. constructor.
  - intros s l s' l' b s'' H1 H2. apply Forall_app. done.
Qed.

Definition both (R1 R2 : rel) : rel :=
  fun s l b s' => R1 s l b s' /\ R2 s l b s'.

#[global] Instance both_sequential (R1 R2 : rel)
    `{!Sequential R1} `{!Sequential R2} : Sequential (both R1 R2).
Proof.
  split; unfold both.
  - intros. split; apply seq_skip.
  - intros s l s' l' b s'' [H1 H2] [H3 H4].
    split; eapply seq_comp; eauto.
Qed.

(** ** Frame properties of the sampling path *)

(** What computing the weights leaves alone: everything except the two
    arrays [_score_transform] may be handed, and the log. *)
Definition weights_frame : rel :=
  both (keeps config)
    (both (keeps seeds)
       (both (keeps unseen_seed_weights)
          (both (keeps partial_seed_scores)
             (both (keeps partial_seed_steps)
                (both (keeps next_seed_index) (logs (fun _ => False))))))).

#[global] Instance weights_frame_sequential : Sequential weights_frame.
Proof. unfold weights_frame. typeclasses eauto. Qed.

Lemma _score_transform_frame (transform : string) (temp : Qc)
    (scores : array_ref) (tie : nat) :
  respects weights_frame (_score_transform transform temp scores tie).
Proof.
  unfold _score_transform. respects_walk.
  apply respects_modify. intros s.
  unfold weights_frame, both, keeps, logs.
  destruct scores; cbn; repeat split; constructor.
Qed.

Lemma sample_weights_frame (d : draws) :
  respects weights_frame (sample_weights d).
Proof.
  unfold sample_weights, mask_unseen. respects_walk;
    apply _score_transform_frame.
Qed.

(** ** The scheduler *)

(** The strategy [sample] acts on: its argument, or [self.strategy] when the
    argument is missing or empty. *)
Definition effective_strategy (strategy_arg : option string)
    (self : LevelSampler) : string :=
  match strategy_arg with
  | None => strategy (config self)
  | Some s => if s =? "" then strategy (config self) else s
  end.

Definition score_driven (s : string) : Prop :=
  s <> "random" /\ s <> "sequential".

(** The decision rules in the specification's words. *)
Definition replay_fixed (self : LevelSampler) (d : draws) : bool :=
  fge (proportion_seen self) (Fin (rho (config self)))
  && (fgt (Fin (rand d)) (Fin (nu (config self)))
      || fge (proportion_seen self) f1).

Definition replay_proportionate (self : LevelSampler) (d : draws) : bool :=
  fge (proportion_seen self) (Fin (rho (config self)))
  && flt (Fin (rand d)) (proportion_seen self).

Lemma outcome_eta {A : Type} (o : outcome A) :
  Outcome (final o) (calls o) (value o) = o.
Proof. by destruct o. Qed.

Lemma not_flt_fge (x : fnum) (q : Qc) :
  isnan x = false -> negb (flt x (Fin q)) = fge x (Fin q).
Proof.
  unfold fge, fle. destruct x as [a| | |]; cbn; try done.
  intros _. destruct (Qcltb a q) eqn:E1; cbn [negb].
  - apply Qcltb_true in E1.
    assert (E2 : Qcltb q a = false)
      by (apply Qcltb_false; by apply Qclt_le_weak).
    assert (E3 : Qceqb q a = false).
    { apply Qceqb_false. intros ->. exact (Qclt_not_eq _ _ E1 eq_refl). }
    by rewrite E2, E3.
  - apply Qcltb_false in E1. symmetry. apply orb_true_iff.
    destruct (Qcle_lt_or_eq _ _ E1) as [H|H].
    + left. by apply Qcltb_true.
    + right. by apply Qceqb_true.
Qed.

Lemma fge_not_nan (x y : fnum) : fge x y = true -> isnan x = false.
Proof. unfold fge, fle. by destruct x, y. Qed.

(** [sample] on a score-driven strategy, reduced to its decision. *)
Lemma sample_score_driven (strategy_arg : option string) (d : draws)
    (self : LevelSampler) :
  score_driven (effective_strategy strategy_arg self) ->
  sample strategy_arg d self =
    if replay_schedule (config self) =? "fixed" then
      if replay_fixed self d then _sample_replay_level d self
      else _sample_unseen_level d self
    else
      if replay_proportionate self d then _sample_replay_level d self
      else _sample_unseen_level d self.
Proof.
  intros [H1 H2]. unfold sample. rewrite bind_run. cbn [gets value final calls].
  fold (effective_strategy strategy_arg self).
  apply String.eqb_neq in H1, H2. rewrite H1, H2.
  run_monad. unfold replay_fixed, replay_proportionate.
  destruct (replay_schedule (config self) =? "fixed").
  - destruct (fge (proportion_seen self) (Fin (rho (config self)))) eqn:E;
      cbn [andb].
    + pose proof (not_flt_fge _ 1%Qc (fge_not_nan _ _ E)) as E'.
      fold f1 in E'. rewrite E'.
      destruct (fgt (Fin (rand d)) (Fin (nu (config self)))
                || fge (proportion_seen self) f1);
        cbn; apply outcome_eta.
    + cbn. apply outcome_eta.
  - destruct (fge (proportion_seen self) (Fin (rho (config self)))
              && flt (Fin (rand d)) (proportion_seen self));
      cbn; apply outcome_eta.
Qed.

Lemma respects_weaken (R R' : rel) {A : Type} (m : M A) :
  (forall s l b s', R s l b s' -> R' s l b s') ->
  respects R m -> respects R' m.
Proof. intros H Hm self. apply H, Hm. Qed.

Lemma weights_frame_logs (P : call -> Prop) (s : LevelSampler)
    (l : list call) (b : bool) (s' : LevelSampler) :
  weights_frame s l b s' -> logs P s l b s'.
Proof.
  unfold weights_frame, both, logs. intros (_ & _ & _ & _ & _ & _ & H).
  eapply Forall_impl; [exact H|]. intros ? [].
Qed.

Definition is_staleness_call (c : call) : Prop :=
  exists i, c = Call_update_staleness i.

Lemma _update_staleness_logs (idx : nat) :
  respects (logs is_staleness_call) (_update_staleness idx).
Proof.
  unfold _update_staleness. respects_walk.
  - apply respects_enter. intros s. repeat constructor. by exists idx.
  - apply respects_modify; intros; constructor.
  - apply respects_updates; [typeclasses eauto|]; intros; constructor.
Qed.

(** Each of the two helpers logs its own entry first, and afterwards only
    the staleness update. *)
Lemma _sample_replay_level_calls (d : draws) (self : LevelSampler) :
  exists l, calls (_sample_replay_level d self) = Call_sample_replay_level :: l
            /\ Forall is_staleness_call l.
Proof.
  unfold _sample_replay_level. rewrite bind_run. cbn [enter value calls final].
  eexists. split; [reflexivity|].
  match goal with |- Forall _ (calls (?m self)) =>
    assert (H : respects (logs is_staleness_call) m) end.
  { respects_walk.
    - eapply respects_weaken; [apply weights_frame_logs|].
      apply sample_weights_frame.
    - apply _update_staleness_logs. }
  apply H.
Qed.

Lemma _sample_unseen_level_calls (d : draws) (self : LevelSampler) :
  exists l, calls (_sample_unseen_level d self) = Call_sample_unseen_level :: l
            /\ Forall is_staleness_call l.
Proof.
  unfold _sample_unseen_level. rewrite bind_run. cbn [enter value calls final].
  eexists. split; [reflexivity|].
  match goal with |- Forall _ (calls (?m self)) =>
    assert (H : respects (logs is_staleness_call) m) end.
  { respects_walk. apply _update_staleness_logs. }
  apply H.
Qed.

Lemma replay_level_log (d : draws) (self : LevelSampler) :
  Call_sample_replay_level ∈ calls (_sample_replay_level d self)
  /\ Call_sample_unseen_level ∉ calls (_sample_replay_level d self).
Proof.
  destruct (_sample_replay_level_calls d self) as (l & -> & Hl). split.
  - apply list_elem_of_here.
  - intros H. apply elem_of_cons in H as [H|H]; [discriminate|].
    rewrite Forall_forall in Hl. destruct (Hl _ H) as [i Hi]. discriminate.
Qed.

Lemma unseen_level_log (d : draws) (self : LevelSampler) :
  Call_sample_unseen_level ∈ calls (_sample_unseen_level d self)
  /\ Call_sample_replay_level ∉ calls (_sample_unseen_level d self).
Proof.
  destruct (_sample_unseen_level_calls d self) as (l & -> & Hl). split.
  - apply list_elem_of_here.
  - intros H. apply elem_of_cons in H as [H|H]; [discriminate|].
    rewrite Forall_forall in Hl. destruct (Hl _ H) as [i Hi]. discriminate.
Qed.

Lemma N2Qc_nonzero (n : nat) : n <> 0 -> N2Qc n <> 0%Qc.
Proof. intros H. apply Z2Qc_nonzero. lia. Qed.

(** Once no seed is unseen, [proportion_seen] is exactly 1. *)
Lemma proportion_seen_all_seen (self : LevelSampler) :
  seeds self <> [] ->
  Forall (fun u => u = f0) (unseen_seed_weights self) ->
  proportion_seen self = f1.
Proof.
  intros HN Hall. unfold proportion_seen, num_unseen.
  assert (E : filter (fun u => fgt u f0 = true) (unseen_seed_weights self) = []).
  { induction Hall as [|u l -> _ IH]; [done|].
    rewrite filter_cons_False; [exact IH|]. by vm_compute. }
  rewrite E. unfold fN. cbn [length fsub fneg fadd].
  assert (Hn : N2Qc (length (seeds self)) <> 0%Qc).
  { apply N2Qc_nonzero. destruct (seeds self); [done|]. cbn. lia. }
  rewrite fdiv_finite by exact Hn. unfold f1. f_equal.
  change (N2Qc 0) with (Z2Qc 0). rewrite Z2Qc_0. field. exact Hn.
Qed.

Lemma fge_finite (a b : Qc) : fge (Fin a) (Fin b) = true <-> (b <= a)%Qc.
Proof.
  unfold fge, fle. cbn [flt feq]. rewrite orb_true_iff, Qcltb_true, Qceqb_true.
  split.
  - intros [H| ->]; [by apply Qclt_le_weak|apply Qcle_refl].
  - intros H. destruct (Qcle_lt_or_eq _ _ H); auto.
Qed.

(** C5 (as amended). Unseen exhaustion: on a non-empty seed pool and with
    a replay threshold rho of at most 1, when the unseen vector is all-zero
    (every seed has completed at least one full episode), a score-driven
    [sample()] never enters [_sample_unseen_level], under the 'fixed' and
    the 'proportionate' replay schedule alike and for every uniform draw r
    in [0, 1). *)
Theorem unseen_exhaustion (strategy_arg : option string) (d : draws)
    (self : LevelSampler) :
  score_driven (effective_strategy strategy_arg self) ->
  seeds self <> [] ->
  Forall (fun u => u = f0) (unseen_seed_weights self) ->
  (rho (config self) <= 1)%Qc ->
  (rand d < 1)%Qc ->
  Call_sample_unseen_level ∉ calls (sample strategy_arg d self).
Proof.
  intros Hs HN Hall Hrho Hr. rewrite (sample_score_driven _ _ _ Hs).
  pose proof (proportion_seen_all_seen self HN Hall) as Hp.
  assert (E1 : replay_fixed self d = true).
  { unfold replay_fixed. rewrite Hp. unfold f1.
    apply andb_true_iff. split; [by apply fge_finite|].
    apply orb_true_iff. right. apply fge_finite, Qcle_refl. }
  assert (E2 : replay_proportionate self d = true).
  { unfold replay_proportionate. rewrite Hp. unfold f1.
    apply andb_true_iff. split; [by apply fge_finite|].
    cbn [flt]. by apply Qcltb_true. }
  rewrite E1, E2.
  destruct (replay_schedule (config self) =? "fixed");
    apply replay_level_log.
Qed.

(** C10. Under the 'random' strategy [update_with_rollouts] returns at
    once: the object (scores, partial accumulators, unseen flags, staleness
    and all the rest) is unchanged and no helper is entered. *)
Theorem update_with_rollouts_random_noop (rollouts : RolloutStorage)
    (self : LevelSampler) :
  strategy (config self) = "random" ->
  update_with_rollouts rollouts self = Outcome self [] (Ok tt).
Proof.
  intros H. unfold update_with_rollouts. rewrite bind_run.
  cbn [gets value final calls]. rewrite H. reflexivity.
Qed.

(** ** The unseen flags *)

Definition is_update_seed_score (c : call) : Prop :=
  exists a i, c = Call_update_seed_score a i.

(** What every statement other than the unseen write of [update_seed_score]
    does to the flags: nothing, and without entering [update_seed_score]. *)
Definition unseen_frame : rel :=
  both (keeps unseen_seed_weights) (logs (fun c => ~ is_update_seed_score c)).

#[global] Instance unseen_frame_sequential : Sequential unseen_frame.
Proof. unfold unseen_frame. typeclasses eauto. Qed.

(** What an operation may do to the flags: a flag changes only by being
    cleared, only for a seed [update_seed_score] was entered on, and if the
    operation returns normally every such seed has its flag cleared. *)
Definition unseen_step : rel :=
  fun s l b s' =>
    (forall i,
        unseen_seed_weights s' !! i = unseen_seed_weights s !! i
        \/ (is_Some (unseen_seed_weights s !! i)
            /\ unseen_seed_weights s' !! i = Some f0
            /\ exists a, Call_update_seed_score a i ∈ l))
    /\ (b = true -> forall a i,
          Call_update_seed_score a i ∈ l ->
          unseen_seed_weights s' !! i = Some f0).

#[global] Instance unseen_step_sequential : Sequential unseen_step.
Proof.
  split; unfold unseen_step.
  - intros s b. split; [by left|]. intros _ a i H. by apply elem_of_nil in H.
  - intros s l s' l' b s'' [H1 H2] [H3 H4]. split.
    + intros i. destruct (H1 i) as [E1|(S1 & E1 & a1 & C1)],
                         (H3 i) as [E3|(S3 & E3 & a3 & C3)].
      * left. congruence.
      * right. rewrite <- E1. split; [done|]. split; [done|].
        exists a3. apply elem_of_app. by right.
      * right. split; [done|]. split; [congruence|].
        exists a1. apply elem_of_app. by left.
      * right. split; [done|]. split; [done|].
        exists a1. apply elem_of_app. by left.
    + intros Hb a i Hin. apply elem_of_app in Hin as [Hin|Hin].
      * specialize (H2 eq_refl a i Hin).
        destruct (H3 i) as [E3|(_ & E3 & _)]; congruence.
      * by apply (H4 Hb a i).
Qed.

Lemma unseen_frame_step (s : LevelSampler) (l : list call) (b : bool)
    (s' : LevelSampler) :
  unseen_frame s l b s' -> unseen_step s l b s'.
Proof.
  unfold unseen_frame, unseen_step, both, keeps, logs. intros [E Hl]. split.
  - intros i. left. by rewrite E.
  - intros _ a i Hin. rewrite Forall_forall in Hl.
    exfalso. apply (Hl _ Hin). by exists a, i.
Qed.

(** Discharges the leaves of a walk for a relation built from [keeps] and
    [logs]: each write is through a setter of another component, each
    logged call is checked against the predicate. *)
Ltac frame_leaf :=
  match goal with
  | |- respects _ (modify _) => apply respects_modify; intros ?
  | |- respects _ (updates _) =>
      apply respects_updates; [typeclasses eauto|];
      let s := fresh "s" in let s' := fresh "s'" in let E := fresh "E" in
      intros s s' E;
      repeat match type of E with
        | context [store2 ?m ?i ?j ?x] => destruct (store2 m i j x); cbn in E
        | context [store ?m ?i ?x] => destruct (store m i x); cbn in E
        end;
      try discriminate; try (injection E as <-)
  | |- respects _ (enter _) => apply respects_enter; intros ?
  end.

Lemma _partial_update_seed_score_unseen (a i : nat) (sc : fnum) (n : Z)
    (done : bool) :
  respects unseen_frame (_partial_update_seed_score a i sc n done).
Proof.
  unfold _partial_update_seed_score. respects_walk; frame_leaf;
    unfold unseen_frame, both, keeps, logs; split; try reflexivity;
    repeat constructor.
  intros (? & ? & [=]).
Qed.

Lemma update_seed_score_unseen (a i : nat) (sc : fnum) (n : Z) :
  respects unseen_step (update_seed_score a i sc n).
Proof.
  intros self. unfold update_seed_score.
  pose proof (_partial_update_seed_score_unseen a i sc n true self)
    as [Hkeep Hlog].
  unfold keeps, logs in Hkeep, Hlog.
  rewrite bind_run. cbn [enter value final calls].
  rewrite bind_run.
  set (o1 := _partial_update_seed_score a i sc n true self) in *.
  assert (Hcalls : forall a' i' (l : list call),
             Forall (fun c => ~ is_update_seed_score c) l ->
             Call_update_seed_score a' i'
               ∈ ([Call_update_seed_score a i] ++ (calls o1 ++ l))%list ->
             i' = i).
  { intros a' i' l Hl Hin. rewrite Forall_forall in Hlog, Hl.
    apply elem_of_app in Hin as [Hin|Hin].
    - apply list_elem_of_singleton in Hin. congruence.
    - exfalso. apply elem_of_app in Hin as [Hin|Hin].
      + apply (Hlog _ Hin). by exists a', i'.
      + apply (Hl _ Hin). by exists a', i'. }
  assert (Hself : Call_update_seed_score a i
                    ∈ ([Call_update_seed_score a i] ++ calls o1)%list)
    by (apply elem_of_app; left; apply list_elem_of_here).
  assert (Hunchanged : forall (l : list call) st,
             unseen_seed_weights st = unseen_seed_weights self ->
             unseen_step self l false st).
  { intros l st E. split; [|discriminate]. intros j. left. by rewrite E. }
  assert (Hcleared : forall (l : list call) (b : bool) st,
             i < length (unseen_seed_weights self) ->
             unseen_seed_weights st = <[i := f0]> (unseen_seed_weights self) ->
             (forall a' i', Call_update_seed_score a' i' ∈ l -> i' = i) ->
             Call_update_seed_score a i ∈ l ->
             unseen_step self l b st).
  { intros l b st Hi E Honly Hin. split.
    - intros j. destruct (decide (j = i)) as [->|Hne].
      + right. split; [by apply lookup_lt_is_Some_2|].
        split; [by rewrite E, list_lookup_insert_eq|]. by exists a.
      + left. rewrite E. by apply list_lookup_insert_ne.
    - intros _ a' i' Hin'. rewrite (Honly _ _ Hin').
      by rewrite E, list_lookup_insert_eq. }
  destruct (value o1) as [score|e]; cbn [value final calls is_ok].
  2: { apply Hunchanged. exact Hkeep. }
  run_monad. rewrite Hkeep.
  destruct (store (unseen_seed_weights self) i f0) as [u|e] eqn:Eu;
    cbn [value final calls is_ok].
  2: { cbn. apply Hunchanged. exact Hkeep. }
  apply store_Ok in Eu as [Hi ->]. cbn.
  destruct (index (seed_scores (final o1)) i) as [old|e];
    cbn [value final calls is_ok].
  2: { cbn. apply Hcleared; [done|done| |].
       - intros a' i' Hin. apply (Hcalls a' i' []); [constructor|].
         by rewrite app_nil_r in *.
       - by rewrite !app_nil_r. }
  cbn. destruct (store (seed_scores (final o1)) i _) as [v|e];
    cbn [value final calls is_ok]; cbn;
    (apply Hcleared; [done|done| |];
     [ intros a' i' Hin; apply (Hcalls a' i' []); [constructor|];
       by rewrite ?app_nil_r in *
     | by rewrite ?app_nil_r ]).
Qed.

Ltac solve_unseen_frame :=
  unfold unseen_frame, both, keeps, logs; split; try reflexivity;
  repeat constructor;
  try (intros (? & ? & [=])).

Lemma segment_kwargs_unseen (rollouts : RolloutStorage) (start_t : nat)
    (stop : option nat) (actor_index : nat) :
  respects unseen_frame (segment_kwargs rollouts start_t stop actor_index).
Proof. unfold segment_kwargs. respects_walk. Qed.

Lemma seed_index_at_unseen (rollouts : RolloutStorage) (start_t a : nat) :
  respects unseen_frame (seed_index_at rollouts start_t a).
Proof. unfold seed_index_at. respects_walk. Qed.

Lemma weights_frame_unseen (s : LevelSampler) (l : list call) (b : bool)
    (s' : LevelSampler) :
  weights_frame s l b s' -> unseen_frame s l b s'.
Proof.
  unfold weights_frame, unseen_frame, both, logs.
  intros (_ & _ & H & _ & _ & _ & Hl). split; [exact H|].
  eapply Forall_impl; [exact Hl|]. intros ? [].
Qed.

Lemma _update_staleness_unseen (idx : nat) :
  respects unseen_frame (_update_staleness idx).
Proof.
  unfold _update_staleness. respects_walk; frame_leaf; solve_unseen_frame.
Qed.

Lemma _sample_replay_level_unseen (d : draws) :
  respects unseen_frame (_sample_replay_level d).
Proof.
  unfold _sample_replay_level. respects_walk.
  - frame_leaf; solve_unseen_frame.
  - eapply respects_weaken; [apply weights_frame_unseen|].
    apply sample_weights_frame.
  - apply _update_staleness_unseen.
Qed.

Lemma _sample_unseen_level_unseen (d : draws) :
  respects unseen_frame (_sample_unseen_level d).
Proof.
  unfold _sample_unseen_level. respects_walk.
  - frame_leaf; solve_unseen_frame.
  - apply _update_staleness_unseen.
Qed.

Lemma sample_unseen (strategy_arg : option string) (d : draws) :
  respects unseen_frame (sample strategy_arg d).
Proof.
  unfold sample. respects_walk;
    try apply _sample_replay_level_unseen;
    try apply _sample_unseen_level_unseen.
  frame_leaf; solve_unseen_frame.
Qed.

Lemma done_loop_unseen (score_function : kwargs -> result fnum)
    (rollouts : RolloutStorage) (total_steps a : nat) (done_steps : list nat) :
  forall start_t,
    respects unseen_step
      (done_loop score_function rollouts total_steps a done_steps start_t).
Proof.
  induction done_steps as [|t done_steps IH]; intros start_t;
    cbn [done_loop]; respects_walk.
  - apply IH.
  - eapply respects_weaken; [apply unseen_frame_step|].
    apply seed_index_at_unseen.
  - eapply respects_weaken; [apply unseen_frame_step|].
    apply segment_kwargs_unseen.
  - apply update_seed_score_unseen.
  - apply IH.
Qed.

Lemma update_actor_unseen (score_function : kwargs -> result fnum)
    (rollouts : RolloutStorage) (total_steps a : nat) :
  respects unseen_step (update_actor score_function rollouts total_steps a).
Proof.
  unfold update_actor. respects_walk.
  - apply done_loop_unseen.
  - eapply respects_weaken; [apply unseen_frame_step|].
    apply seed_index_at_unseen.
  - eapply respects_weaken; [apply unseen_frame_step|].
    apply segment_kwargs_unseen.
  - eapply respects_weaken; [apply unseen_frame_step|].
    apply _partial_update_seed_score_unseen.
Qed.

Lemma update_with_rollouts_unseen (rollouts : RolloutStorage) :
  respects unseen_step (update_with_rollouts rollouts).
Proof.
  unfold update_with_rollouts, _update_with_rollouts.
  respects_walk; apply update_actor_unseen.
Qed.

Lemma after_update_unseen : respects unseen_step after_update.
Proof.
  unfold after_update, after_update_seed. respects_walk.
  - apply update_seed_score_unseen.
  - eapply respects_weaken; [apply unseen_frame_step|].
    frame_leaf; solve_unseen_frame.
  - eapply respects_weaken; [apply unseen_frame_step|].
    frame_leaf; solve_unseen_frame.
Qed.

Lemma run_unseen (op : operation) : respects unseen_step (run op).
Proof.
  destruct op; cbn [run].
  - apply update_with_rollouts_unseen.
  - apply after_update_unseen.
  - respects_walk. eapply respects_weaken; [apply unseen_frame_step|].
    apply sample_unseen.
Qed.

(** ** What no operation changes *)

Definition static_frame : rel :=
  both (keeps config) (both (keeps seeds) (keeps seed2index)).

#[global] Instance static_frame_sequential : Sequential static_frame.
Proof. unfold static_frame. typeclasses eauto. Qed.

Ltac solve_static :=
  unfold static_frame, both, keeps; repeat split; reflexivity.

Ltac static_walk :=
  respects_walk; try (frame_leaf; solve_static).

Lemma _partial_update_seed_score_static (a i : nat) (sc : fnum) (n : Z)
    (done : bool) :
  respects static_frame (_partial_update_seed_score a i sc n done).
Proof. unfold _partial_update_seed_score. static_walk. Qed.

Lemma update_seed_score_static (a i : nat) (sc : fnum) (n : Z) :
  respects static_frame (update_seed_score a i sc n).
Proof.
  unfold update_seed_score. static_walk.
  apply _partial_update_seed_score_static.
Qed.

Lemma after_update_static : respects static_frame after_update.
Proof.
  unfold after_update, after_update_seed. static_walk.
  apply update_seed_score_static.
Qed.

Lemma done_loop_static (score_function : kwargs -> result fnum)
    (rollouts : RolloutStorage) (total_steps a : nat) (done_steps : list nat) :
  forall start_t,
    respects static_frame
      (done_loop score_function rollouts total_steps a done_steps start_t).
Proof.
  induction done_steps as [|t done_steps IH]; intros start_t;
    cbn [done_loop]; unfold seed_index_at, segment_kwargs; static_walk;
    try apply IH.
  apply update_seed_score_static.
Qed.

Lemma update_with_rollouts_static (rollouts : RolloutStorage) :
  respects static_frame (update_with_rollouts rollouts).
Proof.
  unfold update_with_rollouts, _update_with_rollouts.
  static_walk; unfold update_actor, seed_index_at, segment_kwargs;
    static_walk;
    try apply done_loop_static; apply _partial_update_seed_score_static.
Qed.

Lemma weights_frame_static (s : LevelSampler) (l : list call) (b : bool)
    (s' : LevelSampler) :
  weights_frame s l b s' -> keeps config s l b s' /\ keeps seeds s l b s'.
Proof. unfold weights_frame, both. tauto. Qed.

Lemma _score_transform_static (transform : string) (temp : Qc)
    (scores : array_ref) (tie : nat) :
  respects static_frame (_score_transform transform temp scores tie).
Proof.
  unfold _score_transform. static_walk.
  apply respects_modify. intros s. destruct scores; solve_static.
Qed.

Lemma sample_static (strategy_arg : option string) (d : draws) :
  respects static_frame (sample strategy_arg d).
Proof.
  unfold sample, _sample_replay_level, _sample_unseen_level, sample_weights,
    mask_unseen, _update_staleness.
  static_walk; apply _score_transform_static.
Qed.

Lemma run_static (op : operation) : respects static_frame (run op).
Proof.
  destruct op; cbn [run].
  - apply update_with_rollouts_static.
  - apply after_update_static.
  - respects_walk. apply sample_static.
Qed.

(** States reached from a fresh sampler by operations that return normally,
    with the calls logged on the way. *)
Inductive reachable : LevelSampler -> list call -> Prop :=
| reachable_init (pool : list Z) (num_actors : nat) (c : Config) :
    reachable (__init__ pool num_actors c) []
| reachable_step (s : LevelSampler) (l : list call) (op : operation) :
    reachable s l ->
    is_ok (value (run op s)) = true ->
    reachable (final (run op s)) (l ++ calls (run op s)).

(** ** [after_update] *)

(** The exponential moving average step of [update_seed_score]. *)
Definition ema (a : Qc) (old_score score : fnum) : fnum :=
  fadd (fmul (Fin (1 - a)%Qc) old_score) (fmul (Fin a) score).

(** [update_seed_score] on indices that exist, as one state change. *)
Lemma update_seed_score_run (self : LevelSampler) (a i : nat) (sc : fnum)
    (m : Z) (rowS : list fnum) (rowN : list Z) (p : fnum) (n : Z)
    (old : fnum) :
  partial_seed_scores self !! a = Some rowS -> rowS !! i = Some p ->
  partial_seed_steps self !! a = Some rowN -> rowN !! i = Some n ->
  i < length (unseen_seed_weights self) ->
  seed_scores self !! i = Some old ->
  update_seed_score a i sc m self =
    Outcome
      (set_seed_scores
         (<[i := ema (alpha (config self)) old (merge p n sc m)]>
            (seed_scores self))
         (set_unseen_seed_weights
            (<[i := f0]> (unseen_seed_weights self))
            (set_partial_seed_steps
               (<[a := <[i := 0%Z]> rowN]> (partial_seed_steps self))
               (set_partial_seed_scores
                  (<[a := <[i := f0]> rowS]> (partial_seed_scores self))
                  self))))
      [Call_update_seed_score a i; Call_partial_update_seed_score a i]
      (Ok tt).
Proof.
  intros HS Hp HN Hn Hi Hold. unfold update_seed_score.
  rewrite bind_run. cbn [enter value final calls]. rewrite bind_run.
  rewrite (partial_update_run _ _ _ _ _ true _ _ _ _ HS Hp HN Hn).
  cbn [value final calls]. run_monad. cbn.
  unfold store. rewrite decide_True by exact Hi. cbn.
  unfold index. rewrite Hold. cbn.
  rewrite decide_True by (by eapply lookup_lt_Some). cbn.
  reflexivity.
Qed.

(** The arrays of a sampler for [W] workers and [N] seeds. *)
Definition shaped (W N : nat) (self : LevelSampler) : Prop :=
  length (partial_seed_scores self) = W
  /\ length (partial_seed_steps self) = W
  /\ Forall (fun row => length row = N) (partial_seed_scores self)
  /\ Forall (fun row => length row = N) (partial_seed_steps self)
  /\ length (unseen_seed_weights self) = N
  /\ length (seed_scores self) = N.

Lemma shaped_lookup (W N : nat) (self : LevelSampler) (a i : nat) :
  shaped W N self -> a < W -> i < N ->
  exists rowS rowN p n old,
    partial_seed_scores self !! a = Some rowS /\ rowS !! i = Some p
    /\ partial_seed_steps self !! a = Some rowN /\ rowN !! i = Some n
    /\ i < length (unseen_seed_weights self)
    /\ seed_scores self !! i = Some old.
Proof.
  intros (L1 & L2 & F1 & F2 & L3 & L4) Ha Hi.
  destruct (lookup_lt_is_Some_2 (partial_seed_scores self) a) as [rowS HS];
    [lia|].
  destruct (lookup_lt_is_Some_2 (partial_seed_steps self) a) as [rowN HN];
    [lia|].
  rewrite Forall_lookup in F1. rewrite Forall_lookup in F2.
  pose proof (F1 _ _ HS) as LS. pose proof (F2 _ _ HN) as LN.
  destruct (lookup_lt_is_Some_2 rowS i) as [p Hp]; [lia|].
  destruct (lookup_lt_is_Some_2 rowN i) as [n Hn]; [lia|].
  destruct (lookup_lt_is_Some_2 (seed_scores self) i) as [old Hold]; [lia|].
  exists rowS, rowN, p, n, old. repeat split; try done. lia.
Qed.

Lemma Forall_insert_length {A : Type} (N : nat) (m : list (list A))
    (a i : nat) (row : list A) (x : A) :
  Forall (fun r => length r = N) m -> m !! a = Some row ->
  Forall (fun r => length r = N) (<[a := <[i := x]> row]> m).
Proof.
  intros F H. apply Forall_insert; [exact F|].
  rewrite length_insert. rewrite Forall_lookup in F. by eapply F.
Qed.

(** One cell of the loops of [after_update], away from column [s]: the
    cell's own column is all it touches. *)
Lemma after_update_seed_other_column (W N : nat) (self : LevelSampler)
    (a i s : nat) :
  shaped W N self -> a < W -> i < N -> i <> s ->
  let o := after_update_seed a i self in
  value o = Ok tt
  /\ shaped W N (final o)
  /\ config (final o) = config self
  /\ seed_scores (final o) !! s = seed_scores self !! s
  /\ (forall a', index2 (partial_seed_scores (final o)) a' s
                 = index2 (partial_seed_scores self) a' s)
  /\ (forall a', index2 (partial_seed_steps (final o)) a' s
                 = index2 (partial_seed_steps self) a' s)
  /\ unseen_seed_weights (final o) !! s = unseen_seed_weights self !! s.
Proof.
  intros Hsh Ha Hi Hne.
  destruct (shaped_lookup _ _ _ _ _ Hsh Ha Hi)
    as (rowS & rowN & p & n & old & HS & Hp & HN & Hn & Hu & Hold).
  cbv zeta. unfold after_update_seed. rewrite bind_run.
  cbn [reads value final calls].
  assert (E : index2 (partial_seed_scores self) a i = Ok p)
    by (apply index2_Ok; eauto).
  rewrite E. cbn [value final calls].
  destruct (fne p f0).
  - rewrite (update_seed_score_run _ _ _ _ _ _ _ _ _ _ HS Hp HN Hn Hu Hold).
    cbn [value final calls]. split; [done|].
    destruct Hsh as (L1 & L2 & F1 & F2 & L3 & L4).
    split; [|split; [done|split; [|split; [|split]]]].
    + unfold shaped. cbn. rewrite !length_insert.
      repeat split; try done; by apply Forall_insert_length.
    + cbn. by apply list_lookup_insert_ne.
    + intros a'. cbn. unfold index2, index.
      destruct (decide (a' = a)) as [->|Hna].
      * rewrite list_lookup_insert_eq by lia. rewrite HS. cbn.
        by rewrite list_lookup_insert_ne.
      * by rewrite list_lookup_insert_ne.
    + intros a'. cbn. unfold index2, index.
      destruct (decide (a' = a)) as [->|Hna].
      * rewrite list_lookup_insert_eq by lia. rewrite HN. cbn.
        by rewrite list_lookup_insert_ne.
      * by rewrite list_lookup_insert_ne.
    + cbn. by apply list_lookup_insert_ne.
  - cbn. repeat split; try done; apply Hsh.
Qed.

(** A cell whose partial score is zero is skipped. *)
Lemma after_update_seed_skip (self : LevelSampler) (a i : nat) :
  index2 (partial_seed_scores self) a i = Ok f0 ->
  after_update_seed a i self = Outcome self [] (Ok tt).
Proof.
  intros E. unfold after_update_seed. rewrite bind_run.
  cbn [reads value final calls]. rewrite E. reflexivity.
Qed.

(** A loop whose invariant switches from [J true] to [J false] at the items
    marked by [hit]. *)
Lemma for_each_phase {A : Type} (J : bool -> LevelSampler -> Prop)
    (hit : A -> bool) (body : A -> M unit) (l : list A) :
  (forall x st b, x ∈ l -> J b st ->
     value (body x st) = Ok tt /\ J (b && negb (hit x)) (final (body x st))) ->
  forall st b, J b st ->
    value (for_each body l st) = Ok tt
    /\ J (b && negb (existsb hit l)) (final (for_each body l st)).
Proof.
  induction l as [|x l IH]; intros Hbody st b HJ.
  - cbn. rewrite andb_true_r. done.
  - cbn [for_each existsb]. rewrite bind_run.
    destruct (Hbody x st b ltac:(apply list_elem_of_here) HJ) as [E HJ'].
    rewrite E. cbn [value final].
    destruct (IH (fun y st' b' Hy => Hbody y st' b' ltac:(by apply list_elem_of_further)) _ _ HJ')
      as [E' HJ''].
    split; [exact E'|].
    replace (b && negb (hit x || existsb hit l))
      with (b && negb (hit x) && negb (existsb hit l)); [exact HJ''|].
    by destruct b, (hit x), (existsb hit l).
Qed.

Lemma merge_flush (p : Qc) (n : Z) :
  (0 < n)%Z -> merge (Fin p) n f0 0 = Fin p.
Proof.
  intros H. unfold f0. rewrite merge_finite by lia. f_equal.
  rewrite Z2Qc_0. field. apply Z2Qc_nonzero. lia.
Qed.

Lemma index2_fill {A : Type} (W N : nat) (m : list (list A)) (x : A)
    (a i : nat) :
  length m = W -> Forall (fun row => length row = N) m -> a < W -> i < N ->
  index2 (fill x m) a i = Ok x.
Proof.
  intros L F Ha Hi. apply index2_Ok. unfold fill.
  destruct (lookup_lt_is_Some_2 m a) as [row Hrow]; [lia|].
  exists (map (fun _ => x) row). split.
  - by rewrite list_lookup_fmap, Hrow.
  - rewrite Forall_lookup in F. pose proof (F _ _ Hrow) as Lr.
    destruct (lookup_lt_is_Some_2 row i) as [y Hy]; [lia|].
    by rewrite list_lookup_fmap, Hy.
Qed.

Lemma shaped_shape (W N : nat) (self : LevelSampler) :
  shaped W N self -> 0 < W ->
  length (partial_seed_scores self) = W
  /\ shape1 (partial_seed_scores self) = N.
Proof.
  intros (L1 & _ & F1 & _) HW. split; [exact L1|].
  destruct (partial_seed_scores self) as [|row m]; cbn in *; [lia|].
  by apply Forall_cons in F1 as [-> _].
Qed.

(** ** Staleness *)

(** The pointwise form of [respects], for statements whose effect depends
    on a value read from the object just before. *)
Definition holds (R : rel) {A : Type} (m : M A) (self : LevelSampler) : Prop :=
  R self (calls (m self)) (is_ok (value (m self))) (final (m self)).

Lemma holds_respects (R : rel) {A : Type} (m : M A) (self : LevelSampler) :
  respects R m -> holds R m self.
Proof. intros H. apply H. Qed.

Lemma holds_gets_bind (R : rel) {A B : Type} (f : LevelSampler -> A)
    (k : A -> M B) (self : LevelSampler) :
  holds R (k (f self)) self -> holds R (gets f ≫= k) self.
Proof.
  unfold holds. rewrite bind_run. cbn [gets value final calls]. done.
Qed.

Lemma holds_bind (R : rel) `{!Sequential R} {A B : Type} (m : M A)
    (f : A -> M B) (self : LevelSampler) :
  holds R m self ->
  (forall a, value (m self) = Ok a -> holds R (f a) (final (m self))) ->
  holds R (m ≫= f) self.
Proof.
  unfold holds. intros Hm Hf. rewrite bind_run.
  destruct (value (m self)) as [a|e]; cbn [final calls value is_ok] in *.
  - eapply seq_comp; [exact Hm|]. by apply Hf.
  - exact Hm.
Qed.

(** The common tail of [_sample_replay_level] and [_sample_unseen_level]:
    draw an index from [p], read its seed, update staleness. *)
Lemma draw_and_reset (p : list fnum) (u : Qc) (st : LevelSampler) (seed : Z) :
  (0 < staleness_coef (config st))%Qc ->
  value ((n ← gets (fun self => length (seeds self));
          seed_idx ← lift (choice_p n p u);
          seed ← reads (fun self => index (seeds self) seed_idx);
          _update_staleness seed_idx;;
          mret seed) st) = Ok seed ->
  exists idx,
    seeds st !! idx = Some seed
    /\ seed_staleness
         (final ((n ← gets (fun self => length (seeds self));
                  seed_idx ← lift (choice_p n p u);
                  seed ← reads (fun self => index (seeds self) seed_idx);
                  _update_staleness seed_idx;;
                  mret seed) st)) !! idx = Some f0
    /\ forall j x, j <> idx -> seed_staleness st !! j = Some x ->
         seed_staleness
           (final ((n ← gets (fun self => length (seeds self));
                    seed_idx ← lift (choice_p n p u);
                    seed ← reads (fun self => index (seeds self) seed_idx);
                    _update_staleness seed_idx;;
                    mret seed) st)) !! j = Some (fadd x f1).
Proof.
  intros Hcoef. apply Qcltb_true in Hcoef.
  unfold _update_staleness. run_monad.
  destruct (choice_p (length (seeds st)) p u) as [idx|e]; cbn; [|discriminate].
  destruct (index (seeds st) idx) as [sd|e] eqn:Ei; cbn; [|discriminate].
  rewrite Hcoef. cbn.
  destruct (store (map (fun x => fadd x f1) (seed_staleness st)) idx f0)
    as [v|e] eqn:Es; cbn; [|discriminate].
  intros [= <-]. apply index_Ok in Ei. apply store_Ok in Es as [Hi ->].
  exists idx. split; [exact Ei|]. split.
  - by apply list_lookup_insert_eq.
  - intros j x Hj Hx. rewrite list_lookup_insert_ne by done.
    by rewrite list_lookup_fmap, Hx.
Qed.

(** What the masked assignment of the 'max' branch does to the array it is
    handed: the entries under the mask are overwritten, the others stay. *)
Lemma masked_fill_lookup (a : list fnum) (mask : list bool) (x : fnum)
    (a' : list fnum) (j : nat) :
  masked_fill a mask x = Ok a' ->
  a' !! j = a !! j \/ mask !! j = Some true.
Proof.
  unfold masked_fill. destruct (decide (length mask = length a)) as [L|];
    [|discriminate].
  intros [= <-]. revert mask j L.
  induction a as [|v a IH]; intros [|b mask] j L; try discriminate.
  - by left.
  - injection L as L. destruct j as [|j]; cbn.
    + destruct b; [by right|by left].
    + by apply IH.
Qed.

(** Computing the weights leaves the configuration and the unseen flags
    alone, and the staleness array too, except for the entries of seeds
    still flagged unseen when the transform applied to staleness is 'max'
    (the masked assignment of that branch writes through the view). *)
Definition staleness_slip (transform : string) : rel :=
  fun s _ _ s' =>
    config s' = config s
    /\ unseen_seed_weights s' = unseen_seed_weights s
    /\ forall j,
         seed_staleness s' !! j = seed_staleness s !! j
         \/ (transform = "max"
             /\ exists u, unseen_seed_weights s !! j = Some u
                          /\ fgt u f0 = true).

#[global] Instance staleness_slip_sequential (transform : string) :
  Sequential (staleness_slip transform).
Proof.
  split; unfold staleness_slip.
  - intros s b. repeat split. intros j. by left.
  - intros s l s' l' b s'' (C1 & U1 & H1) (C2 & U2 & H2).
    split; [congruence|]. split; [congruence|]. intros j.
    destruct (H2 j) as [E2|E2].
    + rewrite E2. apply H1.
    + right. by rewrite <- U1.
Qed.

Lemma _score_transform_scores_slip (t transform : string) (temp : Qc)
    (tie : nat) :
  respects (staleness_slip t)
           (_score_transform transform temp Ref_seed_scores tie).
Proof.
  unfold _score_transform. respects_walk.
  apply respects_modify. intros s. repeat split. intros j. by left.
Qed.

Lemma _score_transform_staleness_slip (transform : string) (temp : Qc)
    (tie : nat) (self : LevelSampler) :
  holds (staleness_slip transform)
        (_score_transform transform temp Ref_seed_staleness tie) self.
Proof.
  unfold _score_transform. apply holds_gets_bind. cbv zeta.
  destruct (transform =? "max") eqn:E.
  - apply String.eqb_eq in E. subst transform.
    apply holds_gets_bind.
    apply holds_bind; [typeclasses eauto| |intros s' Hs'].
    { apply holds_respects. respects_walk. }
    cbn [lift value final] in Hs' |- *.
    apply holds_bind; [typeclasses eauto| |intros _ _].
    { unfold holds. cbn. repeat split. intros j.
      destruct (masked_fill_lookup _ _ _ _ j Hs') as [H|H]; [by left|].
      right. split; [done|]. rewrite list_lookup_fmap in H.
      destruct (unseen_seed_weights self !! j) as [u|]; [|discriminate].
      exists u. split; [done|]. by injection H. }
    apply holds_respects. respects_walk.
  - apply holds_respects. respects_walk.
Qed.

Lemma sample_weights_slip (d : draws) (self : LevelSampler) :
  holds (staleness_slip (staleness_transform (config self)))
        (sample_weights d) self.
Proof.
  unfold sample_weights.
  do 2 apply holds_gets_bind.
  apply holds_bind; [typeclasses eauto| |intros w1 _].
  { apply holds_respects, _score_transform_scores_slip. }
  set (s1 := final _).
  assert (Hc : config s1 = config self).
  { subst s1.
    by destruct (_score_transform_static
                   (score_transform (config self)) (temperature (config self))
                   Ref_seed_scores (tie_scores d) self) as [H _]. }
  apply holds_bind; [typeclasses eauto| |intros w2 _].
  { apply holds_respects. unfold mask_unseen. respects_walk. }
  set (s2 := final _).
  assert (Hc2 : config s2 = config self) by (subst s2; cbn; exact Hc).
  cbv zeta. apply holds_gets_bind.
  destruct (Qcltb 0 (staleness_coef (config s2))).
  - do 2 apply holds_gets_bind. rewrite <- Hc2.
    apply holds_bind; [typeclasses eauto| |intros w3 _].
    { apply _score_transform_staleness_slip. }
    apply holds_respects. unfold mask_unseen. respects_walk.
  - apply holds_respects. respects_walk.
Qed.

(** Under the 'random' and 'sequential' strategies [sample] returns before
    any staleness update. *)
Lemma sample_direct_keeps_staleness (strategy_arg : option string)
    (d : draws) (self : LevelSampler) :
  effective_strategy strategy_arg self = "random"
  \/ effective_strategy strategy_arg self = "sequential" ->
  seed_staleness (final (sample strategy_arg d self)) = seed_staleness self.
Proof.
  intros H. unfold sample. rewrite bind_run. cbn [gets value final calls].
  fold (effective_strategy strategy_arg self).
  destruct H as [-> | ->].
  - change ("random" =? "random") with true. run_monad.
    destruct (choice_uniform _ _); cbn; done.
  - change ("sequential" =? "random") with false.
    change ("sequential" =? "sequential") with true. run_monad.
    destruct (decide (length (seeds self) = 0)); cbn; done.
Qed.

(** C8 (as amended). Staleness reset: with staleness weighting enabled
    (staleness_coef > 0), after a successful [sample()] on a score-driven
    strategy (neither 'random' nor 'sequential'), under either replay
    schedule, the selected seed's staleness is exactly 0 and the staleness
    of every other seed (in particular every previously non-zero one) has
    increased by exactly 1.  One case is left out: the staleness of a seed
    still flagged unseen when the staleness transform is 'max' and the
    replay branch was taken.  Under the 'random' and 'sequential'
    strategies [sample()] leaves the staleness vector as it was. *)
Theorem staleness_reset (strategy_arg : option string) (d : draws)
    (self : LevelSampler) (seed : Z) :
  (0 < staleness_coef (config self))%Qc ->
  value (sample strategy_arg d self) = Ok seed ->
  (score_driven (effective_strategy strategy_arg self) ->
   exists idx,
     seeds self !! idx = Some seed
     /\ seed_staleness (final (sample strategy_arg d self)) !! idx = Some f0
     /\ forall j x, j <> idx -> seed_staleness self !! j = Some x ->
          ~ (staleness_transform (config self) = "max"
             /\ Call_sample_replay_level ∈ calls (sample strategy_arg d self)
             /\ exists u, unseen_seed_weights self !! j = Some u
                          /\ fgt u f0 = true) ->
          seed_staleness (final (sample strategy_arg d self)) !! j
          = Some (fadd x f1))
  /\ (effective_strategy strategy_arg self = "random"
      \/ effective_strategy strategy_arg self = "sequential" ->
      seed_staleness (final (sample strategy_arg d self))
      = seed_staleness self).
Proof.
  intros Hcoef Hv. split; [|apply sample_direct_keeps_staleness].
  intros Hs. revert Hv. rewrite (sample_score_driven _ _ _ Hs).
  assert (Hreplay : value (_sample_replay_level d self) = Ok seed ->
    exists idx,
      seeds self !! idx = Some seed
      /\ seed_staleness (final (_sample_replay_level d self)) !! idx = Some f0
      /\ forall j x, j <> idx -> seed_staleness self !! j = Some x ->
           ~ (staleness_transform (config self) = "max"
              /\ Call_sample_replay_level ∈ calls (_sample_replay_level d self)
              /\ exists u, unseen_seed_weights self !! j = Some u
                           /\ fgt u f0 = true) ->
           seed_staleness (final (_sample_replay_level d self)) !! j
           = Some (fadd x f1)).
  { pose proof (replay_level_log d self) as [Hlog _]. revert Hlog.
    unfold _sample_replay_level. rewrite bind_run.
    cbn [enter value final calls]. rewrite bind_run.
    destruct (sample_weights_slip d self) as (Hc & _ & Hst).
    destruct (sample_weights_frame d self) as (_ & Hseeds & _).
    unfold keeps in Hseeds.
    destruct (value (sample_weights d self)) as [w|e];
      cbn [value final calls]; [|discriminate].
    cbv zeta. intros Hlog Hv.
    destruct (draw_and_reset _ _ (final (sample_weights d self)) seed
                ltac:(by rewrite Hc) Hv) as (idx & H1 & H2 & H3).
    exists idx. rewrite <- Hseeds. split; [done|]. split; [done|].
    intros j x Hj Hx Hslip. apply H3; [done|].
    destruct (Hst j) as [E|[Hmax Hflag]]; [congruence|].
    exfalso. apply Hslip. done. }
  assert (Hunseen : value (_sample_unseen_level d self) = Ok seed ->
    exists idx,
      seeds self !! idx = Some seed
      /\ seed_staleness (final (_sample_unseen_level d self)) !! idx = Some f0
      /\ forall j x, j <> idx -> seed_staleness self !! j = Some x ->
           ~ (staleness_transform (config self) = "max"
              /\ Call_sample_replay_level ∈ calls (_sample_unseen_level d self)
              /\ exists u, unseen_seed_weights self !! j = Some u
                           /\ fgt u f0 = true) ->
           seed_staleness (final (_sample_unseen_level d self)) !! j
           = Some (fadd x f1)).
  { unfold _sample_unseen_level. rewrite bind_run.
    cbn [enter value final calls]. rewrite bind_run.
    cbn [gets value final calls]. cbv zeta. intros Hv.
    destruct (draw_and_reset _ _ self seed Hcoef Hv) as (idx & H1 & H2 & H3).
    exists idx. split; [done|]. split; [done|].
    intros j x Hj Hx _. by apply H3. }
  destruct (replay_schedule (config self) =? "fixed").
  - destruct (replay_fixed self d); assumption.
  - destruct (replay_proportionate self d); assumption.
Qed.

(** ** Normalisation of the sampling weights *)

Lemma bind_assoc {A B C : Type} (m : M A) (f : A -> M B) (g : B -> M C)
    (self : LevelSampler) :
  ((m ≫= f) ≫= g) self = (m ≫= (fun a => f a ≫= g)) self.
Proof.
  rewrite !bind_run. destruct (value (m self)) as [a|e]; cbn [value final calls].
  - rewrite bind_run.
    destruct (value (f a (final (m self)))) as [b|e];
      cbn [value final calls]; by rewrite ?app_assoc.
  - reflexivity.
Qed.

Definition Qcsum (qs : list Qc) : Qc := fold_left Qcplus qs 0%Qc.

Lemma fold_fadd_Fin (qs : list Qc) (a : Qc) :
  fold_left fadd (map Fin qs) (Fin a) = Fin (fold_left Qcplus qs a).
Proof.
  revert a. induction qs as [|q qs IH]; intros a; [done|].
  cbn [map fold_left fadd]. apply IH.
Qed.

Lemma fsum_Fin (qs : list Qc) : fsum (map Fin qs) = Fin (Qcsum qs).
Proof. apply fold_fadd_Fin. Qed.

Lemma all_finite_Fin (l : list fnum) :
  all_finite l -> exists qs, l = map Fin qs.
Proof.
  induction 1 as [|x l Hx _ [qs ->]].
  - by exists [].
  - destruct x as [q| | |]; try discriminate. by exists (q :: qs).
Qed.

Lemma fold_Qcplus_scaled (qs : list Qc) (z a : Qc) :
  z <> 0%Qc ->
  fold_left Qcplus (map (fun q => q / z)%Qc qs) (a / z)%Qc
  = (fold_left Qcplus qs a / z)%Qc.
Proof.
  intros Hz. revert a. induction qs as [|q qs IH]; intros a; [done|].
  cbn [map fold_left]. rewrite <- IH. f_equal. field. exact Hz.
Qed.

(** Finite weights with a positive sum are normalised to sum 1; weights
    without a positive sum are left as they are. *)
Lemma normalize_positive (l : list fnum) :
  all_finite l -> fgt (fsum l) f0 = true ->
  all_finite (normalize l) /\ fsum (normalize l) = f1
  /\ length (normalize l) = length l.
Proof.
  intros Hfin Hpos. destruct (all_finite_Fin l Hfin) as [qs ->].
  unfold normalize. cbv zeta. rewrite Hpos. rewrite fsum_Fin in *.
  unfold fgt, f0 in Hpos. cbn [flt] in Hpos. apply Qcltb_true in Hpos.
  assert (Hz : Qcsum qs <> 0%Qc).
  { intros E. rewrite E in Hpos. exact (Qclt_not_eq _ _ Hpos eq_refl). }
  assert (E : map (fun w => fdiv w (Fin (Qcsum qs))) (map Fin qs)
              = map Fin (map (fun q => q / Qcsum qs)%Qc qs)).
  { rewrite !map_map. apply map_ext. intros q. by apply fdiv_finite. }
  rewrite E. split; [|split].
  - unfold all_finite. rewrite Forall_fmap. by apply Forall_true.
  - rewrite fsum_Fin. unfold f1. f_equal. unfold Qcsum at 1.
    replace 0%Qc with (0 / Qcsum qs)%Qc at 1 by (field; exact Hz).
    rewrite fold_Qcplus_scaled by exact Hz. fold (Qcsum qs).
    field. exact Hz.
  - by rewrite !length_map.
Qed.

Lemma normalize_not_positive (l : list fnum) :
  fgt (fsum l) f0 = false -> normalize l = l.
Proof. intros H. unfold normalize. cbv zeta. by rewrite H. Qed.

Lemma fold_Qcplus_mix (k1 k2 : Qc) (xs ys : list Qc) :
  length xs = length ys ->
  forall a b,
    fold_left Qcplus (zip_with (fun x y => k1 * x + k2 * y)%Qc xs ys)
              (k1 * a + k2 * b)%Qc
    = (k1 * fold_left Qcplus xs a + k2 * fold_left Qcplus ys b)%Qc.
Proof.
  revert ys. induction xs as [|x xs IH]; intros [|y ys] L a b;
    try discriminate; [done|].
  cbn [zip_with fold_left]. injection L as L.
  rewrite <- (IH ys L). f_equal. ring.
Qed.

(** The convex combination of two finite vectors that each sum to 1 sums
    to 1. *)
Lemma combine_sums_to_one (c : Qc) (a b w : list fnum) :
  all_finite a -> all_finite b -> length a = length b ->
  fsum a = f1 -> fsum b = f1 ->
  elementwise ValueError fadd (map (fmul (Fin (1 - c)%Qc)) a)
              (map (fmul (Fin c)) b) = Ok w ->
  fsum w = f1.
Proof.
  intros Ha Hb L Sa Sb E.
  destruct (all_finite_Fin a Ha) as [xs ->].
  destruct (all_finite_Fin b Hb) as [ys ->].
  rewrite !length_map in L. rewrite fsum_Fin in Sa, Sb.
  injection Sa as Sa. injection Sb as Sb.
  rewrite elementwise_same_length in E by (by rewrite !length_map).
  injection E as <-.
  assert (E : zip_with fadd (map (fmul (Fin (1 - c)%Qc)) (map Fin xs))
                       (map (fmul (Fin c)) (map Fin ys))
              = map Fin (zip_with (fun x y => (1 - c) * x + c * y)%Qc xs ys)).
  { clear Sa Sb Ha Hb. revert ys L.
    induction xs as [|x xs IH]; intros [|y ys] L;
      try discriminate; [done|].
    injection L as L. cbn. f_equal. by apply IH. }
  rewrite E, fsum_Fin. unfold f1, Qcsum. f_equal.
  replace 0%Qc with ((1 - c) * 0 + c * 0)%Qc at 1 by ring.
  rewrite fold_Qcplus_mix by exact L.
  fold (Qcsum xs). fold (Qcsum ys). rewrite Sa, Sb. ring.
Qed.

Lemma N2Qc_S (n : nat) : N2Qc (S n) = (N2Qc n + 1)%Qc.
Proof.
  unfold N2Qc. rewrite Nat2Z.inj_succ, <- Z.add_1_r, Z2Qc_add.
  f_equal; try (apply Qc_is_canon; reflexivity).
Qed.

Lemma fold_Qcplus_const {A : Type} (c : Qc) (l : list A) (a : Qc) :
  fold_left Qcplus (map (fun _ => c) l) a = (a + N2Qc (length l) * c)%Qc.
Proof.
  revert a. induction l as [|x l IH]; intros a.
  - cbn. change (N2Qc 0) with (Z2Qc 0). rewrite Z2Qc_0. ring.
  - cbn [map fold_left length]. rewrite IH, N2Qc_S. ring.
Qed.

(** The fallback of [_sample_replay_level]: weights that sum to (nearly)
    zero are replaced by the uniform distribution, which sums to 1. *)
Lemma replay_distribution_uniform (w : list fnum) :
  w <> [] -> isclose (fsum w) f0 = true ->
  replay_distribution w
    = replicate (length w) (Fin (1 / N2Qc (length w))%Qc)
  /\ fsum (replay_distribution w) = f1.
Proof.
  intros Hne Hz. unfold replay_distribution. rewrite Hz.
  assert (Hn : N2Qc (length w) <> 0%Qc).
  { apply N2Qc_nonzero. destruct w; [done|]. cbn. lia. }
  assert (E : map (fun _ : fnum => fdiv f1 (fN (length w))) w
              = map Fin (map (fun _ => (1 / N2Qc (length w))%Qc) w)).
  { rewrite map_map. apply map_ext. intros _. by apply fdiv_finite. }
  split.
  - rewrite E. clear. generalize (1 / N2Qc (length w))%Qc. intros c.
    induction w as [|x w IH]; [done|]. cbn. by rewrite IH.
  - rewrite E, fsum_Fin. unfold f1, Qcsum. f_equal.
    rewrite fold_Qcplus_const. field. exact Hn.
Qed.

Lemma gets_bind_run {A B : Type} (f : LevelSampler -> A) (k : A -> M B)
    (self : LevelSampler) :
  (gets f ≫= k) self = k (f self) self.
Proof. rewrite bind_run. cbn [gets value final calls]. apply outcome_eta. Qed.

Lemma masked_weights_static (transform : string) (temp : Qc)
    (scores : array_ref) (tie : nat) :
  respects static_frame (masked_weights transform temp scores tie).
Proof.
  unfold masked_weights, mask_unseen. static_walk.
  apply _score_transform_static.
Qed.

Lemma masked_bind {B : Type} (transform : string) (temp : Qc)
    (scores : array_ref) (tie : nat) (k : list fnum -> M B)
    (self : LevelSampler) :
  (weights ← _score_transform transform temp scores tie;
   weights' ← mask_unseen weights;
   k weights') self
  = (masked_weights transform temp scores tie ≫= k) self.
Proof. unfold masked_weights. symmetry. apply bind_assoc. Qed.

(** * Further properties of the code *)

(** ** Further definitions *)

(** [seed_range()]: Python's [min] and [max] refuse an empty sequence. *)
Definition seed_range : M (Z * Z) :=
  reads (fun self =>
    match seeds self with
    | [] => Raise ValueError
    | s :: rest => Ok (fold_left Z.min rest s, fold_left Z.max rest s)
    end).

(** The strategies [update_with_rollouts] has a score function for. *)
Definition supported_strategy (s : string) : Prop :=
  s = "policy_entropy" \/ s = "least_confidence" \/ s = "min_margin"
  \/ s = "gae" \/ s = "value_l1" \/ s = "one_step_td_error".

(** Successive calls of [sample(strategy)], one per element of [ds], with
    the seeds they return. *)
Fixpoint sample_each (strategy_arg : option string) (ds : list draws)
  : M (list Z) :=
  match ds with
  | [] => mret []
  | d :: ds' =>
      seed ← sample strategy_arg d;
      rest ← sample_each strategy_arg ds';
      mret (seed :: rest)
  end.

(** ** Error behaviour of [update_with_rollouts] *)

(** X1. A strategy that is neither 'random' nor one of the six scored
    strategies (for instance 'sequential', which [sample] accepts) makes
    [update_with_rollouts] raise [ValueError] before it reads the batch:
    the object is unchanged and no helper is entered. *)
Theorem update_with_rollouts_unsupported_strategy (rollouts : RolloutStorage)
    (self : LevelSampler) :
  strategy (config self) <> "random" ->
  ~ supported_strategy (strategy (config self)) ->
  update_with_rollouts rollouts self = Outcome self [] (Raise ValueError).
Proof.
  intros Hr Hs. unfold supported_strategy in Hs.
  unfold update_with_rollouts. rewrite bind_run. cbn [gets value final calls].
  repeat match goal with
    | |- context [String.eqb ?a ?b] =>
        let E := fresh "E" in
        destruct (String.eqb a b) eqn:E;
        [apply String.eqb_eq in E; exfalso; tauto|]
    end.
  reflexivity.
Qed.

(** ** The one-step TD-error score on a one-step segment *)

(** X2. On a segment of a single step the one-step TD-error score has no
    pair of consecutive steps to average over: [_one_step_td_error] returns
    NaN (the mean of an empty tensor), without raising, whatever the value
    estimates are. *)
Theorem one_step_td_error_single_step (k : kwargs) (r : fnum)
    (value_preds : list fnum) :
  kw_rewards k = Some [r] ->
  kw_value_preds k = Some value_preds ->
  _one_step_td_error k = Ok NaN.
Proof.
  intros Hr Hv. unfold _one_step_td_error. rewrite Hr, Hv.
  cbn [kw mbind result_bind length].
  assert (E1 : py_slice [r] None (Some (-1)%Z) = []) by reflexivity.
  assert (E2 : py_slice value_preds None (Some (Z.of_nat 1 - 1)%Z) = []).
  { unfold py_slice, clamp_bound. cbn [from_option].
    change (Z.of_nat 1 - 1 <? 0)%Z with false. cbn match.
    rewrite Z.max_l by lia.
    rewrite Z.min_l by lia. reflexivity. }
  assert (E3 : py_slice value_preds (Some 1%Z) (Some (Z.of_nat 1)) = []).
  { unfold py_slice. cbn [from_option]. by rewrite Nat.sub_diag. }
  rewrite E1, E2, E3. reflexivity.
Qed.

(** ** The scheduler: the proportionate schedule and the simple strategies *)


(** X4. Under the 'random' strategy [sample] returns the seed at the drawn
    index of the pool and changes nothing: staleness, scores, flags and the
    sequential cursor are as before, and no helper is entered.  On an empty
    pool it raises [ValueError]. *)
Theorem sample_random_is_pure (strategy_arg : option string) (d : draws)
    (self : LevelSampler) :
  effective_strategy strategy_arg self = "random" ->
  (seeds self = [] ->
     sample strategy_arg d self = Outcome self [] (Raise ValueError))
  /\ (seeds self <> [] ->
      exists seed,
        seeds self !! (choice_index d mod length (seeds self)) = Some seed
        /\ sample strategy_arg d self = Outcome self [] (Ok seed)).
Proof.
  intros Hs. unfold sample. rewrite bind_run. cbn [gets value final calls].
  fold (effective_strategy strategy_arg self). rewrite Hs.
  change ("random" =? "random") with true. cbn match. split.
  - intros E. run_monad. rewrite E. reflexivity.
  - intros Hne.
    assert (Hn : 0 < length (seeds self))
      by (destruct (seeds self); [done|cbn; lia]).
    assert (Hi : choice_index d mod length (seeds self) < length (seeds self))
      by (apply Nat.mod_upper_bound; lia).
    destruct (lookup_lt_is_Some_2 _ _ Hi) as [seed Hseed].
    exists seed. split; [exact Hseed|].
    assert (E1 : choice_uniform (seq 0 (length (seeds self))) (choice_index d)
                 = Ok (choice_index d mod length (seeds self))).
    { unfold choice_uniform.
      destruct (seq 0 (length (seeds self))) as [|x l] eqn:Eseq.
      { apply (f_equal length) in Eseq. rewrite length_seq in Eseq.
        cbn in Eseq. lia. }
      rewrite <- Eseq. rewrite length_seq. unfold index.
      by rewrite lookup_seq_lt by exact Hi. }
    assert (E2 : index (seeds self) (choice_index d mod length (seeds self))
                 = Ok seed) by (by apply index_Ok).
    run_monad. rewrite E1. cbn [value final calls]. rewrite E2. reflexivity.
Qed.

(** One call under the 'sequential' strategy. *)
Lemma sample_sequential_step (strategy_arg : option string) (d : draws)
    (self : LevelSampler) (seed : Z) :
  effective_strategy strategy_arg self = "sequential" ->
  seeds self !! next_seed_index self = Some seed ->
  sample strategy_arg d self
  = Outcome (set_next_seed_index
               ((next_seed_index self + 1) mod length (seeds self)) self)
            [] (Ok seed).
Proof.
  intros Hs Hseed. unfold sample. rewrite bind_run.
  cbn [gets value final calls].
  fold (effective_strategy strategy_arg self). rewrite Hs.
  change ("sequential" =? "random") with false.
  change ("sequential" =? "sequential") with true. cbn match.
  run_monad.
  assert (Hn : length (seeds self) <> 0).
  { apply lookup_lt_Some in Hseed. lia. }
  rewrite decide_False by exact Hn. cbn.
  unfold index. rewrite Hseed. reflexivity.
Qed.

Lemma sample_each_sequential (strategy_arg : option string) (ds : list draws) :
  forall (self : LevelSampler),
  effective_strategy strategy_arg self = "sequential" ->
  next_seed_index self < length (seeds self) ->
  value (sample_each strategy_arg ds self)
  = Ok (map (fun j => default 0%Z
               (seeds self !! ((next_seed_index self + j)
                                 mod length (seeds self))))
            (seq 0 (length ds)))
  /\ final (sample_each strategy_arg ds self)
     = set_next_seed_index
         ((next_seed_index self + length ds) mod length (seeds self)) self
  /\ calls (sample_each strategy_arg ds self) = [].
Proof.
  induction ds as [|d ds IH]; intros self Hs Hc.
  - cbn. rewrite Nat.add_0_r, Nat.mod_small by exact Hc.
    split; [done|]. split; [by destruct self|done].
  - cbn [sample_each length]. rewrite bind_run.
    destruct (lookup_lt_is_Some_2 _ _ Hc) as [seed Hseed].
    rewrite (sample_sequential_step _ _ _ _ Hs Hseed).
    cbn [value final calls]. rewrite bind_run.
    set (self' := set_next_seed_index _ self).
    assert (Hn : length (seeds self) <> 0) by lia.
    destruct (IH self') as (Ev & Ef & Ec).
    { exact Hs. }
    { subst self'. cbn. apply Nat.mod_upper_bound. exact Hn. }
    rewrite Ev, Ef, Ec. cbn [value final calls mret M_ret].
    subst self'. cbn [seeds next_seed_index set_next_seed_index] in *.
    assert (Hmod : forall j,
               ((next_seed_index self + 1) mod length (seeds self) + j)
                 mod length (seeds self)
               = (next_seed_index self + S j) mod length (seeds self)).
    { intros j. rewrite Nat.Div0.add_mod_idemp_l. f_equal. lia. }
    split; [|split].
    + cbn [seq map]. rewrite Nat.add_0_r, (Nat.mod_small _ _ Hc), Hseed.
      cbn [default from_option]. rewrite <- seq_shift, map_map.
      do 2 f_equal. apply map_ext. intros j. by rewrite Hmod.
    + rewrite Hmod. reflexivity.
    + reflexivity.
Qed.

(** X5. Round robin: under the 'sequential' strategy, as many successive
    calls of [sample] as the pool has seeds hand out every seed of the pool
    once, in pool order starting at the cursor and wrapping around; the
    cursor is then back where it started, nothing else has changed and no
    helper was entered. *)
Theorem sequential_round_robin (strategy_arg : option string)
    (ds : list draws) (self : LevelSampler) :
  effective_strategy strategy_arg self = "sequential" ->
  next_seed_index self < length (seeds self) ->
  length ds = length (seeds self) ->
  sample_each strategy_arg ds self
  = Outcome self []
      (Ok (drop (next_seed_index self) (seeds self)
           ++ take (next_seed_index self) (seeds self))%list).
Proof.
  intros Hs Hc Hlen.
  destruct (sample_each_sequential strategy_arg ds self Hs Hc)
    as (Ev & Ef & Ec).
  rewrite <- (outcome_eta (sample_each strategy_arg ds self)).
  rewrite Ev, Ef, Ec, Hlen. f_equal.
  - rewrite <- Nat.Div0.add_mod_idemp_r, Nat.Div0.mod_same, Nat.add_0_r.
    rewrite Nat.mod_small by exact Hc. by destruct self.
  - f_equal. set (c := next_seed_index self) in *.
    set (l := seeds self) in *. apply list_eq. intros i.
    rewrite list_lookup_fmap.
    destruct (decide (i < length l)) as [Hi|Hi].
    + rewrite lookup_seq_lt by exact Hi. cbn.
      destruct (decide (i < length l - c)) as [Hi'|Hi'].
      * rewrite lookup_app_l by (rewrite length_drop; lia).
        rewrite lookup_drop. rewrite Nat.mod_small by lia.
        destruct (lookup_lt_is_Some_2 l (c + i)) as [x Hx]; [lia|].
        by rewrite Hx.
      * rewrite lookup_app_r by (rewrite length_drop; lia).
        rewrite length_drop. rewrite lookup_take_lt by lia.
        replace ((c + i) mod length l) with (i - (length l - c)).
        2: { replace (c + i) with ((i - (length l - c)) + 1 * length l) by lia.
             rewrite Nat.Div0.mod_add. rewrite Nat.mod_small; lia. }
        destruct (lookup_lt_is_Some_2 l (i - (length l - c))) as [x Hx];
          [lia|].
        by rewrite Hx.
    + rewrite lookup_seq_ge by lia. cbn. symmetry.
      apply lookup_ge_None. rewrite length_app, length_drop, length_take. lia.
Qed.

(** The seed handed out is always read from the pool. *)
Lemma draw_tail_member (p : list fnum) (u : Qc) (st : LevelSampler) (seed : Z) :
  value ((n ← gets (fun self => length (seeds self));
          seed_idx ← lift (choice_p n p u);
          seed ← reads (fun self => index (seeds self) seed_idx);
          _update_staleness seed_idx;;
          mret seed) st) = Ok seed ->
  seed ∈ seeds st.
Proof.
  unfold _update_staleness. run_monad.
  destruct (choice_p (length (seeds st)) p u) as [idx|e]; cbn; [|discriminate].
  destruct (index (seeds st) idx) as [sd|e] eqn:Ei; cbn; [|discriminate].
  apply index_Ok in Ei.
  destruct (Qcltb 0 (staleness_coef (config st))); cbn.
  - destruct (store (map (fun x => fadd x f1) (seed_staleness st)) idx f0);
      cbn; [|discriminate].
    intros [= <-]. by eapply list_elem_of_lookup_2.
  - intros [= <-]. by eapply list_elem_of_lookup_2.
Qed.

(** X6. Whatever the strategy, the schedule, the transforms and the random
    draws, a successful [sample] returns a seed of the pool. *)
Theorem sample_returns_pool_seed (strategy_arg : option string) (d : draws)
    (self : LevelSampler) (seed : Z) :
  value (sample strategy_arg d self) = Ok seed ->
  seed ∈ seeds self.
Proof.
  destruct (String.eqb_spec (effective_strategy strategy_arg self) "random")
    as [E1|E1].
  { unfold sample. rewrite bind_run. cbn [gets value final calls].
    fold (effective_strategy strategy_arg self). rewrite E1.
    change ("random" =? "random") with true. cbn match. run_monad.
    destruct (choice_uniform _ _) as [idx|e]; cbn; [|discriminate].
    destruct (index (seeds self) idx) as [sd|e] eqn:Ei; cbn; [|discriminate].
    intros [= <-]. apply index_Ok in Ei. by eapply list_elem_of_lookup_2. }
  destruct (String.eqb_spec (effective_strategy strategy_arg self) "sequential")
    as [E2|E2].
  { unfold sample. rewrite bind_run. cbn [gets value final calls].
    fold (effective_strategy strategy_arg self). rewrite E2.
    change ("sequential" =? "random") with false.
    change ("sequential" =? "sequential") with true. cbn match. run_monad.
    destruct (decide (length (seeds self) = 0)); cbn; [discriminate|].
    destruct (index (seeds self) (next_seed_index self)) as [sd|e] eqn:Ei;
      cbn; [|discriminate].
    intros [= <-]. apply index_Ok in Ei. by eapply list_elem_of_lookup_2. }
  rewrite (sample_score_driven _ _ _ (conj E1 E2)).
  assert (Hreplay : value (_sample_replay_level d self) = Ok seed ->
                    seed ∈ seeds self).
  { unfold _sample_replay_level. rewrite bind_run.
    cbn [enter value final calls]. rewrite bind_run.
    destruct (sample_weights_frame d self) as (_ & Hseeds & _).
    unfold keeps in Hseeds.
    destruct (value (sample_weights d self)) as [w|e];
      cbn [value final calls]; [|discriminate].
    cbv zeta. intros Hv. apply draw_tail_member in Hv. by rewrite <- Hseeds. }
  assert (Hunseen : value (_sample_unseen_level d self) = Ok seed ->
                    seed ∈ seeds self).
  { unfold _sample_unseen_level. rewrite bind_run.
    cbn [enter value final calls]. rewrite bind_run.
    cbn [gets value final calls]. cbv zeta. apply draw_tail_member. }
  destruct (replay_schedule (config self) =? "fixed").
  - destruct (replay_fixed self d); assumption.
  - destruct (replay_proportionate self d); assumption.
Qed.

(** ** The seed registry *)

(** X7. The configuration, the seed pool and the seed-to-index dictionary
    are never written after construction: every operation
    ([update_with_rollouts], [after_update], [sample]), returning or
    raising, leaves them as they were. *)
Theorem registry_is_immutable (op : operation) (self : LevelSampler) :
  config (final (run op self)) = config self
  /\ seeds (final (run op self)) = seeds self
  /\ seed2index (final (run op self)) = seed2index self.
Proof. exact (run_static op self). Qed.

Lemma fold_min_spec (l : list Z) :
  forall a, fold_left Z.min l a ∈ a :: l
            /\ forall s, s ∈ a :: l -> (fold_left Z.min l a <= s)%Z.
Proof.
  induction l as [|x l IH]; intros a; cbn [fold_left].
  - split; [apply list_elem_of_here|].
    intros s Hs. apply list_elem_of_singleton in Hs. lia.
  - destruct (IH (Z.min a x)) as [Hin Hle]. split.
    + apply elem_of_cons in Hin as [Hin|Hin].
      * rewrite Hin. destruct (Z.min_spec a x) as [[_ ->]|[_ ->]].
        -- apply list_elem_of_here.
        -- apply list_elem_of_further, list_elem_of_here.
      * by do 2 apply list_elem_of_further.
    + intros s Hs. apply elem_of_cons in Hs as [->|Hs].
      * specialize (Hle (Z.min a x) ltac:(apply list_elem_of_here)). lia.
      * apply elem_of_cons in Hs as [->|Hs].
        -- specialize (Hle (Z.min a x) ltac:(apply list_elem_of_here)). lia.
        -- apply Hle. by apply list_elem_of_further.
Qed.

Lemma fold_max_spec (l : list Z) :
  forall a, fold_left Z.max l a ∈ a :: l
            /\ forall s, s ∈ a :: l -> (s <= fold_left Z.max l a)%Z.
Proof.
  induction l as [|x l IH]; intros a; cbn [fold_left].
  - split; [apply list_elem_of_here|].
    intros s Hs. apply list_elem_of_singleton in Hs. lia.
  - destruct (IH (Z.max a x)) as [Hin Hle]. split.
    + apply elem_of_cons in Hin as [Hin|Hin].
      * rewrite Hin. destruct (Z.max_spec a x) as [[_ ->]|[_ ->]].
        -- apply list_elem_of_further, list_elem_of_here.
        -- apply list_elem_of_here.
      * by do 2 apply list_elem_of_further.
    + intros s Hs. apply elem_of_cons in Hs as [->|Hs].
      * specialize (Hle (Z.max a x) ltac:(apply list_elem_of_here)). lia.
      * apply elem_of_cons in Hs as [->|Hs].
        -- specialize (Hle (Z.max a x) ltac:(apply list_elem_of_here)). lia.
        -- apply Hle. by apply list_elem_of_further.
Qed.

(** X8. [seed_range()] raises [ValueError] on an empty pool; on any other
    pool it returns a pair (lo, hi) of seeds of the pool such that every
    seed of the pool lies between them.  It never changes the object. *)
Theorem seed_range_bounds (self : LevelSampler) :
  (seeds self = [] -> seed_range self = Outcome self [] (Raise ValueError))
  /\ (seeds self <> [] ->
      exists lo hi,
        seed_range self = Outcome self [] (Ok (lo, hi))
        /\ lo ∈ seeds self /\ hi ∈ seeds self
        /\ forall s, s ∈ seeds self -> (lo <= s <= hi)%Z).
Proof.
  unfold seed_range, reads. split.
  - intros ->. reflexivity.
  - intros Hne. destruct (seeds self) as [|a l]; [done|].
    destruct (fold_min_spec l a) as [Hmin Hle].
    destruct (fold_max_spec l a) as [Hmax Hge].
    exists (fold_left Z.min l a), (fold_left Z.max l a).
    split; [reflexivity|]. split; [exact Hmin|]. split; [exact Hmax|].
    intros s Hs. split; [by apply Hle|by apply Hge].
Qed.

Lemma _init_seed_index_snoc (l : list Z) (s : Z) :
  _init_seed_index (l ++ [s]) = <[s := length l]> (_init_seed_index l).
Proof.
  unfold _init_seed_index. rewrite imap_app, fold_left_app. cbn.
  by rewrite Nat.add_0_r.
Qed.

(** X9. The dictionary built by the constructor inverts the pool: every
    entry [seed2index[s] = i] points back at [s] ([seeds[i] = s]); a seed
    outside the pool has no entry (looking it up is a [KeyError]); a seed of
    the pool is mapped to the last index at which it is listed, hence to its
    own index when the pool lists no seed twice. *)
Theorem seed2index_inverts_pool (pool : list Z) (num_actors : nat)
    (c : Config) :
  let self := __init__ pool num_actors c in
  (forall s i, seed2index self !! s = Some i -> seeds self !! i = Some s)
  /\ (forall s, s ∉ seeds self -> seed2index self !! s = None)
  /\ (forall s i, seeds self !! i = Some s ->
        exists j, seed2index self !! s = Some j /\ i <= j
                  /\ seeds self !! j = Some s)
  /\ (NoDup (seeds self) ->
      forall s i, seeds self !! i = Some s -> seed2index self !! s = Some i).
Proof.
  cbv zeta. cbn [seeds seed2index __init__].
  assert (H123 :
    (forall s i, _init_seed_index pool !! s = Some i -> pool !! i = Some s)
    /\ (forall s, s ∉ pool -> _init_seed_index pool !! s = None)
    /\ (forall s i, pool !! i = Some s ->
          exists j, _init_seed_index pool !! s = Some j /\ i <= j
                    /\ pool !! j = Some s)).
  { induction pool as [|x l (IH1 & IH2 & IH3)] using rev_ind.
    - change (_init_seed_index []) with (∅ : gmap Z nat). split; [|split].
      + intros s i H. by rewrite lookup_empty in H.
      + intros s _. apply lookup_empty.
      + intros s i H. by rewrite lookup_nil in H.
    - rewrite _init_seed_index_snoc. split; [|split].
      + intros s i H. destruct (decide (x = s)) as [->|Hne].
        * rewrite lookup_insert_eq in H. injection H as <-.
          apply list_lookup_middle. reflexivity.
        * rewrite lookup_insert_ne in H by exact Hne.
          apply lookup_app_l_Some. by apply IH1.
      + intros s Hs. rewrite elem_of_app, list_elem_of_singleton in Hs.
        rewrite lookup_insert_ne by (intros ->; tauto).
        apply IH2. tauto.
      + intros s i H. destruct (decide (x = s)) as [->|Hne].
        * exists (length l). rewrite lookup_insert_eq.
          split; [done|]. split.
          -- apply lookup_lt_Some in H. rewrite length_app in H. cbn in H. lia.
          -- apply list_lookup_middle. reflexivity.
        * rewrite lookup_insert_ne by exact Hne.
          assert (Hi : l !! i = Some s).
          { apply lookup_app_Some in H as [H|[_ H]]; [exact H|].
            apply list_lookup_singleton_Some in H as [_ ->]. done. }
          destruct (IH3 s i Hi) as (j & Hj & Hij & Hlj).
          exists j. split; [done|]. split; [done|].
          by apply lookup_app_l_Some. }
  destruct H123 as (H1 & H2 & H3). split; [exact H1|]. split; [exact H2|].
  split; [exact H3|].
  intros Hnd s i Hi. destruct (H3 s i Hi) as (j & Hj & _ & Hlj).
  by rewrite (NoDup_lookup _ _ _ _ Hnd Hi Hlj).
Qed.

(** ** [after_update] on any well-shaped sampler *)

Lemma after_update_seed_shaped (W N : nat) (st : LevelSampler) (a i : nat) :
  shaped W N st -> a < W -> i < N ->
  value (after_update_seed a i st) = Ok tt
  /\ shaped W N (final (after_update_seed a i st)).
Proof.
  intros Hsh Ha Hi.
  destruct (after_update_seed_other_column W N st a i N Hsh Ha Hi ltac:(lia))
    as (E & Hsh' & _).
  done.
Qed.

Lemma fill_replicate {A : Type} (W N : nat) (m : list (list A)) (x : A) :
  length m = W -> Forall (fun row => length row = N) m ->
  fill x m = replicate W (replicate N x).
Proof.
  intros <- F. unfold fill. induction F as [|row m Hrow _ IH]; [done|].
  cbn. f_equal; [|exact IH]. rewrite <- Hrow. clear.
  induction row as [|y row IH]; [done|]. cbn. by rewrite IH.
Qed.

Lemma for_each_unchanged {A : Type} (body : A -> M unit) (l : list A)
    (st : LevelSampler) :
  (forall x, x ∈ l -> body x st = Outcome st [] (Ok tt)) ->
  for_each body l st = Outcome st [] (Ok tt).
Proof.
  induction l as [|x l IH]; intros H; [done|].
  cbn [for_each]. rewrite bind_run.
  rewrite (H x ltac:(apply list_elem_of_here)). cbn [value final calls].
  rewrite IH by (intros y Hy; apply H; by apply list_elem_of_further).
  reflexivity.
Qed.

Lemma after_update_loops_shaped (W N : nat) (st : LevelSampler) (n1 : nat) :
  shaped W N st -> (0 < W -> n1 = N) ->
  let m := for_each (fun actor_index =>
             for_each (fun seed_idx => after_update_seed actor_index seed_idx)
                      (seq 0 n1)) (seq 0 W) in
  value (m st) = Ok tt /\ shaped W N (final (m st)).
Proof.
  intros Hsh Hn1. cbv zeta.
  destruct (for_each_phase (fun _ s => shaped W N s) (fun _ : nat => false)
              (fun actor_index =>
                 for_each (fun seed_idx => after_update_seed actor_index seed_idx)
                          (seq 0 n1)) (seq 0 W))
    with (st := st) (b := true) as [E H]; [|exact Hsh|by split].
  intros a st' b Ha Hst'. apply list_elem_of_In, in_seq in Ha.
  rewrite Hn1 by lia.
  destruct (for_each_phase (fun _ s => shaped W N s) (fun _ : nat => false)
              (fun seed_idx => after_update_seed a seed_idx) (seq 0 N))
    with (st := st') (b := true) as [E H]; [|exact Hst'|by split].
  intros i st'' b' Hi Hst''. apply list_elem_of_In, in_seq in Hi.
  apply after_update_seed_shaped; [done|lia|lia].
Qed.

Lemma shape1_shaped (W N : nat) (self : LevelSampler) :
  shaped W N self -> 0 < W -> shape1 (partial_seed_scores self) = N.
Proof. intros Hsh HW. by destruct (shaped_shape W N self Hsh HW). Qed.

(** [after_update] on accumulators that are all zero already. *)
Lemma after_update_all_zero (W N : nat) (st : LevelSampler) :
  partial_seed_scores st = replicate W (replicate N f0) ->
  partial_seed_steps st = replicate W (replicate N 0%Z) ->
  after_update st = Outcome st [] (Ok tt).
Proof.
  intros ES EN. unfold after_update. rewrite gets_bind_run. cbn [fst snd].
  rewrite bind_run.
  rewrite for_each_unchanged.
  - cbn [value final calls]. run_monad.
    cbn [partial_seed_scores partial_seed_steps set_partial_seed_scores
         set_partial_seed_steps app].
    rewrite ES, EN.
    rewrite (fill_replicate W N (replicate W (replicate N f0)))
      by (rewrite ?length_replicate; try done;
          apply Forall_replicate, length_replicate).
    rewrite (fill_replicate W N (replicate W (replicate N 0%Z)))
      by (rewrite ?length_replicate; try done;
          apply Forall_replicate, length_replicate).
    rewrite <- ES, <- EN. by destruct st.
  - intros a Ha. apply list_elem_of_In, in_seq in Ha.
    rewrite ES, length_replicate in Ha.
    apply for_each_unchanged. intros i Hi.
    apply list_elem_of_In, in_seq in Hi.
    apply after_update_seed_skip. rewrite ES. apply index2_Ok.
    exists (replicate N f0). split; [apply lookup_replicate_2; lia|].
    apply lookup_replicate_2.
    rewrite ES in Hi. destruct W; [lia|]. cbn in Hi.
    rewrite length_replicate in Hi. lia.
Qed.

(** X10. On a sampler whose arrays have their shape (W workers, N seeds),
    [after_update()] never raises, leaves every partial accumulator at
    exactly (0, 0), and is idempotent: a second call right after the first
    changes nothing and enters no helper. *)
Theorem after_update_clears_and_is_idempotent (W N : nat)
    (self : LevelSampler) :
  shaped W N self ->
  value (after_update self) = Ok tt
  /\ partial_seed_scores (final (after_update self))
     = replicate W (replicate N f0)
  /\ partial_seed_steps (final (after_update self))
     = replicate W (replicate N 0%Z)
  /\ after_update (final (after_update self))
     = Outcome (final (after_update self)) [] (Ok tt).
Proof.
  intros Hsh.
  assert (H : value (after_update self) = Ok tt
              /\ partial_seed_scores (final (after_update self))
                 = replicate W (replicate N f0)
              /\ partial_seed_steps (final (after_update self))
                 = replicate W (replicate N 0%Z)).
  { destruct (after_update_loops_shaped W N self
                (shape1 (partial_seed_scores self)) Hsh
                (shape1_shaped W N self Hsh)) as [Ev Hsh'].
    cbv zeta in Ev, Hsh'.
    unfold after_update. rewrite gets_bind_run. cbn [fst snd].
    destruct Hsh as (L1 & _). rewrite L1. rewrite bind_run.
    set (loops := for_each _ (seq 0 W)) in *.
    rewrite Ev. cbn [value final calls]. run_monad.
    cbn [partial_seed_scores partial_seed_steps set_partial_seed_scores
         set_partial_seed_steps].
    destruct Hsh' as (L1' & L2' & F1' & F2' & _).
    split; [reflexivity|].
    split; by apply fill_replicate. }
  destruct H as (Ev & ES & EN). split; [exact Ev|]. split; [exact ES|].
  split; [exact EN|]. by apply (after_update_all_zero W N).
Qed.

(** ** The moving average of [update_seed_score] *)

Lemma fmul_one_l (x : fnum) : fmul (Fin 1%Qc) x = x.
Proof.
  destruct x as [q| | |]; cbn; try reflexivity.
  f_equal. ring.
Qed.

Lemma fadd_zero_l (x : fnum) : fadd (Fin 0%Qc) x = x.
Proof.
  destruct x as [q| | |]; cbn; try reflexivity.
  f_equal. ring.
Qed.

(** X11. With smoothing factor alpha = 1 a finalisation replaces the score:
    when [update_seed_score] runs on accumulators that exist and the seed's
    old score is finite, the seed's new score is exactly the merged episode
    score, the seed's unseen flag is cleared, its accumulator is reset to
    (0, 0), and no other seed's score changes. *)
Theorem update_seed_score_replaces_when_alpha_is_one (self : LevelSampler)
    (a i : nat) (sc : fnum) (m : Z) (p : fnum) (n : Z) (old : Qc) :
  alpha (config self) = 1%Qc ->
  index2 (partial_seed_scores self) a i = Ok p ->
  index2 (partial_seed_steps self) a i = Ok n ->
  i < length (unseen_seed_weights self) ->
  seed_scores self !! i = Some (Fin old) ->
  let o := update_seed_score a i sc m self in
  value o = Ok tt
  /\ seed_scores (final o) !! i = Some (merge p n sc m)
  /\ unseen_seed_weights (final o) !! i = Some f0
  /\ index2 (partial_seed_scores (final o)) a i = Ok f0
  /\ index2 (partial_seed_steps (final o)) a i = Ok 0%Z
  /\ forall j, j <> i -> seed_scores (final o) !! j = seed_scores self !! j.
Proof.
  intros Ha E1 E2 Hu Hold.
  apply index2_Ok in E1 as (rowS & HS & Hp).
  apply index2_Ok in E2 as (rowN & HN & Hn).
  cbv zeta.
  rewrite (update_seed_score_run _ _ _ _ _ _ _ _ _ _ HS Hp HN Hn Hu Hold).
  cbn [value final seed_scores unseen_seed_weights partial_seed_scores
       partial_seed_steps set_seed_scores set_unseen_seed_weights
       set_partial_seed_scores set_partial_seed_steps].
  split; [reflexivity|]. split; [|split; [|split; [|split]]].
  - rewrite list_lookup_insert_eq by (by eapply lookup_lt_Some).
    f_equal. unfold ema. rewrite Ha.
    replace (1 - 1)%Qc with 0%Qc by ring.
    replace (fmul (Fin 0%Qc) (Fin old)) with (Fin 0%Qc)
      by (cbn; f_equal; ring).
    by rewrite fmul_one_l, fadd_zero_l.
  - by apply list_lookup_insert_eq.
  - apply index2_Ok. exists (<[i := f0]> rowS). split.
    + apply list_lookup_insert_eq. by eapply lookup_lt_Some.
    + apply list_lookup_insert_eq. by eapply lookup_lt_Some.
  - apply index2_Ok. exists (<[i := 0%Z]> rowN). split.
    + apply list_lookup_insert_eq. by eapply lookup_lt_Some.
    + apply list_lookup_insert_eq. by eapply lookup_lt_Some.
  - intros j Hj. by apply list_lookup_insert_ne.
Qed.

(** X12. The moving average never recovers from a score that is not
    finite: when [update_seed_score] runs on accumulators that exist, a seed
    score that was NaN stays NaN whatever the new episode score and alpha
    are, and a seed score that was infinite becomes NaN when alpha = 1
    (0 times infinity). *)
Theorem update_seed_score_keeps_nan (self : LevelSampler)
    (a i : nat) (sc : fnum) (m : Z) (p : fnum) (n : Z) (old : fnum) :
  index2 (partial_seed_scores self) a i = Ok p ->
  index2 (partial_seed_steps self) a i = Ok n ->
  i < length (unseen_seed_weights self) ->
  seed_scores self !! i = Some old ->
  old = NaN \/ (alpha (config self) = 1%Qc /\ (old = PInf \/ old = NInf)) ->
  value (update_seed_score a i sc m self) = Ok tt
  /\ seed_scores (final (update_seed_score a i sc m self)) !! i = Some NaN.
Proof.
  intros E1 E2 Hu Hold Hbad.
  apply index2_Ok in E1 as (rowS & HS & Hp).
  apply index2_Ok in E2 as (rowN & HN & Hn).
  rewrite (update_seed_score_run _ _ _ _ _ _ _ _ _ _ HS Hp HN Hn Hu Hold).
  cbn [value final seed_scores set_seed_scores].
  split; [reflexivity|].
  rewrite list_lookup_insert_eq by (by eapply lookup_lt_Some).
  f_equal. unfold ema.
  destruct Hbad as [->|[Ha [->| ->]]].
  - reflexivity.
  - rewrite Ha. replace (1 - 1)%Qc with 0%Qc by ring. reflexivity.
  - rewrite Ha. replace (1 - 1)%Qc with 0%Qc by ring. reflexivity.
Qed.
(** ** What each operation writes *)

(** Calls into the score ledger. *)
Definition is_ledger_call (c : call) : Prop :=
  match c with
  | Call_update_seed_score _ _ | Call_partial_update_seed_score _ _ => True
  | _ => False
  end.

(** The ledger is left alone: flags and partial accumulators are as before
    and no ledger method is entered. *)
Definition ledger_frame : rel :=
  both (keeps unseen_seed_weights)
    (both (keeps partial_seed_scores)
       (both (keeps partial_seed_steps)
          (logs (fun c => ~ is_ledger_call c)))).

#[global] Instance ledger_frame_sequential : Sequential ledger_frame.
Proof. unfold ledger_frame. typeclasses eauto. Qed.

Ltac solve_ledger_frame :=
  unfold ledger_frame, both, keeps, logs; repeat split; try reflexivity;
  repeat constructor; try (intros []).

Lemma weights_frame_ledger (s : LevelSampler) (l : list call) (b : bool)
    (s' : LevelSampler) :
  weights_frame s l b s' -> ledger_frame s l b s'.
Proof.
  unfold weights_frame, ledger_frame, both, logs.
  intros (_ & _ & H1 & H2 & H3 & _ & Hl). repeat split; try done.
  eapply Forall_impl; [exact Hl|]. intros ? [].
Qed.

Lemma _update_staleness_ledger (idx : nat) :
  respects ledger_frame (_update_staleness idx).
Proof.
  unfold _update_staleness. respects_walk; frame_leaf; solve_ledger_frame.
Qed.

Lemma sample_ledger (strategy_arg : option string) (d : draws) :
  respects ledger_frame (sample strategy_arg d).
Proof.
  unfold sample, _sample_replay_level, _sample_unseen_level.
  respects_walk;
    try apply _update_staleness_ledger;
    try (eapply respects_weaken; [apply weights_frame_ledger|];
         apply sample_weights_frame);
    frame_leaf; solve_ledger_frame.
Qed.

(** X13. [sample] never touches the score ledger: whatever the strategy,
    the schedule, the transforms and the draws, and whether it returns or
    raises, the unseen flags and both partial accumulators are as before and
    neither [update_seed_score] nor [_partial_update_seed_score] is
    entered. *)
Theorem sample_leaves_ledger_alone (strategy_arg : option string) (d : draws)
    (self : LevelSampler) :
  unseen_seed_weights (final (sample strategy_arg d self))
  = unseen_seed_weights self
  /\ partial_seed_scores (final (sample strategy_arg d self))
     = partial_seed_scores self
  /\ partial_seed_steps (final (sample strategy_arg d self))
     = partial_seed_steps self
  /\ Forall (fun c => ~ is_ledger_call c) (calls (sample strategy_arg d self)).
Proof. exact (sample_ledger strategy_arg d self). Qed.

(** Nothing is written at all. *)
Definition read_only : rel := fun s _ _ s' => s' = s.

#[global] Instance read_only_sequential : Sequential read_only.
Proof.
  split; unfold read_only.
  - reflexivity.
  - intros s l s' l' b s'' H1 H2. congruence.
Qed.

Lemma _score_transform_read_only (transform : string) (temp : Qc)
    (scores : array_ref) (tie : nat) :
  transform <> "max" ->
  respects read_only (_score_transform transform temp scores tie).
Proof.
  intros Hmax. apply String.eqb_neq in Hmax.
  unfold _score_transform. rewrite Hmax. respects_walk.
Qed.

Lemma mask_unseen_final (w : list fnum) (self : LevelSampler) :
  final (mask_unseen w self) = self.
Proof. reflexivity. Qed.

Lemma sample_weights_read_only (d : draws) (self : LevelSampler) :
  score_transform (config self) <> "max" ->
  Qcltb 0 (staleness_coef (config self)) = false ->
  holds read_only (sample_weights d) self.
Proof.
  intros Hmax Hcoef. unfold sample_weights.
  do 2 apply holds_gets_bind.
  pose proof (_score_transform_read_only _ (temperature (config self))
                Ref_seed_scores (tie_scores d) Hmax self) as H1.
  apply holds_bind; [typeclasses eauto|exact H1|intros w1 _].
  unfold read_only in H1. rewrite H1.
  apply holds_bind; [typeclasses eauto| |intros w2 _].
  { apply holds_respects. unfold mask_unseen. respects_walk. }
  rewrite mask_unseen_final. cbv zeta. apply holds_gets_bind.
  rewrite Hcoef. apply holds_respects. respects_walk.
Qed.

Lemma _update_staleness_read_only (idx : nat) (self : LevelSampler) :
  Qcltb 0 (staleness_coef (config self)) = false ->
  _update_staleness idx self = Outcome self [Call_update_staleness idx] (Ok tt).
Proof.
  intros Hcoef. unfold _update_staleness. run_monad. rewrite Hcoef. reflexivity.
Qed.

(** The common tail of the two level samplers, with staleness disabled. *)
Lemma draw_tail_read_only (p : list fnum) (u : Qc) (self : LevelSampler) :
  Qcltb 0 (staleness_coef (config self)) = false ->
  final ((n ← gets (fun self => length (seeds self));
          seed_idx ← lift (choice_p n p u);
          seed ← reads (fun self => index (seeds self) seed_idx);
          _update_staleness seed_idx;;
          mret seed) self) = self.
Proof.
  intros Hcoef. rewrite gets_bind_run. rewrite bind_run.
  cbn [lift value final calls].
  destruct (choice_p (length (seeds self)) p u) as [idx|e];
    cbn [value final calls]; [|reflexivity].
  rewrite bind_run. cbn [reads value final calls].
  destruct (index (seeds self) idx) as [sd|e]; cbn [value final calls];
    [|reflexivity].
  rewrite bind_run. rewrite (_update_staleness_read_only idx self Hcoef).
  reflexivity.
Qed.

(** X14. [sample] is read-only unless one of three things holds: the
    strategy is 'sequential' (the cursor moves), the score transform is
    'max' (the masked scores are written back), or staleness weighting is
    enabled (the staleness array is updated).  In every other case the
    object after the call is the object before it, whether the call returns
    or raises. *)
Theorem sample_is_read_only (strategy_arg : option string) (d : draws)
    (self : LevelSampler) :
  effective_strategy strategy_arg self <> "sequential" ->
  score_transform (config self) <> "max" ->
  (staleness_coef (config self) <= 0)%Qc ->
  final (sample strategy_arg d self) = self.
Proof.
  intros Hseq Hmax Hcoef. apply Qcltb_false in Hcoef.
  destruct (String.eqb_spec (effective_strategy strategy_arg self) "random")
    as [E1|E1].
  { unfold sample. rewrite bind_run. cbn [gets value final calls].
    fold (effective_strategy strategy_arg self). rewrite E1.
    change ("random" =? "random") with true. cbn match. run_monad.
    destruct (choice_uniform _ _) as [idx|e]; cbn; [|reflexivity].
    destruct (index (seeds self) idx) as [sd|e]; reflexivity. }
  rewrite (sample_score_driven _ _ _ (conj E1 Hseq)).
  assert (Hreplay : final (_sample_replay_level d self) = self).
  { unfold _sample_replay_level. rewrite bind_run.
    cbn [enter value final calls]. rewrite bind_run.
    pose proof (sample_weights_read_only d self Hmax Hcoef) as H.
    unfold holds, read_only in H.
    destruct (value (sample_weights d self)) as [w|e];
      cbn [value final calls]; [|exact H].
    cbv zeta. rewrite H. by apply draw_tail_read_only. }
  assert (Hunseen : final (_sample_unseen_level d self) = self).
  { unfold _sample_unseen_level. rewrite bind_run.
    cbn [enter value final calls]. rewrite bind_run.
    cbn [gets value final calls]. cbv zeta. by apply draw_tail_read_only. }
  destruct (replay_schedule (config self) =? "fixed").
  - destruct (replay_fixed self d); assumption.
  - destruct (replay_proportionate self d); assumption.
Qed.

(** The sampling state is left alone: staleness and cursor are as before
    and only ledger methods are entered. *)
Definition sampling_frame : rel :=
  both (keeps seed_staleness)
    (both (keeps next_seed_index) (logs is_ledger_call)).

#[global] Instance sampling_frame_sequential : Sequential sampling_frame.
Proof. unfold sampling_frame. typeclasses eauto. Qed.

Ltac solve_sampling_frame :=
  unfold sampling_frame, both, keeps, logs; repeat split; try reflexivity;
  repeat constructor.

Ltac sampling_walk :=
  respects_walk; try (frame_leaf; solve_sampling_frame).

Lemma _partial_update_seed_score_sampling (a i : nat) (sc : fnum) (n : Z)
    (done : bool) :
  respects sampling_frame (_partial_update_seed_score a i sc n done).
Proof. unfold _partial_update_seed_score. sampling_walk. Qed.

Lemma update_seed_score_sampling (a i : nat) (sc : fnum) (n : Z) :
  respects sampling_frame (update_seed_score a i sc n).
Proof.
  unfold update_seed_score. sampling_walk.
  apply _partial_update_seed_score_sampling.
Qed.

Lemma after_update_sampling : respects sampling_frame after_update.
Proof.
  unfold after_update, after_update_seed. sampling_walk.
  apply update_seed_score_sampling.
Qed.

Lemma done_loop_sampling (score_function : kwargs -> result fnum)
    (rollouts : RolloutStorage) (total_steps a : nat) (done_steps : list nat) :
  forall start_t,
    respects sampling_frame
      (done_loop score_function rollouts total_steps a done_steps start_t).
Proof.
  induction done_steps as [|t done_steps IH]; intros start_t;
    cbn [done_loop]; unfold seed_index_at, segment_kwargs; sampling_walk;
    try apply IH.
  apply update_seed_score_sampling.
Qed.

Lemma update_with_rollouts_sampling (rollouts : RolloutStorage) :
  respects sampling_frame (update_with_rollouts rollouts).
Proof.
  unfold update_with_rollouts, _update_with_rollouts.
  sampling_walk; unfold update_actor, seed_index_at, segment_kwargs;
    sampling_walk;
    try apply done_loop_sampling; apply _partial_update_seed_score_sampling.
Qed.

(** X15. The two ledger operations never touch the sampling state:
    [update_with_rollouts] and [after_update], returning or raising, leave
    the staleness array and the sequential cursor as they were, and enter
    nothing but [update_seed_score] and [_partial_update_seed_score]. *)
Theorem ledger_operations_leave_sampling_state (rollouts : RolloutStorage)
    (self : LevelSampler) :
  (seed_staleness (final (update_with_rollouts rollouts self))
   = seed_staleness self
   /\ next_seed_index (final (update_with_rollouts rollouts self))
      = next_seed_index self
   /\ Forall is_ledger_call (calls (update_with_rollouts rollouts self)))
  /\ (seed_staleness (final (after_update self)) = seed_staleness self
      /\ next_seed_index (final (after_update self)) = next_seed_index self
      /\ Forall is_ledger_call (calls (after_update self))).
Proof.
  split.
  - exact (update_with_rollouts_sampling rollouts self).
  - exact (after_update_sampling self).
Qed.
(** ** The shape of the arrays *)

(** The [shape] of each of the five arrays. *)
Definition dims (self : LevelSampler)
  : nat * nat * nat * list nat * list nat :=
  (length (unseen_seed_weights self), length (seed_scores self),
   length (seed_staleness self),
   map length (partial_seed_scores self),
   map length (partial_seed_steps self)).

Lemma store_length {A : Type} (l l' : list A) (i : nat) (x : A) :
  store l i x = Ok l' -> length l' = length l.
Proof. intros H. apply store_Ok in H as [_ ->]. apply length_insert. Qed.

Lemma store2_shape {A : Type} (m m' : list (list A)) (i j : nat) (x : A) :
  store2 m i j x = Ok m' -> map length m' = map length m.
Proof.
  unfold store2, index. destruct (m !! i) as [row|] eqn:E; cbn; [|discriminate].
  destruct (store row j x) as [row'|] eqn:E'; cbn; [|discriminate].
  intros H. apply store_Ok in H as [_ ->]. apply store_length in E'.
  rewrite list_fmap_insert, E'. apply list_insert_id.
  by rewrite list_lookup_fmap, E.
Qed.

Lemma fill_shape {A : Type} (x : A) (m : list (list A)) :
  map length (fill x m) = map length m.
Proof.
  unfold fill. rewrite map_map. apply map_ext. intros row. apply length_map.
Qed.

Lemma masked_fill_length (a : list fnum) (mask : list bool) (x : fnum)
    (a' : list fnum) :
  masked_fill a mask x = Ok a' -> length a' = length a.
Proof.
  unfold masked_fill. destruct (decide (length mask = length a)) as [E|E];
    [|discriminate].
  intros [= <-]. rewrite length_zip_with. lia.
Qed.

Ltac dims_leaf :=
  match goal with
  | |- respects _ (modify _) =>
      apply respects_modify; intros ?; unfold keeps, dims; cbn;
      rewrite ?length_map, ?fill_shape; reflexivity
  | |- respects _ (updates _) =>
      apply respects_updates; [typeclasses eauto|];
      let s := fresh "s" in let s' := fresh "s'" in let E := fresh "E" in
      let Es := fresh "Es" in
      intros s s' E;
      match type of E with
      | context [store2 ?m ?i ?j ?x] =>
          destruct (store2 m i j x) eqn:Es; cbn in E; [|discriminate];
          apply store2_shape in Es
      | context [store ?m ?i ?x] =>
          destruct (store m i x) eqn:Es; cbn in E; [|discriminate];
          apply store_length in Es
      end;
      injection E as <-; unfold keeps, dims; cbn;
      rewrite ?length_map in *; congruence
  | |- respects _ (enter _) => apply respects_enter; intros ?; reflexivity
  end.

Ltac dims_walk := respects_walk; try dims_leaf.

Lemma _partial_update_seed_score_dims (a i : nat) (sc : fnum) (n : Z)
    (done : bool) :
  respects (keeps dims) (_partial_update_seed_score a i sc n done).
Proof. unfold _partial_update_seed_score. dims_walk. Qed.

Lemma update_seed_score_dims (a i : nat) (sc : fnum) (n : Z) :
  respects (keeps dims) (update_seed_score a i sc n).
Proof.
  unfold update_seed_score. dims_walk.
  apply _partial_update_seed_score_dims.
Qed.

Lemma after_update_dims : respects (keeps dims) after_update.
Proof.
  unfold after_update, after_update_seed. dims_walk.
  apply update_seed_score_dims.
Qed.

Lemma done_loop_dims (score_function : kwargs -> result fnum)
    (rollouts : RolloutStorage) (total_steps a : nat) (done_steps : list nat) :
  forall start_t,
    respects (keeps dims)
      (done_loop score_function rollouts total_steps a done_steps start_t).
Proof.
  induction done_steps as [|t done_steps IH]; intros start_t;
    cbn [done_loop]; unfold seed_index_at, segment_kwargs; dims_walk;
    try apply IH.
  apply update_seed_score_dims.
Qed.

Lemma update_with_rollouts_dims (rollouts : RolloutStorage) :
  respects (keeps dims) (update_with_rollouts rollouts).
Proof.
  unfold update_with_rollouts, _update_with_rollouts.
  dims_walk; unfold update_actor, seed_index_at, segment_kwargs;
    dims_walk;
    try apply done_loop_dims; apply _partial_update_seed_score_dims.
Qed.

Lemma _update_staleness_dims (idx : nat) :
  respects (keeps dims) (_update_staleness idx).
Proof. unfold _update_staleness. dims_walk. Qed.

(** The masked assignment of the 'max' branch writes an array of the size
    of the one it read. *)
Lemma _score_transform_dims (transform : string) (temp : Qc)
    (scores : array_ref) (tie : nat) :
  respects (keeps dims) (_score_transform transform temp scores tie).
Proof.
  intros self. change (holds (keeps dims)
                         (_score_transform transform temp scores tie) self).
  unfold _score_transform. apply holds_gets_bind. cbv zeta.
  destruct (transform =? "max").
  - apply holds_gets_bind.
    apply holds_bind; [typeclasses eauto| |intros s' Hs'].
    { apply holds_respects, respects_lift. typeclasses eauto. }
    cbn [lift value final] in Hs' |- *. apply masked_fill_length in Hs'.
    apply holds_bind; [typeclasses eauto| |intros _ _].
    { unfold holds, keeps, dims. cbn [modify final calls value].
      destruct scores; cbn in Hs' |- *; by rewrite Hs'. }
    apply holds_respects. respects_walk.
  - apply holds_respects. respects_walk.
Qed.

Lemma sample_dims (strategy_arg : option string) (d : draws) :
  respects (keeps dims) (sample strategy_arg d).
Proof.
  unfold sample, _sample_replay_level, _sample_unseen_level, sample_weights,
    mask_unseen.
  dims_walk; try apply _score_transform_dims; apply _update_staleness_dims.
Qed.

Lemma run_dims (op : operation) : respects (keeps dims) (run op).
Proof.
  destruct op; cbn [run].
  - apply update_with_rollouts_dims.
  - apply after_update_dims.
  - respects_walk. apply sample_dims.
Qed.

Lemma dims_shaped (W N : nat) (self : LevelSampler) :
  dims self = (N, N, N, replicate W N, replicate W N) ->
  shaped W N self /\ length (seed_staleness self) = N.
Proof.
  unfold dims. intros [= L1 L2 L3 L4 L5].
  assert (H : forall {A : Type} (m : list (list A)),
             map length m = replicate W N ->
             length m = W /\ Forall (fun row => length row = N) m).
  { intros A m E. split.
    - apply (f_equal length) in E. by rewrite length_map, length_replicate in E.
    - apply Forall_lookup. intros k row Hk.
      assert (E' : map length m !! k = Some (length row))
        by (by rewrite list_lookup_fmap, Hk).
      rewrite E in E'. by apply lookup_replicate in E' as [-> _]. }
  destruct (H _ _ L4) as [? ?]. destruct (H _ _ L5) as [? ?].
  by repeat split.
Qed.

Lemma reachable_dims (s : LevelSampler) (l : list call) :
  reachable s l ->
  exists W, dims s = (length (seeds s), length (seeds s), length (seeds s),
                      replicate W (length (seeds s)),
                      replicate W (length (seeds s))).
Proof.
  induction 1 as [pool n c|s l op Hr [W IH] Hok].
  - exists n. unfold dims. cbn.
    by rewrite !length_replicate, !fmap_replicate, !length_replicate.
  - exists W. pose proof (run_static op s) as (_ & Hseeds & _).
    unfold keeps in Hseeds. rewrite Hseeds.
    pose proof (run_dims op s) as Hd. unfold keeps in Hd. by rewrite Hd.
Qed.


(** ** The sequential cursor *)

Lemma _sample_level_cursor (d : draws) :
  respects (keeps next_seed_index) (_sample_replay_level d)
  /\ respects (keeps next_seed_index) (_sample_unseen_level d).
Proof.
  assert (Hst : forall idx,
             respects (keeps next_seed_index) (_update_staleness idx)).
  { intros idx. unfold _update_staleness.
    respects_walk; frame_leaf; reflexivity. }
  split.
  - unfold _sample_replay_level. respects_walk.
    + frame_leaf. reflexivity.
    + eapply respects_weaken; [|apply sample_weights_frame].
      unfold weights_frame, both. tauto.
    + apply Hst.
  - unfold _sample_unseen_level. respects_walk.
    + frame_leaf. reflexivity.
    + apply Hst.
Qed.

(** One call of [sample] leaves the cursor where it was or advances it by
    one position, modulo the size of the pool. *)
Lemma sample_cursor (strategy_arg : option string) (d : draws)
    (self : LevelSampler) :
  next_seed_index (final (sample strategy_arg d self)) = next_seed_index self
  \/ (length (seeds self) <> 0
      /\ next_seed_index (final (sample strategy_arg d self))
         = (next_seed_index self + 1) mod length (seeds self)).
Proof.
  destruct (String.eqb_spec (effective_strategy strategy_arg self) "random")
    as [E1|E1].
  { left. unfold sample. rewrite bind_run. cbn [gets value final calls].
    fold (effective_strategy strategy_arg self). rewrite E1.
    change ("random" =? "random") with true. cbn match. run_monad.
    destruct (choice_uniform _ _) as [idx|e]; cbn; [|reflexivity].
    destruct (index (seeds self) idx) as [sd|e]; reflexivity. }
  destruct (String.eqb_spec (effective_strategy strategy_arg self) "sequential")
    as [E2|E2].
  { unfold sample. rewrite bind_run. cbn [gets value final calls].
    fold (effective_strategy strategy_arg self). rewrite E2.
    change ("sequential" =? "random") with false.
    change ("sequential" =? "sequential") with true. cbn match. run_monad.
    destruct (decide (length (seeds self) = 0)) as [E|E]; cbn; [by left|].
    right. split; [exact E|].
    destruct (index (seeds self) (next_seed_index self)); reflexivity. }
  left. rewrite (sample_score_driven _ _ _ (conj E1 E2)).
  destruct (_sample_level_cursor d) as [Hr Hu].
  destruct (replay_schedule (config self) =? "fixed").
  - destruct (replay_fixed self d); [apply Hr|apply Hu].
  - destruct (replay_proportionate self d); [apply Hr|apply Hu].
Qed.

Lemma run_sample_final (strategy_arg : option string) (d : draws)
    (self : LevelSampler) :
  final ((sample strategy_arg d;; mret tt) self)
  = final (sample strategy_arg d self).
Proof.
  rewrite bind_run. by destruct (value (sample strategy_arg d self)).
Qed.

Lemma reachable_cursor (s : LevelSampler) (l : list call) :
  reachable s l -> seeds s <> [] -> next_seed_index s < length (seeds s).
Proof.
  induction 1 as [pool n c|s l op Hr IH Hok].
  - cbn. intros H. destruct pool; [done|cbn; lia].
  - pose proof (run_static op s) as (_ & Hseeds & _).
    unfold keeps in Hseeds. rewrite Hseeds. intros Hne.
    specialize (IH Hne). destruct op as [rollouts| |arg d]; cbn [run].
    + destruct (update_with_rollouts_sampling rollouts s) as (_ & Hc & _).
      unfold keeps in Hc. by rewrite Hc.
    + destruct (after_update_sampling s) as (_ & Hc & _).
      unfold keeps in Hc. by rewrite Hc.
    + rewrite run_sample_final.
      destruct (sample_cursor arg d s) as [->|[Hn ->]]; [done|].
      by apply Nat.mod_upper_bound.
Qed.

(** X17. The sequential cursor never leaves the pool: in every state
    reached from the constructor, on a non-empty pool, [next_seed_index] is
    a valid index of [seeds], however the operations were interleaved.  A
    'sequential' [sample] therefore never raises there: it returns the seed
    under the cursor and advances the cursor by one, wrapping around. *)
Theorem sequential_cursor_in_range (s : LevelSampler) (l : list call)
    (strategy_arg : option string) (d : draws) :
  reachable s l ->
  seeds s <> [] ->
  next_seed_index s < length (seeds s)
  /\ (effective_strategy strategy_arg s = "sequential" ->
      exists seed,
        seeds s !! next_seed_index s = Some seed
        /\ sample strategy_arg d s
           = Outcome (set_next_seed_index
                        ((next_seed_index s + 1) mod length (seeds s)) s)
                     [] (Ok seed)).
Proof.
  intros Hr Hne. pose proof (reachable_cursor s l Hr Hne) as Hc.
  split; [exact Hc|]. intros Hs.
  destruct (lookup_lt_is_Some_2 _ _ Hc) as [seed Hseed].
  exists seed. split; [exact Hseed|].
  by apply sample_sequential_step.
Qed.
(** ** Where the level samplers draw from *)

(** Linear arithmetic on canonical rationals, through the rationals. *)
Lemma Qc_this_plus (x y : Qc) : (this (x + y)%Qc == this x + this y)%Q.
Proof. exact (Qred_correct (this x + this y)). Qed.

Lemma Qc_this_opp (x : Qc) : (this (- x)%Qc == - this x)%Q.
Proof. exact (Qred_correct (- this x)). Qed.

Lemma Qc_this_minus (x y : Qc) : (this (x - y)%Qc == this x - this y)%Q.
Proof. unfold Qcminus. rewrite Qc_this_plus, Qc_this_opp. reflexivity. Qed.

Lemma Qc_this_mult (x y : Qc) : (this (x * y)%Qc == this x * this y)%Q.
Proof. exact (Qred_correct (this x * this y)). Qed.

Lemma Qc_this_Q2Qc (q : Q) : (this (Q2Qc q) == q)%Q.
Proof. exact (Qred_correct q). Qed.

Ltac qc_lra :=
  unfold Qcle, Qclt in *;
  repeat (rewrite Qc_this_plus in * || rewrite Qc_this_opp in *
          || rewrite Qc_this_minus in * || rewrite Qc_this_mult in *
          || rewrite Qc_this_Q2Qc in * );
  lra.

Lemma Qclt_nonzero (x : Qc) : (0 < x)%Qc -> x <> 0%Qc.
Proof. intros H E. rewrite E in H. exact (Qclt_not_eq _ _ H eq_refl). Qed.

Lemma Qcdiv_le_iff (x u z : Qc) :
  (0 < z)%Qc -> (x / z <= u)%Qc <-> (x <= u * z)%Qc.
Proof.
  intros Hz. pose proof (Qclt_nonzero z Hz) as Hz'. split; intros H.
  - replace x with (x / z * z)%Qc by (field; exact Hz').
    apply Qcmult_le_compat_r; [exact H|by apply Qclt_le_weak].
  - apply (Qcmult_lt_0_le_reg_r _ _ z Hz).
    replace (x / z * z)%Qc with x by (field; exact Hz'). exact H.
Qed.

Lemma Qcdiv_pos_iff (x z : Qc) :
  (0 < z)%Qc -> (0 < x / z)%Qc <-> (0 < x)%Qc.
Proof.
  intros Hz. pose proof (Qclt_nonzero z Hz) as Hz'. split; intros H.
  - apply Qcnot_le_lt. intros Hx.
    assert (H' : (x / z <= 0)%Qc).
    { apply Qcdiv_le_iff; [exact Hz|]. replace (0 * z)%Qc with 0%Qc by ring.
      exact Hx. }
    exact (Qclt_not_le _ _ H H').
  - apply Qcnot_le_lt. intros Hx. apply Qcdiv_le_iff in Hx; [|exact Hz].
    replace (0 * z)%Qc with 0%Qc in Hx by ring.
    exact (Qclt_not_le _ _ H Hx).
Qed.

Lemma fle_finite (a b : Qc) : fle (Fin a) (Fin b) = true <-> (a <= b)%Qc.
Proof. exact (fge_finite b a). Qed.

Lemma fold_Qcplus_ge (qs : list Qc) :
  Forall (fun q => (0 <= q)%Qc) qs ->
  forall a, (a <= fold_left Qcplus qs a)%Qc.
Proof.
  induction 1 as [|q qs Hq _ IH]; intros a; cbn [fold_left].
  - apply Qcle_refl.
  - specialize (IH (a + q)%Qc). qc_lra.
Qed.

Lemma fold_Qcplus_ge_item (qs : list Qc) (j : nat) (x : Qc) :
  Forall (fun q => (0 <= q)%Qc) qs -> qs !! j = Some x ->
  forall a, (a + x <= fold_left Qcplus qs a)%Qc.
Proof.
  intros F. revert j. induction F as [|q qs Hq F IH]; intros j Hj a.
  - by rewrite lookup_nil in Hj.
  - cbn [fold_left]. destruct j as [|j]; cbn in Hj.
    + injection Hj as ->. apply fold_Qcplus_ge. exact F.
    + specialize (IH j Hj (a + q)%Qc). qc_lra.
Qed.

(** The entries of a cumulative sum that lie above the sample are not
    counted. *)
Lemma cdf_count_above (z u : Qc) (qs : list Qc) :
  (0 < z)%Qc -> Forall (fun q => (0 <= q)%Qc) qs ->
  forall acc, (u * z < acc)%Qc ->
    filter (fun c => fle c (Fin u) = true)
           (map (fun c => fdiv c (Fin z)) (cumsum_from (Fin acc) (map Fin qs)))
    = [].
Proof.
  intros Hz F. pose proof (Qclt_nonzero z Hz) as Hz'.
  induction F as [|q qs Hq _ IH]; intros acc Hacc; [done|].
  cbn [map cumsum_from fadd]. rewrite fdiv_finite by exact Hz'.
  rewrite filter_cons_False.
  - apply IH. qc_lra.
  - rewrite fle_finite, Qcdiv_le_iff by exact Hz. intros H. qc_lra.
Qed.

(** Inverse-CDF search lands on an entry of positive weight. *)
Lemma cdf_count_support (z u : Qc) (qs : list Qc) :
  (0 < z)%Qc -> Forall (fun q => (0 <= q)%Qc) qs ->
  forall acc, (acc <= u * z)%Qc -> (u * z < fold_left Qcplus qs acc)%Qc ->
    exists q,
      qs !! length (filter (fun c => fle c (Fin u) = true)
                      (map (fun c => fdiv c (Fin z))
                           (cumsum_from (Fin acc) (map Fin qs))))
      = Some q
      /\ (0 < q)%Qc.
Proof.
  intros Hz F. pose proof (Qclt_nonzero z Hz) as Hz'.
  induction F as [|q qs Hq F IH]; intros acc Hlo Hhi.
  - cbn in Hhi. qc_lra.
  - cbn [map cumsum_from fadd fold_left] in *.
    rewrite fdiv_finite by exact Hz'.
    destruct (Qclt_le_dec (u * z) (acc + q)) as [Hgt|Hle].
    + rewrite filter_cons_False.
      2: { rewrite fle_finite, Qcdiv_le_iff by exact Hz. intros H. qc_lra. }
      rewrite (cdf_count_above z u qs Hz F) by exact Hgt.
      exists q. split; [reflexivity|]. qc_lra.
    + rewrite filter_cons_True
        by (rewrite fle_finite, Qcdiv_le_iff by exact Hz; exact Hle).
      cbn [length]. destruct (IH (acc + q)%Qc Hle Hhi) as (q' & Hq' & Hpos).
      exists q'. split; [exact Hq'|exact Hpos].
Qed.

Lemma fold_fadd_finite (l : list fnum) :
  forall acc s, fold_left fadd l acc = Fin s ->
    is_finite acc = true /\ all_finite l.
Proof.
  induction l as [|x l IH]; intros acc s H; cbn [fold_left] in H.
  - rewrite H. split; [reflexivity|constructor].
  - destruct (IH _ _ H) as [Hacc Hl].
    destruct acc as [a| | |], x as [b| | |]; try discriminate.
    split; [reflexivity|]. by constructor.
Qed.

Lemma last_cumsum (qs : list Qc) :
  qs <> [] ->
  forall acc,
    List.last (cumsum_from (Fin acc) (map Fin qs)) NaN
    = Fin (fold_left Qcplus qs acc).
Proof.
  induction qs as [|q qs IH]; intros Hne acc; [done|].
  cbn [map cumsum_from fadd fold_left].
  destruct qs as [|q' qs]; [reflexivity|].
  rewrite <- (IH ltac:(done) (acc + q)%Qc). reflexivity.
Qed.

(** What [np.random.choice] accepts as [p]: finite, non-negative entries
    whose sum is within the tolerance of 1. *)
Lemma choice_p_valid (n : nat) (p : list fnum) (u : Qc) (k : nat) :
  choice_p n p u = Ok k ->
  exists qs,
    p = map Fin qs /\ qs <> [] /\ length qs = n
    /\ Forall (fun q => (0 <= q)%Qc) qs
    /\ (0 < Qcsum qs)%Qc
    /\ k = searchsorted_right
             (map (fun c => fdiv c (Fin (Qcsum qs)))
                  (cumsum_from (Fin 0%Qc) (map Fin qs)))
             (Fin u).
Proof.
  unfold choice_p. destruct (decide (n = 0)) as [|Hn]; [discriminate|].
  destruct (decide (length p = n)) as [Hlen|]; [|discriminate].
  destruct (isnan (fsum p)) eqn:Enan; [discriminate|].
  destruct (existsb (fun x => flt x f0) p) eqn:Eneg; [discriminate|].
  destruct (fgt (fabs (fsub (fsum p) f1)) (Fin choice_atol)) eqn:Etol;
    [discriminate|].
  intros [= <-].
  destruct (fsum p) as [s| | |] eqn:Es; try discriminate.
  destruct (fold_fadd_finite p f0 s Es) as [_ Hfin].
  destruct (all_finite_Fin p Hfin) as [qs ->].
  rewrite length_map in Hlen. rewrite fsum_Fin in Es. injection Es as Es.
  assert (Hne : qs <> []) by (intros ->; cbn in Hlen; lia).
  assert (Hpos : Forall (fun q => (0 <= q)%Qc) qs).
  { apply Forall_forall. intros q Hq.
    apply Qcltb_false.
    destruct (Qcltb q 0) eqn:E; [|reflexivity].
    assert (Hex : existsb (fun x => flt x f0) (map Fin qs) = true).
    { apply existsb_exists. exists (Fin q). split; [|exact E].
      apply in_map. by apply list_elem_of_In. }
    congruence. }
  assert (Hs : (0 < s)%Qc).
  { unfold fgt, fsub, f1 in Etol. cbn [fneg fadd fabs flt] in Etol.
    apply Qcltb_false in Etol. unfold choice_atol in Etol.
    destruct (Qcltb (s + - 1) 0) eqn:E.
    - apply Qcltb_true in E. qc_lra.
    - apply Qcltb_false in E. qc_lra. }
  subst s. exists qs. repeat split; try done.
  unfold cumsum, f0. cbv zeta. by rewrite (last_cumsum qs Hne).
Qed.

Lemma choice_p_support (n : nat) (p : list fnum) (u : Qc) (k : nat) :
  (0 <= u)%Qc -> (u < 1)%Qc -> choice_p n p u = Ok k ->
  k < n /\ exists q, p !! k = Some (Fin q) /\ (0 < q)%Qc.
Proof.
  intros Hu0 Hu1 H.
  destruct (choice_p_valid n p u k H) as (qs & -> & Hne & Hlen & F & Hs & ->).
  unfold searchsorted_right.
  destruct (cdf_count_support (Qcsum qs) u qs Hs F 0%Qc) as (q & Hq & Hpos).
  - assert (H0 : (0 * Qcsum qs <= u * Qcsum qs)%Qc)
      by (apply Qcmult_le_compat_r; [exact Hu0|by apply Qclt_le_weak]).
    by replace (0 * Qcsum qs)%Qc with 0%Qc in H0 by ring.
  - assert (H1 : (u * Qcsum qs < 1 * Qcsum qs)%Qc)
      by (by apply Qcmult_lt_compat_r).
    by replace (1 * Qcsum qs)%Qc with (Qcsum qs) in H1 by ring.
  - split.
    + apply lookup_lt_Some in Hq. lia.
    + exists q. split; [|exact Hpos]. by rewrite list_lookup_fmap, Hq.
Qed.

(** An unseen flag as the code writes it: 1.0 at construction, 0.0 once
    cleared. *)
Definition is_flag (u : fnum) : Prop := u = f0 \/ u = f1.

Lemma flags_Fin (l : list fnum) :
  Forall is_flag l ->
  exists us, l = map Fin us /\ Forall (fun q => q = 0%Qc \/ q = 1%Qc) us.
Proof.
  induction 1 as [|x l Hx _ (us & -> & Hus)].
  - by exists [].
  - destruct Hx as [-> | ->].
    + exists (0%Qc :: us). split; [reflexivity|]. constructor; [by left|done].
    + exists (1%Qc :: us). split; [reflexivity|]. constructor; [by right|done].
Qed.

Lemma fold_fadd_NaN (l : list fnum) : fold_left fadd l NaN = NaN.
Proof. induction l as [|x l IH]; [done|]. exact IH. Qed.

Lemma fsum_zeros (l : list fnum) : Forall (fun x => x = f0) l -> fsum l = f0.
Proof.
  unfold fsum. induction 1 as [|x l -> _ IH]; [reflexivity|].
  cbn [fold_left].
  assert (E : fadd f0 f0 = f0)
    by (apply (bool_decide_unpack _); vm_compute; exact I).
  by rewrite E.
Qed.

Lemma existsb_false_Forall {A : Type} (f : A -> bool) (l : list A) :
  Forall (fun x => f x = false) l -> existsb f l = false.
Proof.
  induction 1 as [|x l Hx _ IH]; [done|]. cbn. by rewrite Hx, IH.
Qed.

(** A vector of finite, non-negative entries that sums to exactly 1 is
    accepted by [np.random.choice]. *)
Lemma choice_p_accepts (n : nat) (p : list fnum) (u : Qc) :
  n <> 0 -> length p = n -> fsum p = f1 ->
  Forall (fun x => flt x f0 = false) p ->
  exists k, choice_p n p u = Ok k.
Proof.
  intros Hn Hlen Hsum Hpos. unfold choice_p.
  rewrite decide_False by exact Hn. rewrite decide_True by exact Hlen.
  rewrite Hsum. rewrite (existsb_false_Forall _ _ Hpos).
  cbn [isnan].
  assert (E : fgt (fabs (fsub f1 f1)) (Fin choice_atol) = false)
    by (vm_compute; reflexivity).
  rewrite E. eauto.
Qed.

(** The common tail of the two level samplers returns the seed at the drawn
    index when the staleness array covers it. *)
Lemma draw_tail_ok (p : list fnum) (u : Qc) (st : LevelSampler) (k : nat)
    (seed : Z) :
  choice_p (length (seeds st)) p u = Ok k ->
  seeds st !! k = Some seed ->
  k < length (seed_staleness st) ->
  value ((n ← gets (fun self => length (seeds self));
          seed_idx ← lift (choice_p n p u);
          seed ← reads (fun self => index (seeds self) seed_idx);
          _update_staleness seed_idx;;
          mret seed) st) = Ok seed.
Proof.
  intros Hk Hseed Hst. unfold _update_staleness. run_monad.
  rewrite Hk. cbn. unfold index. rewrite Hseed. cbn.
  destruct (Qcltb 0 (staleness_coef (config st))); cbn; [|reflexivity].
  unfold store. rewrite decide_True by (by rewrite length_map).
  reflexivity.
Qed.

(** What [_sample_unseen_level] draws, on flags that are 0 or 1. *)
Lemma _sample_unseen_level_draw (d : draws) (self : LevelSampler) :
  Forall is_flag (unseen_seed_weights self) ->
  length (unseen_seed_weights self) = length (seeds self) ->
  length (seed_staleness self) = length (seeds self) ->
  (0 <= choice_sample d)%Qc -> (choice_sample d < 1)%Qc ->
  ((exists j, unseen_seed_weights self !! j = Some f1) ->
     exists idx seed,
       value (_sample_unseen_level d self) = Ok seed
       /\ seeds self !! idx = Some seed
       /\ unseen_seed_weights self !! idx = Some f1)
  /\ ((forall j, unseen_seed_weights self !! j <> Some f1) ->
      value (_sample_unseen_level d self) = Raise ValueError).
Proof.
  intros Hflags Hlen Hstale Hu0 Hu1.
  assert (Hrun : value (_sample_unseen_level d self)
                 = value ((n ← gets (fun self => length (seeds self));
                           seed_idx ← lift (choice_p n
                             (map (fun u => fdiv u (fsum (unseen_seed_weights self)))
                                  (unseen_seed_weights self))
                             (choice_sample d));
                           seed ← reads (fun self => index (seeds self) seed_idx);
                           _update_staleness seed_idx;;
                           mret seed) self)).
  { unfold _sample_unseen_level. rewrite bind_run.
    cbn [enter value final calls]. rewrite bind_run.
    cbn [gets value final calls]. reflexivity. }
  rewrite Hrun. clear Hrun.
  set (p := map (fun u => fdiv u (fsum (unseen_seed_weights self)))
                (unseen_seed_weights self)).
  destruct (flags_Fin _ Hflags) as (us & Eus & Hus).
  assert (Hnn : Forall (fun q => (0 <= q)%Qc) us).
  { eapply Forall_impl; [exact Hus|]. intros q [-> | ->]; by vm_compute. }
  split.
  - intros [j Hj].
    assert (Hm : (0 < Qcsum us)%Qc).
    { rewrite Eus, list_lookup_fmap in Hj.
      destruct (us !! j) as [x|] eqn:Ex; [|discriminate].
      injection Hj as ->.
      pose proof (fold_Qcplus_ge_item us j 1%Qc Hnn Ex 0%Qc) as H.
      unfold Qcsum. qc_lra. }
    assert (Hgt : fgt (fsum (unseen_seed_weights self)) f0 = true).
    { rewrite Eus, fsum_Fin. by apply Qcltb_true. }
    assert (Hfin : all_finite (unseen_seed_weights self)).
    { rewrite Eus. unfold all_finite. rewrite Forall_fmap. by apply Forall_true. }
    assert (Ep : p = normalize (unseen_seed_weights self)).
    { unfold normalize. cbv zeta. by rewrite Hgt. }
    destruct (normalize_positive _ Hfin Hgt) as (_ & Hsum & Hlp).
    rewrite <- Ep in Hsum, Hlp.
    assert (Hn : length (seeds self) <> 0).
    { apply lookup_lt_Some in Hj. lia. }
    assert (Hpos : Forall (fun x => flt x f0 = false) p).
    { subst p. rewrite Eus, fsum_Fin, Forall_fmap, Forall_fmap.
      eapply Forall_impl; [exact Hus|]. intros q Hq. cbn [compose].
      rewrite fdiv_finite by (by apply Qclt_nonzero).
      cbn [flt f0]. apply Qcltb_false.
      destruct Hq as [-> | ->].
      - replace (0 / Qcsum us)%Qc with 0%Qc
          by (field; by apply Qclt_nonzero).
        apply Qcle_refl.
      - apply Qclt_le_weak. apply Qcdiv_pos_iff; [exact Hm|by vm_compute]. }
    destruct (choice_p_accepts (length (seeds self)) p (choice_sample d) Hn
                ltac:(congruence) Hsum Hpos) as [k Hk].
    destruct (choice_p_support _ _ _ _ Hu0 Hu1 Hk) as (Hkn & q & Hq & Hqpos).
    destruct (lookup_lt_is_Some_2 (seeds self) k Hkn) as [seed Hseed].
    exists k, seed. split; [|split; [exact Hseed|]].
    + apply (draw_tail_ok _ _ _ k); [exact Hk|exact Hseed|lia].
    + subst p. rewrite list_lookup_fmap in Hq.
      destruct (unseen_seed_weights self !! k) as [x|] eqn:Ex; [|discriminate].
      cbn in Hq. rewrite Forall_lookup in Hflags.
      destruct (Hflags k x Ex) as [-> | ->]; [|reflexivity].
      exfalso. rewrite Eus, fsum_Fin in Hq. unfold f0 in Hq.
      rewrite fdiv_finite in Hq by (by apply Qclt_nonzero).
      injection Hq as <-.
      replace (0 / Qcsum us)%Qc with 0%Qc in Hqpos
        by (field; by apply Qclt_nonzero).
      exact (Qclt_not_eq _ _ Hqpos eq_refl).
  - intros Hnone.
    assert (Hzero : Forall (fun x => x = f0) (unseen_seed_weights self)).
    { apply Forall_lookup. intros k x Hk. rewrite Forall_lookup in Hflags.
      destruct (Hflags k x Hk) as [-> | ->]; [reflexivity|].
      by destruct (Hnone k). }
    assert (Hsum : fsum (unseen_seed_weights self) = f0).
    { by apply fsum_zeros. }
    assert (Ep : p = map (fun _ => NaN) (unseen_seed_weights self)).
    { subst p. rewrite Hsum. apply Forall_fmap_ext_1.
      eapply Forall_impl; [exact Hzero|]. intros x ->. reflexivity. }
    assert (Hraise : choice_p (length (seeds self)) p (choice_sample d)
                     = Raise ValueError).
    { unfold choice_p.
      destruct (decide (length (seeds self) = 0)) as [|Hn]; [reflexivity|].
      destruct (decide (length p = length (seeds self))); [|reflexivity].
      assert (Hs : fsum p = NaN).
      { rewrite Ep. destruct (unseen_seed_weights self) as [|x l]; [done|].
        unfold fsum. cbn [map fold_left fadd f0]. apply fold_fadd_NaN. }
      by rewrite Hs. }
    run_monad. rewrite Hraise. reflexivity.
Qed.

(** X18. [_sample_unseen_level] draws among the unseen seeds only.  On a
    sampler whose flags are 0 or 1 and whose per-seed arrays have one entry
    per seed, with the uniform sample behind [np.random.choice] in [0, 1):
    if at least one seed is unseen the call returns a seed whose flag is 1,
    never a seed that has been seen; if no seed is unseen the probabilities
    are 0/0 and the call raises [ValueError]. *)
Theorem unseen_level_draws_unseen_seed (d : draws) (self : LevelSampler) :
  Forall is_flag (unseen_seed_weights self) ->
  length (unseen_seed_weights self) = length (seeds self) ->
  length (seed_staleness self) = length (seeds self) ->
  (0 <= choice_sample d)%Qc -> (choice_sample d < 1)%Qc ->
  ((exists j, unseen_seed_weights self !! j = Some f1) ->
     exists idx seed,
       value (_sample_unseen_level d self) = Ok seed
       /\ seeds self !! idx = Some seed
       /\ unseen_seed_weights self !! idx = Some f1)
  /\ ((forall j, unseen_seed_weights self !! j <> Some f1) ->
      value (_sample_unseen_level d self) = Raise ValueError).
Proof. exact (_sample_unseen_level_draw d self). Qed.

(** *** The length and the masked entries of the weights *)

Lemma insert_sorted_length (a : list fnum) (i : nat) (l : list nat) :
  length (insert_sorted a i l) = S (length l).
Proof.
  induction l as [|j l IH]; [done|]. cbn [insert_sorted].
  destruct (sort_le _ _); cbn [length]; by rewrite ?IH.
Qed.

Lemma argsort_length (a : list fnum) : length (argsort a) = length a.
Proof.
  unfold argsort.
  assert (H : forall (xs : list nat) (l : list nat),
             length (fold_left (fun l i => insert_sorted a i l) xs l)
             = length l + length xs).
  { induction xs as [|x xs IH]; intros l; cbn [fold_left length]; [lia|].
    rewrite IH, insert_sorted_length. lia. }
  rewrite H, length_seq. reflexivity.
Qed.

Lemma ranks_of_length (temp : list nat) : length (ranks_of temp) = length temp.
Proof.
  unfold ranks_of.
  assert (H : forall (ps : list (nat * nat)) (r : list nat),
             length (fold_left (fun ranks p => <[snd p := S (fst p)]> ranks)
                               ps r)
             = length r).
  { induction ps as [|p ps IH]; intros r; cbn [fold_left]; [done|].
    by rewrite IH, length_insert. }
  by rewrite H, length_replicate.
Qed.

(** Whatever the transform, the weights have one entry per score. *)
Lemma _score_transform_length (transform : string) (temp : Qc)
    (scores : array_ref) (tie : nat) (self : LevelSampler) (ws : list fnum) :
  value (_score_transform transform temp scores tie self) = Ok ws ->
  length ws = length (deref scores self).
Proof.
  unfold _score_transform. rewrite gets_bind_run. cbv zeta.
  destruct (transform =? "max").
  { run_monad.
    destruct (masked_fill _ _ _) as [s'|e]; cbn; [|discriminate].
    destruct (array_max s') as [m|e]; cbn; [|discriminate].
    destruct (choice_uniform _ _) as [j|e]; cbn; [|discriminate].
    destruct (store _ j f1) as [v|e] eqn:Es; cbn; [|discriminate].
    intros [= <-]. apply store_length in Es. by rewrite Es, length_map. }
  destruct (transform =? "eps_greedy").
  { run_monad.
    destruct (argmax _) as [j|e]; cbn; [|discriminate].
    destruct (store _ j _) as [v|e] eqn:Es; cbn; [|discriminate].
    destruct (decide (length (seeds self) = 0)); cbn; [discriminate|].
    intros [= <-]. apply store_length in Es.
    by rewrite length_map, Es, length_map. }
  destruct (transform =? "rank").
  { run_monad.
    destruct (py_inverse temp) as [inv|e]; cbn; [|discriminate].
    intros [= <-].
    by rewrite length_map, ranks_of_length, length_rev, argsort_length. }
  destruct (transform =? "power").
  { run_monad.
    destruct (py_inverse temp) as [inv|e]; cbn; [|discriminate].
    intros [= <-]. by rewrite length_map. }
  destruct (transform =? "softmax").
  { run_monad. intros [= <-]. by rewrite length_map. }
  destruct (transform =? "constant"); run_monad; [|discriminate].
  intros [= <-]. by rewrite length_map.
Qed.

(** A weight that cannot be drawn: zero, or not a number. *)
Definition null (x : fnum) : Prop := x = f0 \/ x = NaN.

Lemma mask_null (x : fnum) : null (fmul x (fsub f1 f1)).
Proof.
  destruct x as [q| | |].
  - left. unfold f0, f1. cbn. f_equal. ring.
  - right. vm_compute. reflexivity.
  - right. vm_compute. reflexivity.
  - right. reflexivity.
Qed.

Lemma fdiv_null (x z : fnum) : null x -> null (fdiv x z).
Proof.
  intros [-> | ->]; [|right; by destruct z].
  destruct z as [q| | |]; unfold f0; cbn.
  - destruct (Qceqb q 0) eqn:E.
    + right. assert (E0 : Qceqb 0 0 = true) by (by apply Qceqb_true).
      by rewrite E0.
    + left. f_equal. apply Qceqb_false in E. field. exact E.
  - by left.
  - by left.
  - by right.
Qed.

Lemma normalize_null (l : list fnum) (i : nat) (y : fnum) :
  normalize l !! i = Some y ->
  (forall x, l !! i = Some x -> null x) -> null y.
Proof.
  unfold normalize. cbv zeta. destruct (fgt (fsum l) f0).
  - rewrite list_lookup_fmap. destruct (l !! i) as [x|]; [|discriminate].
    intros [= <-] H. apply fdiv_null. by apply H.
  - intros Hy H. by apply H.
Qed.

Lemma normalize_length (l : list fnum) : length (normalize l) = length l.
Proof.
  unfold normalize. cbv zeta. destruct (fgt (fsum l) f0); [|done].
  apply length_map.
Qed.

Lemma combine_null (k1 k2 : Qc) (a b : fnum) :
  null a -> null b -> null (fadd (fmul (Fin k1) a) (fmul (Fin k2) b)).
Proof.
  intros [-> | ->] [-> | ->]; try (right; reflexivity).
  left. unfold f0. cbn. f_equal. ring.
Qed.

(** The masked weight of an unseen seed is null. *)
Lemma masked_weights_null (transform : string) (temp : Qc)
    (scores : array_ref) (tie : nat) (self : LevelSampler) (mw : list fnum)
    (i : nat) (y : fnum) :
  value (masked_weights transform temp scores tie self) = Ok mw ->
  length (deref scores self) = length (unseen_seed_weights self) ->
  unseen_seed_weights self !! i = Some f1 ->
  length mw = length (unseen_seed_weights self)
  /\ (mw !! i = Some y -> null y).
Proof.
  intros Hv Hlen Hi. unfold masked_weights in Hv. rewrite bind_run in Hv.
  pose proof (_score_transform_length transform temp scores tie self) as HL.
  destruct (_score_transform_frame transform temp scores tie self)
    as (_ & _ & Hu & _).
  unfold keeps in Hu. revert Hv.
  destruct (value (_score_transform transform temp scores tie self))
    as [ws|e]; cbn [value final calls]; [|discriminate].
  specialize (HL ws eq_refl). unfold mask_unseen. rewrite gets_bind_run.
  cbn [lift value]. rewrite Hu.
  rewrite elementwise_same_length by (rewrite length_map; congruence).
  intros [= <-]. split.
  - rewrite length_zip_with, length_map. lia.
  - intros Hy. apply lookup_zip_with_Some in Hy as (a & b & -> & Ha & Hb).
    rewrite list_lookup_fmap, Hi in Hb. injection Hb as <-.
    apply mask_null.
Qed.

Lemma masked_weights_final (transform : string) (temp : Qc)
    (scores : array_ref) (tie : nat) (self : LevelSampler) :
  final (masked_weights transform temp scores tie self)
  = final (_score_transform transform temp scores tie self).
Proof.
  unfold masked_weights. rewrite bind_run.
  by destruct (value (_score_transform transform temp scores tie self)).
Qed.

(** In the vector [sample_weights()] returns, the entry of an unseen seed
    is null. *)
Lemma sample_weights_null (d : draws) (self : LevelSampler) (w : list fnum)
    (i : nat) (y : fnum) :
  value (sample_weights d self) = Ok w ->
  length (seed_scores self) = length (unseen_seed_weights self) ->
  length (seed_staleness self) = length (unseen_seed_weights self) ->
  unseen_seed_weights self !! i = Some f1 ->
  w !! i = Some y -> null y.
Proof.
  intros Hv L1 L2 Hi Hy. unfold sample_weights in Hv.
  rewrite !gets_bind_run in Hv. rewrite masked_bind in Hv.
  rewrite bind_run in Hv.
  pose proof (masked_weights_null (score_transform (config self))
                (temperature (config self)) Ref_seed_scores (tie_scores d)
                self) as H1.
  pose proof (masked_weights_final (score_transform (config self))
                (temperature (config self)) Ref_seed_scores (tie_scores d)
                self) as Hf.
  destruct (_score_transform_frame (score_transform (config self))
              (temperature (config self)) Ref_seed_scores (tie_scores d) self)
    as (Hc & _ & Hu & _).
  pose proof (_score_transform_dims (score_transform (config self))
                (temperature (config self)) Ref_seed_scores (tie_scores d) self)
    as Hd.
  unfold keeps in Hc, Hu, Hd. rewrite <- Hf in Hc, Hu, Hd.
  set (o1 := masked_weights _ _ _ _ self) in *.
  revert Hv. destruct (value o1) as [mw1|e]; cbn [value final calls];
    [|discriminate].
  destruct (H1 mw1 i) with (y := y) as [Lm1 _]; [reflexivity|exact L1|exact Hi|].
  cbv zeta. rewrite gets_bind_run, Hc.
  destruct (Qcltb 0 (staleness_coef (config self))).
  - rewrite !gets_bind_run, Hc. rewrite masked_bind. rewrite bind_run.
    pose proof (masked_weights_null (staleness_transform (config self))
                  (staleness_temperature (config self)) Ref_seed_staleness
                  (tie_staleness d) (final o1)) as H2.
    destruct (value (masked_weights _ _ Ref_seed_staleness _ (final o1)))
      as [mw2|e]; cbn [value final calls]; [|discriminate].
    assert (Ls : length (seed_staleness (final o1))
                 = length (unseen_seed_weights (final o1))).
    { unfold dims in Hd. injection Hd as _ _ Hd3 _ _. rewrite Hu. congruence. }
    destruct (H2 mw2 i) with (y := y) as [Lm2 _];
      [reflexivity|exact Ls|by rewrite Hu|].
    cbv zeta. cbn [lift value].
    rewrite elementwise_same_length
      by (rewrite !length_map, !normalize_length; congruence).
    intros [= <-].
    apply lookup_zip_with_Some in Hy as (a & b & -> & Ha & Hb).
    rewrite list_lookup_fmap in Ha, Hb.
    destruct (normalize mw1 !! i) as [a'|] eqn:Ea; [|discriminate].
    destruct (normalize mw2 !! i) as [b'|] eqn:Eb; [|discriminate].
    injection Ha as <-. injection Hb as <-.
    apply combine_null.
    + apply (normalize_null mw1 i a' Ea). intros x Hx.
      by apply (H1 mw1 i x).
    + apply (normalize_null mw2 i b' Eb). intros x Hx.
      apply (H2 mw2 i x); [reflexivity|exact Ls|by rewrite Hu|exact Hx].
  - cbn [mret M_ret value]. intros [= <-].
    apply (normalize_null mw1 i y Hy). intros x Hx. by apply (H1 mw1 i x).
Qed.

Lemma draw_tail_inv (p : list fnum) (u : Qc) (st : LevelSampler) (seed : Z) :
  value ((n ← gets (fun self => length (seeds self));
          seed_idx ← lift (choice_p n p u);
          seed ← reads (fun self => index (seeds self) seed_idx);
          _update_staleness seed_idx;;
          mret seed) st) = Ok seed ->
  exists k, choice_p (length (seeds st)) p u = Ok k
            /\ seeds st !! k = Some seed.
Proof.
  unfold _update_staleness. run_monad.
  destruct (choice_p (length (seeds st)) p u) as [idx|e]; cbn; [|discriminate].
  destruct (index (seeds st) idx) as [sd|e] eqn:Ei; cbn; [|discriminate].
  apply index_Ok in Ei. intros H. exists idx. split; [reflexivity|].
  revert H. destruct (Qcltb 0 (staleness_coef (config st))); cbn.
  - destruct (store (map (fun x => fadd x f1) (seed_staleness st)) idx f0);
      cbn; [|discriminate].
    by intros [= <-].
  - by intros [= <-].
Qed.

(** What [_sample_replay_level] returns when the uniform fallback is not
    taken: a seed whose unseen flag is 0. *)
Lemma _sample_replay_level_draw (d : draws) (self : LevelSampler)
    (w : list fnum) (seed : Z) :
  Forall is_flag (unseen_seed_weights self) ->
  length (unseen_seed_weights self) = length (seeds self) ->
  length (seed_scores self) = length (seeds self) ->
  length (seed_staleness self) = length (seeds self) ->
  (0 <= choice_sample d)%Qc -> (choice_sample d < 1)%Qc ->
  value (sample_weights d self) = Ok w ->
  isclose (fsum w) f0 = false ->
  value (_sample_replay_level d self) = Ok seed ->
  exists idx,
    seeds self !! idx = Some seed
    /\ unseen_seed_weights self !! idx = Some f0.
Proof.
  intros Hflags Lu Ls Lst Hu0 Hu1 Hw Hclose Hret.
  unfold _sample_replay_level in Hret. rewrite bind_run in Hret.
  cbn [enter value final calls] in Hret. rewrite bind_run in Hret.
  rewrite Hw in Hret. cbn [value final calls] in Hret. cbv zeta in Hret.
  unfold replay_distribution in Hret. rewrite Hclose in Hret.
  destruct (sample_weights_frame d self) as (_ & Hseeds & _).
  unfold keeps in Hseeds.
  apply draw_tail_inv in Hret as (k & Hk & Hseed).
  rewrite Hseeds in Hk, Hseed.
  destruct (choice_p_support _ _ _ _ Hu0 Hu1 Hk) as (Hkn & q & Hq & Hqpos).
  exists k. split; [exact Hseed|].
  destruct (lookup_lt_is_Some_2 (unseen_seed_weights self) k) as [x Hx];
    [lia|].
  rewrite Forall_lookup in Hflags.
  destruct (Hflags k x Hx) as [-> | ->]; [exact Hx|].
  exfalso.
  destruct (sample_weights_null d self w k (Fin q) Hw ltac:(congruence)
              ltac:(congruence) Hx Hq) as [E|E]; [|discriminate].
  injection E as ->. exact (Qclt_not_eq _ _ Hqpos eq_refl).
Qed.

(** X19. [_sample_replay_level] replays seen seeds only, the uniform
    fallback apart.  On a sampler whose flags are 0 or 1 and whose per-seed
    arrays have one entry per seed, with the uniform sample behind
    [np.random.choice] in [0, 1): when the sum of [sample_weights()] is not
    close to zero (so the fallback to the uniform distribution over all
    seeds is not taken), a seed the call returns has its unseen flag at 0,
    for every transform, temperature and staleness coefficient. *)
Theorem replay_level_draws_seen_seed (d : draws) (self : LevelSampler)
    (w : list fnum) (seed : Z) :
  Forall is_flag (unseen_seed_weights self) ->
  length (unseen_seed_weights self) = length (seeds self) ->
  length (seed_scores self) = length (seeds self) ->
  length (seed_staleness self) = length (seeds self) ->
  (0 <= choice_sample d)%Qc -> (choice_sample d < 1)%Qc ->
  value (sample_weights d self) = Ok w ->
  isclose (fsum w) f0 = false ->
  value (_sample_replay_level d self) = Ok seed ->
  exists idx,
    seeds self !! idx = Some seed
    /\ unseen_seed_weights self !! idx = Some f0.
Proof. exact (_sample_replay_level_draw d self w seed). Qed.

(** ** The value-based score functions *)





Lemma N2Qc_pos (n : nat) : n <> 0 -> (0 < N2Qc n)%Qc.
Proof. intros H. apply Z2Qc_pos. lia. Qed.


(** ** The score ledger: when a seed's score is written *)

(** Every seed score is as before, except possibly the one at index [i]. *)
Definition scores_except (i : nat) : rel :=
  fun s _ _ s' => forall j, j <> i -> seed_scores s' !! j = seed_scores s !! j.

#[global] Instance scores_except_sequential (i : nat) :
  Sequential (scores_except i).
Proof.
  split; unfold scores_except.
  - reflexivity.
  - intros s l s' l' b s'' H1 H2 j Hj. rewrite H2, H1; done.
Qed.

(** A seed's score changes only if [update_seed_score] was entered for
    it. *)
Definition scores_step : rel :=
  fun s l _ s' =>
    forall i, seed_scores s' !! i = seed_scores s !! i
              \/ exists a, Call_update_seed_score a i ∈ l.

#[global] Instance scores_step_sequential : Sequential scores_step.
Proof.
  split; unfold scores_step.
  - intros s b i. by left.
  - intros s l s' l' b s'' H1 H2 i.
    destruct (H1 i) as [E1|[a Ha]]; [|right; exists a; set_solver].
    destruct (H2 i) as [E2|[a Ha]]; [|right; exists a; set_solver].
    left. congruence.
Qed.

Lemma keeps_scores_step (s : LevelSampler) (l : list call) (b : bool)
    (s' : LevelSampler) :
  keeps seed_scores s l b s' -> scores_step s l b s'.
Proof. unfold keeps, scores_step. intros E i. left. by rewrite E. Qed.

Lemma _partial_update_seed_score_scores (a i : nat) (sc : fnum) (n : Z)
    (done : bool) :
  respects (keeps seed_scores) (_partial_update_seed_score a i sc n done).
Proof.
  unfold _partial_update_seed_score. respects_walk; frame_leaf; reflexivity.
Qed.

Lemma update_seed_score_except (a i : nat) (sc : fnum) (n : Z) :
  respects (scores_except i) (update_seed_score a i sc n).
Proof.
  unfold update_seed_score. respects_walk.
  - frame_leaf. by intros j.
  - eapply respects_weaken; [|apply _partial_update_seed_score_scores].
    unfold keeps, scores_except. intros s l b s' E j _. by rewrite E.
  - frame_leaf. by intros j.
  - apply respects_updates; [typeclasses eauto|]. intros s s' E.
    destruct (store (seed_scores s) i _) as [v|] eqn:Es; cbn in E;
      [|discriminate].
    injection E as <-. apply store_Ok in Es as [_ ->].
    intros j Hj. cbn. by apply list_lookup_insert_ne.
Qed.

Lemma update_seed_score_scores (a i : nat) (sc : fnum) (n : Z) :
  respects scores_step (update_seed_score a i sc n).
Proof.
  intros self j. destruct (decide (j = i)) as [->|Hj].
  - right. exists a. unfold update_seed_score. rewrite bind_run.
    cbn [enter value final calls]. apply elem_of_app. left.
    apply list_elem_of_here.
  - left. by apply (update_seed_score_except a i sc n self).
Qed.

Ltac scores_leaf :=
  eapply respects_weaken; [apply keeps_scores_step|];
  first [ apply _partial_update_seed_score_scores
        | frame_leaf; reflexivity
        | respects_walk ].

Lemma after_update_scores : respects scores_step after_update.
Proof.
  unfold after_update, after_update_seed. respects_walk.
  - apply update_seed_score_scores.
  - scores_leaf.
  - scores_leaf.
Qed.

Lemma done_loop_scores (score_function : kwargs -> result fnum)
    (rollouts : RolloutStorage) (total_steps a : nat) (done_steps : list nat) :
  forall start_t,
    respects scores_step
      (done_loop score_function rollouts total_steps a done_steps start_t).
Proof.
  induction done_steps as [|t done_steps IH]; intros start_t;
    cbn [done_loop]; unfold seed_index_at, segment_kwargs; respects_walk;
    try apply IH.
  apply update_seed_score_scores.
Qed.

Lemma update_with_rollouts_scores (rollouts : RolloutStorage) :
  respects scores_step (update_with_rollouts rollouts).
Proof.
  unfold update_with_rollouts, _update_with_rollouts.
  respects_walk; unfold update_actor, seed_index_at, segment_kwargs;
    respects_walk;
    try apply done_loop_scores; scores_leaf.
Qed.

(** X21. A seed's score is written only by [update_seed_score] for that
    seed: if [seed_scores[i]] differs after [update_with_rollouts] or
    [after_update] (returning or raising) from what it was before, then
    [update_seed_score] was entered for seed index [i] during the call. *)
Theorem seed_score_changes_only_when_finalised (rollouts : RolloutStorage)
    (self : LevelSampler) (i : nat) :
  (seed_scores (final (update_with_rollouts rollouts self)) !! i
     = seed_scores self !! i
   \/ exists a,
        Call_update_seed_score a i ∈ calls (update_with_rollouts rollouts self))
  /\ (seed_scores (final (after_update self)) !! i = seed_scores self !! i
      \/ exists a, Call_update_seed_score a i ∈ calls (after_update self)).
Proof.
  split.
  - exact (update_with_rollouts_scores rollouts self i).
  - exact (after_update_scores self i).
Qed.

(** ** A batch in which no episode ends *)

Lemma filter_imap_all_false (l : list bool) (f : nat -> nat) :
  Forall (fun b => b = false) l ->
  filter (fun p : nat * bool => snd p = true)
         (imap (fun i b => (f i, b)) l) = [].
Proof.
  revert f. induction l as [|b l IH]; intros f F; [done|].
  apply Forall_cons in F as [-> F]. cbn [imap].
  rewrite filter_cons_False by (cbn; discriminate).
  apply (IH (f ∘ S) F).
Qed.

Lemma nonzero_head (b : bool) (l : list bool) :
  Forall (fun b => b = false) l ->
  nonzero (b :: l) = if b then [0] else [].
Proof.
  intros F. unfold nonzero. cbn [imap].
  change (imap ((fun i b => (i, b)) ∘ S) l)
    with (imap (fun i b => (S i, b)) l).
  pose proof (filter_imap_all_false l S F) as E.
  destruct b.
  - rewrite filter_cons_True by reflexivity. by rewrite E.
  - rewrite filter_cons_False by (cbn; discriminate). by rewrite E.
Qed.

Lemma mapR_Forall {A B : Type} (f : A -> result B) (P : B -> Prop)
    (l : list A) (ys : list B) :
  (forall x y, x ∈ l -> f x = Ok y -> P y) ->
  mapR f l = Ok ys -> Forall P ys.
Proof.
  revert ys. induction l as [|x l IH]; intros ys H; cbn [mapR].
  - intros [= <-]. constructor.
  - destruct (f x) as [y|e] eqn:Ey; cbn; [|discriminate].
    destruct (mapR f l) as [ys'|e]; cbn; [|discriminate].
    intros [= <-]. constructor.
    + apply (H x y); [apply list_elem_of_here|exact Ey].
    + apply IH; [|reflexivity]. intros x' y' Hx'. apply H.
      by apply list_elem_of_further.
Qed.

(** A done flag can only sit at step 0 when every later mask is
    positive. *)
Lemma done_steps_of_unfinished (rollouts : RolloutStorage)
    (total_steps a : nat) (ds : list nat) :
  Forall (Forall (fun m => fgt m f0 = true)) (drop 1 (masks rollouts)) ->
  done_steps_of rollouts total_steps a = Ok ds -> ds = [] \/ ds = [0].
Proof.
  intros Hm. unfold done_steps_of, column.
  destruct (masks rollouts) as [|row0 rows]; cbn [mapR].
  { cbn. intros [= <-]. left. by rewrite take_nil. }
  cbn [drop] in Hm.
  destruct (index row0 a) as [m0|e]; cbn [mbind result_bind]; [|discriminate].
  destruct (mapR (fun row => index row a) rows) as [col|e] eqn:Ec;
    cbn [mbind result_bind mret result_ret]; [|discriminate].
  assert (Hcol : Forall (fun m => fgt m f0 = true) col).
  { eapply mapR_Forall; [|exact Ec].
    intros row y Hrow Hy. cbn beta in Hy.
    rewrite Forall_forall in Hm. specialize (Hm row Hrow).
    apply index_Ok in Hy. rewrite Forall_lookup in Hm. by eapply Hm. }
  assert (Hfalse : Forall (fun b => b = false)
                          (map (fun m => negb (fgt m f0)) col)).
  { rewrite Forall_fmap. eapply Forall_impl; [exact Hcol|].
    intros m Hmgt. change (negb (fgt m f0) = false). cbn beta in Hmgt.
    by rewrite Hmgt. }
  cbn [map]. rewrite (nonzero_head _ _ Hfalse).
  destruct (negb (fgt m0 f0)); intros [= <-].
  - destruct total_steps; [by left|right; cbn; by rewrite take_nil].
  - left. by rewrite take_nil.
Qed.

(** Scores and flags are left alone and [update_seed_score] is not
    entered. *)
Definition unfinished_frame : rel := both (keeps seed_scores) unseen_frame.

#[global] Instance unfinished_frame_sequential : Sequential unfinished_frame.
Proof. unfold unfinished_frame. typeclasses eauto. Qed.

Lemma _partial_update_seed_score_unfinished (a i : nat) (sc : fnum) (n : Z)
    (done : bool) :
  respects unfinished_frame (_partial_update_seed_score a i sc n done).
Proof.
  intros self. split.
  - apply _partial_update_seed_score_scores.
  - apply _partial_update_seed_score_unseen.
Qed.

Lemma update_actor_unfinished (score_function : kwargs -> result fnum)
    (rollouts : RolloutStorage) (total_steps a : nat) :
  Forall (Forall (fun m => fgt m f0 = true)) (drop 1 (masks rollouts)) ->
  respects unfinished_frame
           (update_actor score_function rollouts total_steps a).
Proof.
  intros Hm self.
  change (holds unfinished_frame
            (update_actor score_function rollouts total_steps a) self).
  unfold update_actor.
  apply holds_bind; [typeclasses eauto| |intros ds Hds].
  { apply holds_respects, respects_lift. typeclasses eauto. }
  cbn [lift value] in Hds.
  assert (E : done_loop score_function rollouts total_steps a ds 0
              = mret 0).
  { destruct (done_steps_of_unfinished _ _ _ _ Hm Hds) as [-> | ->];
      cbn [done_loop]; [reflexivity|].
    by destruct (negb (0 <? total_steps)%nat). }
  rewrite E. apply holds_respects.
  unfold seed_index_at, segment_kwargs. respects_walk.
  apply _partial_update_seed_score_unfinished.
Qed.

(** X22. A batch in which no episode ends after its first step finalises
    nothing: when every mask from step 1 on is positive (a done flag at
    step 0 belongs to the previous batch and is skipped),
    [update_with_rollouts] (for any strategy, returning or raising) never
    enters [update_seed_score] and leaves every seed score and every unseen
    flag as it was; all it can write are the partial accumulators. *)
Theorem unfinished_batch_finalises_nothing (rollouts : RolloutStorage)
    (self : LevelSampler) :
  Forall (Forall (fun m => fgt m f0 = true)) (drop 1 (masks rollouts)) ->
  seed_scores (final (update_with_rollouts rollouts self)) = seed_scores self
  /\ unseen_seed_weights (final (update_with_rollouts rollouts self))
     = unseen_seed_weights self
  /\ Forall (fun c => ~ is_update_seed_score c)
            (calls (update_with_rollouts rollouts self)).
Proof.
  intros Hm.
  assert (H : respects unfinished_frame (update_with_rollouts rollouts)).
  { unfold update_with_rollouts, _update_with_rollouts.
    respects_walk; by apply update_actor_unfinished. }
  destruct (H self) as (H1 & H2 & H3). done.
Qed.

(** ** Transform names *)

(** X23. A transform name that is none of 'constant', 'max', 'eps_greedy',
    'rank', 'power' and 'softmax' leaves the local [weights] unassigned:
    [_score_transform] raises [UnboundLocalError], whatever the scores, and
    changes nothing.  Through [sample_weights] the same holds for a
    misspelt [score_transform] of the configuration. *)
Theorem unknown_transform_is_unbound (transform : string) (temp : Qc)
    (scores : array_ref) (tie : nat) (d : draws) (self : LevelSampler) :
  transform <> "constant" -> transform <> "max" ->
  transform <> "eps_greedy" -> transform <> "rank" ->
  transform <> "power" -> transform <> "softmax" ->
  _score_transform transform temp scores tie self
  = Outcome self [] (Raise UnboundLocalError)
  /\ (score_transform (config self) = transform ->
      sample_weights d self = Outcome self [] (Raise UnboundLocalError)).
Proof.
  intros H1 H2 H3 H4 H5 H6.
  apply String.eqb_neq in H1, H2, H3, H4, H5, H6.
  assert (E : forall t r tie',
             _score_transform transform t r tie' self
             = Outcome self [] (Raise UnboundLocalError)).
  { intros t r tie'. unfold _score_transform. rewrite gets_bind_run. cbv zeta.
    by rewrite H1, H2, H3, H4, H5, H6. }
  split; [apply E|].
  intros Ht. unfold sample_weights. rewrite !gets_bind_run, Ht.
  rewrite bind_run, E. reflexivity.
Qed.

(** ** The moving average stays between the old and the new score *)



(** ** Before any seed has been seen *)

Lemma filter_all_unseen (l : list fnum) :
  Forall (fun u => u = f1) l -> filter (fun u => fgt u f0 = true) l = l.
Proof.
  induction 1 as [|u l -> _ IH]; [done|].
  rewrite filter_cons_True by reflexivity. by rewrite IH.
Qed.

Lemma proportion_seen_none_seen (self : LevelSampler) :
  seeds self <> [] ->
  Forall (fun u => u = f1) (unseen_seed_weights self) ->
  length (unseen_seed_weights self) = length (seeds self) ->
  proportion_seen self = f0.
Proof.
  intros Hne Hall Hlen. unfold proportion_seen, num_unseen.
  assert (E : filter (fun u => fgt u f0 = true) (unseen_seed_weights self)
              = unseen_seed_weights self).
  { by apply filter_all_unseen. }
  rewrite E, Hlen. unfold fN, fsub. cbn [fneg fadd].
  assert (Hn : N2Qc (length (seeds self)) <> 0%Qc).
  { apply N2Qc_nonzero. by destruct (seeds self). }
  rewrite fdiv_finite by exact Hn. unfold f0. f_equal. field. exact Hn.
Qed.

(** X25. Before any seed has been seen (every unseen flag is 1, as after
    construction) and with a positive threshold rho, a score-driven
    [sample] always explores: under either replay schedule and whatever the
    draws it goes through [_sample_unseen_level], never through
    [_sample_replay_level], and it returns a seed of the pool without
    raising. *)
Theorem nothing_seen_samples_unseen (strategy_arg : option string)
    (d : draws) (self : LevelSampler) :
  score_driven (effective_strategy strategy_arg self) ->
  (0 < rho (config self))%Qc ->
  seeds self <> [] ->
  Forall (fun u => u = f1) (unseen_seed_weights self) ->
  length (unseen_seed_weights self) = length (seeds self) ->
  length (seed_staleness self) = length (seeds self) ->
  (0 <= choice_sample d)%Qc -> (choice_sample d < 1)%Qc ->
  sample strategy_arg d self = _sample_unseen_level d self
  /\ exists seed,
       value (sample strategy_arg d self) = Ok seed /\ seed ∈ seeds self.
Proof.
  intros Hs Hrho Hne Hall Hlen Hst Hu0 Hu1.
  assert (Hge : fge (proportion_seen self) (Fin (rho (config self))) = false).
  { rewrite (proportion_seen_none_seen self Hne Hall Hlen). unfold f0.
    destruct (fge (Fin 0) (Fin (rho (config self)))) eqn:E; [|reflexivity].
    apply fge_finite in E. exfalso. exact (Qclt_not_le _ _ Hrho E). }
  assert (E : sample strategy_arg d self = _sample_unseen_level d self).
  { rewrite (sample_score_driven _ _ _ Hs).
    unfold replay_fixed, replay_proportionate. rewrite Hge. cbn [andb].
    by destruct (replay_schedule (config self) =? "fixed"). }
  split; [exact E|]. rewrite E.
  assert (Hflags : Forall is_flag (unseen_seed_weights self)).
  { eapply Forall_impl; [exact Hall|]. intros u ->. by right. }
  destruct (_sample_unseen_level_draw d self Hflags Hlen Hst Hu0 Hu1)
    as [Hdraw _].
  destruct Hdraw as (idx & seed & Hv & Hseed & _).
  - destruct (seeds self) as [|s0 l] eqn:Es; [done|].
    destruct (unseen_seed_weights self) as [|u0 us]; [discriminate|].
    exists 0. apply Forall_cons in Hall as [-> _]. reflexivity.
  - exists seed. split; [exact Hv|]. by eapply list_elem_of_lookup_2.
Qed.

(** ** The step counts of the partial accumulators *)

(** A partial accumulator is consistent when its step count is not
    negative and a step count of zero goes with a score of zero. *)
Definition partial_consistent (self : LevelSampler) : Prop :=
  forall a i n,
    index2 (partial_seed_steps self) a i = Ok n ->
    (0 <= n)%Z
    /\ (n = 0%Z -> forall p, index2 (partial_seed_scores self) a i = Ok p ->
                    p = f0).

Lemma index2_insert_eq {A : Type} (m : list (list A)) (a i : nat)
    (row : list A) (x : A) :
  m !! a = Some row -> i < length row ->
  index2 (<[a := <[i := x]> row]> m) a i = Ok x.
Proof.
  intros Hm Hi. apply index2_Ok. exists (<[i := x]> row). split.
  - apply list_lookup_insert_eq. by eapply lookup_lt_Some.
  - by apply list_lookup_insert_eq.
Qed.

Lemma index2_insert_ne {A : Type} (m : list (list A)) (a i a' i' : nat)
    (row : list A) (x : A) :
  m !! a = Some row -> (a', i') <> (a, i) ->
  index2 (<[a := <[i := x]> row]> m) a' i' = index2 m a' i'.
Proof.
  intros Hm Hne. unfold index2, index.
  destruct (decide (a' = a)) as [->|Ha].
  - rewrite list_lookup_insert_eq by (by eapply lookup_lt_Some).
    rewrite Hm. cbn. rewrite list_lookup_insert_ne; [done|].
    intros ->. by apply Hne.
  - by rewrite list_lookup_insert_ne.
Qed.

(** [_partial_update_seed_score] either raises before it writes, or
    performs both writes. *)
Lemma partial_update_cases (self : LevelSampler) (a i : nat) (sc : fnum)
    (m : Z) (done : bool) :
  final (_partial_update_seed_score a i sc m done self) = self
  \/ exists rowS rowN p n,
       partial_seed_scores self !! a = Some rowS /\ rowS !! i = Some p
       /\ partial_seed_steps self !! a = Some rowN /\ rowN !! i = Some n
       /\ final (_partial_update_seed_score a i sc m done self)
          = set_partial_seed_steps
              (<[a := <[i := if done then 0%Z else (n + m)%Z]> rowN]>
                 (partial_seed_steps self))
              (set_partial_seed_scores
                 (<[a := <[i := if done then f0 else merge p n sc m]> rowS]>
                    (partial_seed_scores self))
                 self).
Proof.
  destruct (index2 (partial_seed_scores self) a i) as [p|e] eqn:E1.
  2: { left. unfold _partial_update_seed_score. run_monad. by rewrite E1. }
  destruct (index2 (partial_seed_steps self) a i) as [n|e] eqn:E2.
  2: { left. unfold _partial_update_seed_score. run_monad.
       rewrite E1. cbn. by rewrite E2. }
  right. apply index2_Ok in E1 as (rowS & HS & Hp).
  apply index2_Ok in E2 as (rowN & HN & Hn).
  exists rowS, rowN, p, n. repeat split; try done.
  by rewrite (partial_update_run _ _ _ _ _ done _ _ _ _ HS Hp HN Hn).
Qed.

Lemma partial_update_consistent (self : LevelSampler) (a i : nat) (sc : fnum)
    (m : Z) (done : bool) :
  (done = false -> (1 <= m)%Z) ->
  partial_consistent self ->
  partial_consistent (final (_partial_update_seed_score a i sc m done self)).
Proof.
  intros Hm HI.
  destruct (partial_update_cases self a i sc m done)
    as [-> | (rowS & rowN & p & n & HS & Hp & HN & Hn & ->)]; [exact HI|].
  assert (Hold : index2 (partial_seed_steps self) a i = Ok n)
    by (apply index2_Ok; eauto).
  destruct (HI a i n Hold) as [Hn0 _].
  intros a' i' n'. cbn [partial_seed_steps partial_seed_scores
                        set_partial_seed_steps set_partial_seed_scores].
  destruct (decide ((a', i') = (a, i))) as [[= -> ->]|Hne].
  - rewrite index2_insert_eq by (done || by eapply lookup_lt_Some).
    intros [= <-]. destruct done.
    + split; [lia|]. intros _ p'.
      rewrite index2_insert_eq by (done || by eapply lookup_lt_Some).
      by intros [= <-].
    + specialize (Hm eq_refl). split; [lia|]. intros E. lia.
  - rewrite !index2_insert_ne by done. apply HI.
Qed.

Lemma partial_consistent_ext (s s' : LevelSampler) :
  partial_seed_scores s' = partial_seed_scores s ->
  partial_seed_steps s' = partial_seed_steps s ->
  partial_consistent s -> partial_consistent s'.
Proof. unfold partial_consistent. intros -> ->. done. Qed.

(** The consistency of the accumulators is preserved. *)
Definition consistent_step : rel :=
  fun s _ _ s' => partial_consistent s -> partial_consistent s'.

#[global] Instance consistent_step_sequential : Sequential consistent_step.
Proof.
  split; unfold consistent_step.
  - done.
  - intros s l s' l' b s'' H1 H2 H. by apply H2, H1.
Qed.

Definition keeps_partial : rel :=
  both (keeps partial_seed_scores) (keeps partial_seed_steps).

#[global] Instance keeps_partial_sequential : Sequential keeps_partial.
Proof. unfold keeps_partial. typeclasses eauto. Qed.

Lemma keeps_partial_consistent (s : LevelSampler) (l : list call) (b : bool)
    (s' : LevelSampler) :
  keeps_partial s l b s' -> consistent_step s l b s'.
Proof. intros [H1 H2] HI. by apply (partial_consistent_ext s s'). Qed.

Lemma ledger_frame_consistent (s : LevelSampler) (l : list call) (b : bool)
    (s' : LevelSampler) :
  ledger_frame s l b s' -> consistent_step s l b s'.
Proof.
  intros (_ & H1 & H2 & _) HI. by apply (partial_consistent_ext s s').
Qed.

Ltac keeps_partial_leaf :=
  eapply respects_weaken; [apply keeps_partial_consistent|];
  first [ frame_leaf; split; reflexivity | respects_walk ].

Lemma update_seed_score_consistent (a i : nat) (sc : fnum) (n : Z) :
  respects consistent_step (update_seed_score a i sc n).
Proof.
  unfold update_seed_score. respects_walk.
  - keeps_partial_leaf.
  - intros self HI. apply partial_update_consistent; [discriminate|exact HI].
  - keeps_partial_leaf.
  - keeps_partial_leaf.
Qed.

Lemma index2_fill_inv {A : Type} (m : list (list A)) (x y : A) (a i : nat) :
  index2 (fill x m) a i = Ok y -> y = x.
Proof.
  intros H. apply index2_Ok in H as (row & Hrow & Hy). unfold fill in Hrow.
  rewrite list_lookup_fmap in Hrow.
  destruct (m !! a) as [row'|]; [|discriminate]. injection Hrow as <-.
  rewrite list_lookup_fmap in Hy. destruct (row' !! i); [|discriminate].
  by injection Hy as <-.
Qed.

Lemma index2_replicate_inv {A : Type} (W N : nat) (x y : A) (a i : nat) :
  index2 (replicate W (replicate N x)) a i = Ok y -> y = x.
Proof.
  intros H. apply index2_Ok in H as (row & Hrow & Hy).
  apply lookup_replicate in Hrow as [-> _].
  by apply lookup_replicate in Hy as [-> _].
Qed.

Lemma after_update_consistent : respects consistent_step after_update.
Proof.
  intros self. change (holds consistent_step after_update self).
  unfold after_update. apply holds_gets_bind.
  apply holds_bind; [typeclasses eauto| |intros _ _].
  { apply holds_respects. unfold after_update_seed. respects_walk.
    apply update_seed_score_consistent. }
  unfold holds, consistent_step. intros _. run_monad.
  intros a i n Hn. cbn in Hn |- *.
  apply index2_fill_inv in Hn as ->. split; [lia|].
  intros _ p Hp. by apply index2_fill_inv in Hp.
Qed.

Lemma mapR_length {A B : Type} (f : A -> result B) (l : list A)
    (ys : list B) :
  mapR f l = Ok ys -> length ys = length l.
Proof.
  revert ys. induction l as [|x l IH]; intros ys; cbn [mapR].
  - by intros [= <-].
  - destruct (f x) as [y|e]; cbn; [|discriminate].
    destruct (mapR f l) as [ys'|e]; cbn; [|discriminate].
    intros [= <-]. cbn. by rewrite (IH ys').
Qed.

Lemma py_slice_open_length {A : Type} (l : list A) (start : nat) :
  start < length l ->
  1 <= length (py_slice l (Some (Z.of_nat start)) None).
Proof.
  intros H. unfold py_slice, clamp_bound. cbn [from_option].
  destruct (Z.ltb_spec (Z.of_nat start) 0); [lia|].
  rewrite Z.max_l, Z.min_l by lia. rewrite Nat2Z.id.
  rewrite length_take, length_drop. lia.
Qed.

(** An unfinished segment has at least one step. *)
Lemma segment_kwargs_open_length (rollouts : RolloutStorage)
    (start_t a : nat) (self : LevelSampler) (k : kwargs) :
  start_t < length (action_log_dist rollouts) ->
  value (segment_kwargs rollouts start_t None a self) = Ok k ->
  1 <= length (kw_episode_logits k).
Proof.
  intros Hlt. unfold segment_kwargs, segment, column. rewrite bind_run.
  cbn [lift value final calls fmap option_fmap option_map].
  destruct (mapR _ _) as [logits|e] eqn:Em; cbn [value final calls];
    [|discriminate].
  apply mapR_length in Em.
  pose proof (py_slice_open_length (action_log_dist rollouts) start_t Hlt)
    as Hlen.
  rewrite gets_bind_run.
  destruct (requires_value_buffers self).
  - run_monad.
    repeat match goal with
      | |- context [mapR ?f ?l] => destruct (mapR f l); cbn; [|discriminate]
      end.
    intros [= <-]. cbn. rewrite length_map. lia.
  - run_monad. intros [= <-]. cbn. rewrite length_map. lia.
Qed.

Lemma done_loop_consistent (score_function : kwargs -> result fnum)
    (rollouts : RolloutStorage) (total_steps a : nat) (done_steps : list nat) :
  forall start_t,
    respects consistent_step
      (done_loop score_function rollouts total_steps a done_steps start_t).
Proof.
  induction done_steps as [|t done_steps IH]; intros start_t;
    cbn [done_loop]; unfold seed_index_at, segment_kwargs; respects_walk;
    try apply IH.
  apply update_seed_score_consistent.
Qed.

Lemma update_actor_consistent (score_function : kwargs -> result fnum)
    (rollouts : RolloutStorage) (a : nat) :
  respects consistent_step
    (update_actor score_function rollouts
                  (length (action_log_dist rollouts)) a).
Proof.
  unfold update_actor.
  apply respects_bind; [typeclasses eauto|respects_walk|intros ds].
  apply respects_bind; [typeclasses eauto|apply done_loop_consistent|].
  intros start_t.
  destruct (start_t <? length (action_log_dist rollouts))%nat eqn:Elt;
    [|respects_walk].
  apply Nat.ltb_lt in Elt.
  apply respects_bind; [typeclasses eauto| |intros seed_idx_t].
  { unfold seed_index_at. respects_walk. }
  intros self.
  change (holds consistent_step
            (k ← segment_kwargs rollouts start_t None a;
             score ← lift (score_function k);
             _partial_update_seed_score a seed_idx_t score
               (Z.of_nat (length (kw_episode_logits k))) false;;
             mret tt) self).
  apply holds_bind; [typeclasses eauto| |intros k Hk].
  { apply holds_respects. unfold segment_kwargs. respects_walk. }
  apply (segment_kwargs_open_length _ _ _ _ _ Elt) in Hk.
  apply holds_respects. respects_walk.
  intros st HI. apply partial_update_consistent; [intros _; lia|exact HI].
Qed.

Lemma update_with_rollouts_consistent (rollouts : RolloutStorage) :
  respects consistent_step (update_with_rollouts rollouts).
Proof.
  unfold update_with_rollouts, _update_with_rollouts.
  respects_walk; apply update_actor_consistent.
Qed.

Lemma run_consistent (op : operation) : respects consistent_step (run op).
Proof.
  destruct op; cbn [run].
  - apply update_with_rollouts_consistent.
  - apply after_update_consistent.
  - respects_walk. eapply respects_weaken; [apply ledger_frame_consistent|].
    apply sample_ledger.
Qed.

(** X26. The step counts of the partial accumulators stay consistent with
    their scores: every operation preserves that no step count is negative
    and that a step count of zero goes with a partial score of zero.  Hence
    in every state reached from the constructor a non-zero partial score
    has a positive step count, which is what the flush of [after_update]
    needs to return the partial mean rather than 0/0. *)
Theorem partial_accumulators_stay_consistent :
  (forall (op : operation) (self : LevelSampler),
      partial_consistent self -> partial_consistent (final (run op self)))
  /\ (forall (s : LevelSampler) (l : list call) (a i : nat) (p : fnum)
             (n : Z),
        reachable s l ->
        index2 (partial_seed_scores s) a i = Ok p ->
        index2 (partial_seed_steps s) a i = Ok n ->
        (0 <= n)%Z /\ (p <> f0 -> (0 < n)%Z)).
Proof.
  split.
  - intros op self. exact (run_consistent op self).
  - intros s l a i p n Hr.
    assert (HI : partial_consistent s).
    { induction Hr as [pool W c|s l op Hr IH Hok].
      - intros a' i' n' Hn'. cbn in Hn' |- *.
        apply index2_replicate_inv in Hn' as ->.
        split; [lia|]. intros _ p' Hp'.
        by apply index2_replicate_inv in Hp'.
      - by apply (run_consistent op s). }
    intros Hp Hn. destruct (HI a i n Hn) as [H0 Hz]. split; [exact H0|].
    intros Hne. destruct (decide (n = 0%Z)) as [E|E]; [|lia].
    exfalso. apply Hne. by apply (Hz E).
Qed.

(** ** The 'constant' transform *)

Lemma sum_seen_flags (us : list Qc) :
  Forall (fun q => q = 0%Qc \/ q = 1%Qc) us ->
  forall a,
    (fold_left Qcplus (map (fun q => 1 + - q) us) a
     + N2Qc (length (filter (fun u => fgt u f0 = true) (map Fin us))))%Qc
    = (a + N2Qc (length us))%Qc.
Proof.
  induction 1 as [|q us Hq _ IH]; intros a.
  - cbn. change (N2Qc 0) with (Z2Qc 0). rewrite Z2Qc_0. ring.
  - cbn [map fold_left length]. destruct Hq as [-> | ->].
    + rewrite filter_cons_False by (by vm_compute).
      rewrite IH, N2Qc_S. ring.
    + rewrite filter_cons_True by reflexivity.
      cbn [length]. rewrite !N2Qc_S.
      pose proof (IH (a + (1 + - (1)))%Qc) as H.
      set (X := fold_left Qcplus _ _) in *. set (Y := N2Qc (length (filter _ _))) in *.
      replace (X + (Y + 1))%Qc with ((X + Y) + 1)%Qc by ring.
      rewrite H. ring.
Qed.

Lemma zip_ones (us ss : list fnum) :
  length ss = length us ->
  zip_with fmul (map (fun _ => f1) ss) (map (fun u => fsub f1 u) us)
  = map (fun u => fsub f1 u) us.
Proof.
  revert ss. induction us as [|u us IH]; intros [|s ss] L;
    try discriminate; [done|].
  injection L as L. cbn [map zip_with]. f_equal; [|by apply IH].
  apply fmul_one_l.
Qed.

Lemma N2Qc_sub (n k : nat) :
  k <= n -> N2Qc (n - k) = (N2Qc n - N2Qc k)%Qc.
Proof.
  intros H. unfold N2Qc.
  replace (Z.of_nat n) with (Z.of_nat (n - k) + Z.of_nat k)%Z by lia.
  rewrite Z2Qc_add. ring.
Qed.

(** X27. Under the 'constant' transform with staleness weighting disabled,
    [sample_weights()] is the uniform distribution over the seen seeds: on
    flags that are 0 or 1 with at least one seed seen, a seen seed gets
    1/(number of seen seeds), an unseen seed gets 0, whatever the scores
    are; the object is not changed. *)
Theorem constant_transform_is_uniform_over_seen (d : draws)
    (self : LevelSampler) :
  score_transform (config self) = "constant" ->
  (staleness_coef (config self) <= 0)%Qc ->
  Forall is_flag (unseen_seed_weights self) ->
  length (seed_scores self) = length (unseen_seed_weights self) ->
  num_unseen self < length (unseen_seed_weights self) ->
  sample_weights d self
  = Outcome self []
      (Ok (map (fun u =>
                  fdiv (fsub f1 u)
                       (fN (length (unseen_seed_weights self)
                            - num_unseen self)))
               (unseen_seed_weights self))).
Proof.
  intros Ht Hcoef Hflags Hlen Hseen. apply Qcltb_false in Hcoef.
  destruct (flags_Fin _ Hflags) as (us & Eus & Hus).
  unfold num_unseen in *.
  set (k := length (filter (fun u => fgt u f0 = true)
                           (unseen_seed_weights self))) in *.
  set (N := length (unseen_seed_weights self)) in *.
  assert (Hmask : elementwise ValueError fmul
                    (map (fun _ => f1) (seed_scores self))
                    (map (fun u => fsub f1 u) (unseen_seed_weights self))
                  = Ok (map (fun u => fsub f1 u) (unseen_seed_weights self))).
  { rewrite elementwise_same_length by (rewrite !length_map; exact Hlen).
    f_equal. by apply zip_ones. }
  assert (Hsum : fsum (map (fun u => fsub f1 u) (unseen_seed_weights self))
                 = fN (N - k)).
  { rewrite Eus, map_map.
    change (map (fun x => fsub f1 (Fin x)) us)
      with (map (fun x => Fin (1 + - x)%Qc) us).
    rewrite <- (map_map (fun q => (1 + - q)%Qc) Fin), fsum_Fin.
    unfold fN, Qcsum. f_equal.
    pose proof (sum_seen_flags us Hus 0%Qc) as H.
    rewrite <- Eus in H. fold k in H.
    assert (EN : length us = N) by (subst N; by rewrite Eus, length_map).
    rewrite EN in H. rewrite N2Qc_sub by lia.
    set (S := fold_left Qcplus (map (fun q => (1 + - q)%Qc) us) 0%Qc) in *.
    replace S with ((S + N2Qc k) - N2Qc k)%Qc by ring. rewrite H. ring. }
  assert (Hpos : fgt (fN (N - k)) f0 = true).
  { unfold fgt, fN, f0. cbn [flt]. apply Qcltb_true, N2Qc_pos. lia. }
  unfold sample_weights. rewrite !gets_bind_run, Ht. rewrite bind_run.
  assert (E1 : _score_transform "constant" (temperature (config self))
                 Ref_seed_scores (tie_scores d) self
               = Outcome self [] (Ok (map (fun _ => f1) (seed_scores self))))
    by reflexivity.
  rewrite E1. cbn [value final calls]. rewrite bind_run.
  unfold mask_unseen. rewrite gets_bind_run. cbn [lift value final calls].
  rewrite Hmask. cbn [value final calls]. cbv zeta.
  rewrite gets_bind_run, Hcoef. unfold normalize. cbv zeta.
  rewrite Hsum, Hpos. cbn [mret M_ret app]. by rewrite map_map.
Qed.

(** ** A batch that mentions a seed outside the pool *)



(** ** The 'max' transform *)

Lemma nonzero_elem (l : list bool) (j : nat) :
  j ∈ nonzero l <-> l !! j = Some true.
Proof.
  unfold nonzero. rewrite list_elem_of_fmap. split.
  - intros ([i b] & -> & H). apply list_elem_of_filter in H as [Hb H].
    cbn in Hb. subst b.
    apply elem_of_lookup_imap in H as (i' & y & [= -> ->] & Hl). exact Hl.
  - intros H. exists (j, true). split; [reflexivity|].
    apply list_elem_of_filter. split; [reflexivity|].
    apply elem_of_lookup_imap. by exists j, true.
Qed.

Lemma choice_uniform_elem (a : list nat) (i j : nat) :
  choice_uniform a i = Ok j -> j ∈ a.
Proof.
  unfold choice_uniform. destruct a as [|x a]; [discriminate|].
  intros H. apply index_Ok in H. by eapply list_elem_of_lookup_2.
Qed.

Lemma choice_uniform_ok (a : list nat) (i : nat) :
  a <> [] -> exists j, choice_uniform a i = Ok j.
Proof.
  intros Hne. unfold choice_uniform. destruct a as [|x a]; [done|].
  destruct (lookup_lt_is_Some_2 (x :: a) (i mod length (x :: a))) as [j Hj].
  { apply Nat.mod_upper_bound. cbn. lia. }
  exists j. by apply index_Ok.
Qed.

(** Values without NaN and without plus infinity: finite scores and the
    minus infinity of the mask. *)
Definition no_hi (x : fnum) : Prop :=
  match x with Fin _ | NInf => True | _ => False end.

Lemma fle_refl (x : fnum) : no_hi x -> fle x x = true.
Proof.
  destruct x as [q| | |]; try done. intros _. apply fle_finite, Qcle_refl.
Qed.

Lemma fle_trans (x y z : fnum) :
  no_hi x -> no_hi y -> no_hi z ->
  fle x y = true -> fle y z = true -> fle x z = true.
Proof.
  destruct x as [a| | |], y as [b| | |], z as [c| | |]; try done.
  intros _ _ _. rewrite !fle_finite. apply Qcle_trans.
Qed.

Lemma fmax_spec (x y : fnum) :
  no_hi x -> no_hi y ->
  no_hi (fmax x y) /\ (fmax x y = x \/ fmax x y = y)
  /\ fle x (fmax x y) = true /\ fle y (fmax x y) = true.
Proof.
  destruct x as [a| | |], y as [b| | |]; try done; intros _ _.
  - unfold fmax. cbn [isnan flt]. destruct (Qcltb a b) eqn:E.
    + apply Qcltb_true in E. split; [done|]. split; [by right|]. split.
      * by apply fle_finite, Qclt_le_weak.
      * apply fle_finite, Qcle_refl.
    + apply Qcltb_false in E. split; [done|]. split; [by left|]. split.
      * apply fle_finite, Qcle_refl.
      * by apply fle_finite.
  - change (fmax (Fin a) NInf) with (Fin a).
    split; [done|]. split; [by left|]. split; [by apply fle_refl|done].
  - change (fmax NInf (Fin b)) with (Fin b).
    split; [done|]. split; [by right|]. split; [done|by apply fle_refl].
  - split; [done|]. split; [by left|]. split; reflexivity.
Qed.

Lemma fold_fmax_spec (l : list fnum) :
  forall acc, no_hi acc -> Forall no_hi l ->
    no_hi (fold_left fmax l acc)
    /\ fold_left fmax l acc ∈ acc :: l
    /\ Forall (fun z => fle z (fold_left fmax l acc) = true) (acc :: l).
Proof.
  induction l as [|x l IH]; intros acc Hacc Hl; cbn [fold_left].
  - split; [done|]. split; [apply list_elem_of_here|].
    constructor; [by apply fle_refl|constructor].
  - apply Forall_cons in Hl as [Hx Hl].
    destruct (fmax_spec acc x Hacc Hx) as (Hm & Hor & Hle1 & Hle2).
    destruct (IH (fmax acc x) Hm Hl) as (Hr & Hin & Hall).
    apply Forall_cons in Hall as [Hle Hall].
    split; [exact Hr|]. split.
    + apply elem_of_cons in Hin as [Hin|Hin].
      * rewrite Hin. destruct Hor as [-> | ->].
        -- apply list_elem_of_here.
        -- apply list_elem_of_further, list_elem_of_here.
      * by do 2 apply list_elem_of_further.
    + constructor; [|constructor; [|exact Hall]].
      * by apply (fle_trans acc (fmax acc x)).
      * by apply (fle_trans x (fmax acc x)).
Qed.

Lemma isclose_refl (m : Qc) : isclose (Fin m) (Fin m) = true.
Proof.
  unfold isclose, fsub. cbn [fneg fadd fabs fmul].
  apply fle_finite. unfold isclose_atol, isclose_rtol.
  destruct (Qcltb (m + - m) 0) eqn:E1; destruct (Qcltb m 0) eqn:E2;
    first [apply Qcltb_true in E1|apply Qcltb_false in E1];
    first [apply Qcltb_true in E2|apply Qcltb_false in E2];
    qc_lra.
Qed.

(** X29. The 'max' transform puts all the weight on one of the best seen
    seeds.  On finite scores and flags that are 0 or 1 (one entry per
    score), with at least one seed seen, [_score_transform('max', ...)]
    returns, whatever the tie-break draw, a vector that is 1 at one index
    and 0 elsewhere; that index belongs to a seen seed whose score is within
    [np.isclose] of the highest score M among the seen seeds. *)
Theorem max_transform_picks_best_seen (temp : Qc) (tie : nat)
    (self : LevelSampler) :
  all_finite (seed_scores self) ->
  Forall is_flag (unseen_seed_weights self) ->
  length (unseen_seed_weights self) = length (seed_scores self) ->
  (exists i, unseen_seed_weights self !! i = Some f0) ->
  exists j x M,
    value (_score_transform "max" temp Ref_seed_scores tie self)
    = Ok (<[j := f1]> (map (fun _ => f0) (seed_scores self)))
    /\ unseen_seed_weights self !! j = Some f0
    /\ seed_scores self !! j = Some (Fin x)
    /\ isclose (Fin x) (Fin M) = true
    /\ (exists i, unseen_seed_weights self !! i = Some f0
                  /\ seed_scores self !! i = Some (Fin M))
    /\ (forall i y, unseen_seed_weights self !! i = Some f0 ->
                    seed_scores self !! i = Some (Fin y) -> (y <= M)%Qc).
Proof.
  intros Hfin Hflags Hlen [i0 Hi0].
  set (s := seed_scores self) in *. set (u := unseen_seed_weights self) in *.
  set (mask := map (fun w => fgt w f0) u).
  set (s' := zip_with (fun v (b : bool) => if b then NInf else v) s mask).
  assert (Hfill : masked_fill s mask NInf = Ok s').
  { unfold masked_fill. rewrite decide_True; [done|].
    subst mask. by rewrite length_map. }
  (* the entries of the masked array *)
  assert (Hs' : forall i v, s' !! i = Some v ->
             exists q w, s !! i = Some (Fin q) /\ u !! i = Some w
               /\ ((w = f0 /\ v = Fin q) \/ (w = f1 /\ v = NInf))).
  { intros i v Hv. subst s'.
    apply lookup_zip_with_Some in Hv as (x & b & -> & Hx & Hb).
    subst mask. rewrite list_lookup_fmap in Hb.
    destruct (u !! i) as [w|] eqn:Ew; [|discriminate]. injection Hb as <-.
    unfold all_finite in Hfin. rewrite Forall_lookup in Hfin.
    pose proof (Hfin i x Hx) as Hxf. destruct x as [q| | |]; try discriminate.
    exists q, w. split; [done|]. split; [done|].
    rewrite Forall_lookup in Hflags.
    destruct (Hflags i w Ew) as [-> | ->]; [left|right]; done. }
  assert (Hseen : forall i, u !! i = Some f0 ->
             exists q, s !! i = Some (Fin q) /\ s' !! i = Some (Fin q)).
  { intros i Hi.
    destruct (lookup_lt_is_Some_2 s i) as [x Hx].
    { apply lookup_lt_Some in Hi. lia. }
    unfold all_finite in Hfin. rewrite Forall_lookup in Hfin.
    pose proof (Hfin i x Hx) as Hxf. destruct x as [q| | |]; try discriminate.
    exists q. split; [done|]. subst s'. rewrite lookup_zip_with, Hx. cbn.
    subst mask. rewrite list_lookup_fmap, Hi. reflexivity. }
  assert (Hno : Forall no_hi s').
  { apply Forall_lookup. intros i v Hv.
    destruct (Hs' i v Hv) as (q & w & _ & _ & [[_ ->]|[_ ->]]); done. }
  (* the maximum *)
  destruct (Hseen i0 Hi0) as (q0 & Hq0 & Hq0').
  destruct s' as [|hd tl] eqn:Es'; [by rewrite lookup_nil in Hq0'|].
  apply Forall_cons in Hno as [Hhd Htl].
  destruct (fold_fmax_spec tl hd Hhd Htl) as (Hr & Hin & Hall).
  set (r := fold_left fmax tl hd) in *.
  assert (Hmax : array_max (hd :: tl) = Ok r) by reflexivity.
  rewrite <- Es' in *.
  assert (HM : exists M, r = Fin M).
  { rewrite Forall_lookup in Hall. pose proof (Hall i0 _ Hq0') as Hle.
    cbn beta in Hle. destruct r as [M| | |]; try done. by exists M. }
  destruct HM as [M HM]. rewrite HM in *.
  apply list_elem_of_lookup_1 in Hin as [jm Hjm].
  (* the candidates and the draw *)
  set (cands := flatnonzero (map (fun x => isclose x (Fin M)) s')).
  assert (Hjmc : jm ∈ cands).
  { subst cands. unfold flatnonzero. apply nonzero_elem.
    by rewrite list_lookup_fmap, Hjm, <- (isclose_refl M). }
  destruct (choice_uniform_ok cands tie) as [j Hj].
  { intros E. rewrite E in Hjmc. by apply elem_of_nil in Hjmc. }
  pose proof (choice_uniform_elem _ _ _ Hj) as Hjc.
  subst cands. unfold flatnonzero in Hjc. apply nonzero_elem in Hjc.
  rewrite list_lookup_fmap in Hjc.
  destruct (s' !! j) as [v|] eqn:Ev; [|discriminate].
  injection Hjc as Hclose.
  destruct (Hs' j v Ev) as (x & w & Hx & Hw & [[-> ->]|[-> ->]]);
    [|discriminate].
  assert (Hstore : store (map (fun _ : fnum => f0) s) j f1
                   = Ok (<[j := f1]> (map (fun _ : fnum => f0) s))).
  { unfold store. rewrite decide_True; [done|].
    rewrite length_map. by eapply lookup_lt_Some. }
  exists j, x, M. split; [|split; [exact Hw|split; [exact Hx|split;
                             [exact Hclose|split]]]].
  - unfold _score_transform. rewrite gets_bind_run. cbv zeta.
    change ("max" =? "max") with true. cbv iota.
    rewrite gets_bind_run. cbn [deref]. fold s u mask.
    rewrite bind_run. cbn [lift value final calls]. rewrite Hfill.
    cbn [value final calls]. rewrite bind_run.
    cbn [modify value final calls]. rewrite bind_run.
    cbn [lift value final calls]. fold s'. rewrite Hmax.
    cbn [value final calls]. rewrite bind_run.
    cbn [lift value final calls]. rewrite Hj. cbn [value final calls].
    exact Hstore.
  - destruct (Hs' jm (Fin M) Hjm) as (q & w & Hq & Hw' & [[-> [= ->]]|[_ ?]]);
      [|discriminate].
    by exists jm.
  - intros i y Hi Hy. destruct (Hseen i Hi) as (q & Hq & Hq').
    rewrite Hy in Hq. injection Hq as <-.
    rewrite Forall_lookup in Hall. apply fle_finite. exact (Hall i _ Hq').
Qed.

(** ** Normalisation and the uniform fallback *)

(** The per-seed vectors have one entry per seed, as [__init__] builds
    them. *)
Definition per_seed_arrays (self : LevelSampler) : Prop :=
  length (unseen_seed_weights self) = length (seeds self)
  /\ length (seed_scores self) = length (seeds self)
  /\ length (seed_staleness self) = length (seeds self).

Lemma dims_lengths (s s' : LevelSampler) :
  dims s' = dims s ->
  length (unseen_seed_weights s') = length (unseen_seed_weights s)
  /\ length (seed_scores s') = length (seed_scores s)
  /\ length (seed_staleness s') = length (seed_staleness s).
Proof. unfold dims. intros [= H1 H2 H3 _ _]. done. Qed.

Lemma masked_weights_length (transform : string) (temp : Qc)
    (scores : array_ref) (tie : nat) (self : LevelSampler) (mw : list fnum) :
  value (masked_weights transform temp scores tie self) = Ok mw ->
  length (deref scores self) = length (unseen_seed_weights self) ->
  length mw = length (unseen_seed_weights self).
Proof.
  intros Hv Hlen. unfold masked_weights in Hv. rewrite bind_run in Hv.
  pose proof (_score_transform_length transform temp scores tie self) as HL.
  destruct (_score_transform_frame transform temp scores tie self)
    as (_ & _ & Hu & _).
  unfold keeps in Hu. revert Hv.
  destruct (value (_score_transform transform temp scores tie self))
    as [ws|e]; cbn [value final calls]; [|discriminate].
  specialize (HL ws eq_refl). unfold mask_unseen. rewrite gets_bind_run.
  cbn [lift value]. rewrite Hu.
  rewrite elementwise_same_length by (rewrite length_map; congruence).
  intros [= <-]. rewrite length_zip_with, length_map. lia.
Qed.

(** The masked staleness weights are computed on the object as the score
    transform left it: the per-seed vectors keep their lengths. *)
Lemma masked_weights_keeps_lengths (transform : string) (temp : Qc)
    (scores : array_ref) (tie : nat) (self : LevelSampler) :
  per_seed_arrays self ->
  per_seed_arrays (final (masked_weights transform temp scores tie self)).
Proof.
  intros (L1 & L2 & L3). rewrite masked_weights_final.
  destruct (_score_transform_frame transform temp scores tie self)
    as (_ & Hs & Hu & _).
  pose proof (_score_transform_dims transform temp scores tie self) as Hd.
  unfold keeps in Hs, Hu, Hd. apply dims_lengths in Hd as (_ & Hd2 & Hd3).
  unfold per_seed_arrays. rewrite Hs, Hu. repeat split; congruence.
Qed.

Lemma sample_weights_length (d : draws) (self : LevelSampler) (w : list fnum) :
  per_seed_arrays self ->
  value (sample_weights d self) = Ok w ->
  length w = length (seeds self).
Proof.
  intros Hsh Hv. pose proof Hsh as (L1 & L2 & L3).
  unfold sample_weights in Hv.
  rewrite !gets_bind_run in Hv. rewrite masked_bind in Hv.
  rewrite bind_run in Hv.
  pose proof (masked_weights_length (score_transform (config self))
                (temperature (config self)) Ref_seed_scores (tie_scores d)
                self) as H1.
  pose proof (masked_weights_keeps_lengths (score_transform (config self))
                (temperature (config self)) Ref_seed_scores (tie_scores d)
                self Hsh) as (M1 & M2 & M3).
  pose proof (masked_weights_static (score_transform (config self))
                (temperature (config self)) Ref_seed_scores (tie_scores d)
                self) as (Hc & Hseeds & _).
  unfold keeps in Hc, Hseeds.
  set (o1 := masked_weights _ _ _ _ self) in *.
  revert Hv. destruct (value o1) as [mw1|e]; cbn [value final calls];
    [|discriminate].
  specialize (H1 mw1 eq_refl ltac:(cbn [deref]; congruence)).
  cbv zeta. rewrite gets_bind_run, Hc.
  destruct (Qcltb 0 (staleness_coef (config self))).
  - rewrite !gets_bind_run, Hc. rewrite masked_bind. rewrite bind_run.
    pose proof (masked_weights_length (staleness_transform (config self))
                  (staleness_temperature (config self)) Ref_seed_staleness
                  (tie_staleness d) (final o1)) as H2.
    destruct (value (masked_weights _ _ Ref_seed_staleness _ (final o1)))
      as [mw2|e]; cbn [value final calls]; [|discriminate].
    specialize (H2 mw2 eq_refl ltac:(cbn [deref]; congruence)).
    cbv zeta. cbn [lift value].
    rewrite elementwise_same_length
      by (rewrite !length_map, !normalize_length; congruence).
    intros [= <-].
    rewrite length_zip_with, !length_map, !normalize_length.
    rewrite H1, H2, M1, Hseeds, L1. lia.
  - cbn [mret M_ret value]. intros [= <-]. rewrite normalize_length.
    congruence.
Qed.

Lemma sample_weights_dims (d : draws) :
  respects (keeps dims) (sample_weights d).
Proof.
  unfold sample_weights, mask_unseen. dims_walk; apply _score_transform_dims.
Qed.

(** Inverse-CDF search in the uniform distribution: the sample [u] lands on
    the index [k] with [k/n <= u < (k+1)/n]. *)
Lemma cdf_count_uniform (z u c : Qc) (n : nat) :
  (0 < z)%Qc -> (0 < c)%Qc ->
  forall acc, (acc <= u * z)%Qc -> (u * z < acc + N2Qc n * c)%Qc ->
    let k := length (filter (fun x => fle x (Fin u) = true)
                       (map (fun x => fdiv x (Fin z))
                            (cumsum_from (Fin acc)
                                         (map Fin (replicate n c))))) in
    k < n
    /\ (acc + N2Qc k * c <= u * z)%Qc
    /\ (u * z < acc + (N2Qc k + 1) * c)%Qc.
Proof.
  intros Hz Hc. pose proof (Qclt_nonzero z Hz) as Hz'.
  assert (F : forall m, Forall (fun q => (0 <= q)%Qc) (replicate m c)).
  { intros m. apply Forall_replicate. by apply Qclt_le_weak. }
  induction n as [|n IH]; intros acc Hlo Hhi; cbv zeta.
  - exfalso. change (N2Qc 0) with (Z2Qc 0) in Hhi. rewrite Z2Qc_0 in Hhi.
    qc_lra.
  - cbn [replicate map cumsum_from fadd].
    rewrite fdiv_finite by exact Hz'.
    destruct (Qclt_le_dec (u * z) (acc + c)) as [Hgt|Hle].
    + rewrite filter_cons_False.
      2: { rewrite fle_finite, Qcdiv_le_iff by exact Hz. intros H. qc_lra. }
      rewrite (cdf_count_above z u (replicate n c) Hz (F n)) by exact Hgt.
      cbn [length]. change (N2Qc 0) with (Z2Qc 0). rewrite Z2Qc_0.
      split; [lia|]. split; qc_lra.
    + rewrite filter_cons_True
        by (rewrite fle_finite, Qcdiv_le_iff by exact Hz; exact Hle).
      cbn [length]. rewrite N2Qc_S in Hhi.
      destruct (IH (acc + c)%Qc Hle) as (Hk & H1 & H2).
      { replace (acc + c + N2Qc n * c)%Qc
          with (acc + (N2Qc n + 1) * c)%Qc by ring. exact Hhi. }
      cbv zeta in Hk, H1, H2. rewrite N2Qc_S. split; [lia|]. split.
      * replace (acc + (N2Qc _ + 1) * c)%Qc
          with (acc + c + N2Qc
                  (length (filter (fun x => fle x (Fin u) = true)
                     (map (fun x => fdiv x (Fin z))
                        (cumsum_from (Fin (acc + c))
                           (map Fin (replicate n c)))))) * c)%Qc by ring.
        exact H1.
      * replace (acc + (N2Qc _ + 1 + 1) * c)%Qc
          with (acc + c + (N2Qc
                  (length (filter (fun x => fle x (Fin u) = true)
                     (map (fun x => fdiv x (Fin z))
                        (cumsum_from (Fin (acc + c))
                           (map Fin (replicate n c)))))) + 1) * c)%Qc by ring.
        exact H2.
Qed.

Lemma map_Fin_inj (xs ys : list Qc) : map Fin xs = map Fin ys -> xs = ys.
Proof.
  revert ys. induction xs as [|x xs IH]; intros [|y ys] H; try discriminate.
  - reflexivity.
  - injection H as -> H. f_equal. by apply IH.
Qed.

Lemma Qcsum_replicate (n : nat) (c : Qc) :
  Qcsum (replicate n c) = (N2Qc n * c)%Qc.
Proof.
  unfold Qcsum.
  replace (replicate n c) with (map (fun _ : unit => c) (replicate n tt))
    by apply (fmap_replicate (fun _ : unit => c) n tt).
  rewrite fold_Qcplus_const, length_replicate. ring.
Qed.

(** [np.random.choice] on the uniform distribution over [n] items returns
    the index [k] with [k <= u·n < k + 1]. *)
Lemma choice_p_uniform (n : nat) (u : Qc) :
  n <> 0 -> (0 <= u)%Qc -> (u < 1)%Qc ->
  exists k,
    choice_p n (replicate n (Fin (1 / N2Qc n)%Qc)) u = Ok k
    /\ k < n
    /\ (N2Qc k <= u * N2Qc n)%Qc
    /\ (u * N2Qc n < N2Qc k + 1)%Qc.
Proof.
  intros Hn Hu0 Hu1.
  pose proof (N2Qc_pos n Hn) as Hpos.
  pose proof (Qclt_nonzero _ Hpos) as Hnz.
  set (c := (1 / N2Qc n)%Qc).
  assert (Hc : (0 < c)%Qc) by (subst c; apply Qcdiv_pos_iff; [done|]; qc_lra).
  assert (Hnc : (N2Qc n * c)%Qc = 1%Qc) by (subst c; field; exact Hnz).
  assert (Hp : replicate n (Fin c) = map Fin (replicate n c))
    by (symmetry; apply (fmap_replicate Fin n c)).
  destruct (choice_p_accepts n (replicate n (Fin c)) u Hn) as [k Hk].
  - apply length_replicate.
  - rewrite Hp, fsum_Fin, Qcsum_replicate, Hnc. reflexivity.
  - apply Forall_replicate. cbn. apply Qcltb_false. by apply Qclt_le_weak.
  - exists k. split; [exact Hk|].
    destruct (choice_p_valid _ _ _ _ Hk) as (qs & Eq & _ & _ & _ & Hs & ->).
    rewrite Hp in Eq. apply map_Fin_inj in Eq. subst qs.
    rewrite Qcsum_replicate, Hnc in *.
    destruct (cdf_count_uniform 1 u c n ltac:(qc_lra) Hc 0%Qc) as (H1 & H2 & H3).
    + qc_lra.
    + rewrite Hnc. qc_lra.
    + cbv zeta in H1, H2, H3. unfold searchsorted_right.
      set (k := length _) in *. split; [exact H1|].
      assert (E1 : (N2Qc k * c * N2Qc n)%Qc = N2Qc k).
      { rewrite <- Qcmult_assoc, (Qcmult_comm c), Hnc. ring. }
      assert (Hle : (N2Qc k * c * N2Qc n <= u * 1 * N2Qc n)%Qc).
      { apply Qcmult_le_compat_r; [|by apply Qclt_le_weak]. qc_lra. }
      assert (Hlt : (u * 1 * N2Qc n < (N2Qc k + 1) * c * N2Qc n)%Qc).
      { apply Qcmult_lt_compat_r; [exact Hpos|]. qc_lra. }
      assert (E2 : ((N2Qc k + 1) * c * N2Qc n)%Qc = (N2Qc k + 1)%Qc).
      { rewrite <- Qcmult_assoc, (Qcmult_comm c), Hnc. ring. }
      rewrite E1 in Hle. rewrite E2 in Hlt.
      replace (u * 1 * N2Qc n)%Qc with (u * N2Qc n)%Qc in Hle, Hlt by ring.
      split; assumption.
Qed.

(** The fallback of [_sample_replay_level]: when [sample_weights()] sums to
    (nearly) zero, the level is drawn from the uniform distribution over
    all seeds: the uniform sample [u] selects the seed at index [k] with
    [k <= u·N < k + 1]. *)
Lemma _sample_replay_level_fallback (d : draws) (self : LevelSampler)
    (w : list fnum) :
  per_seed_arrays self ->
  value (sample_weights d self) = Ok w ->
  isclose (fsum w) f0 = true ->
  seeds self <> [] ->
  (0 <= choice_sample d)%Qc -> (choice_sample d < 1)%Qc ->
  exists k seed,
    value (_sample_replay_level d self) = Ok seed
    /\ seeds self !! k = Some seed
    /\ (N2Qc k <= choice_sample d * N2Qc (length (seeds self)))%Qc
    /\ (choice_sample d * N2Qc (length (seeds self)) < N2Qc k + 1)%Qc.
Proof.
  intros Hsh Hw Hz Hne Hu0 Hu1.
  pose proof (sample_weights_length d self w Hsh Hw) as Lw.
  assert (Hn : length (seeds self) <> 0)
    by (destruct (seeds self); [done|cbn; lia]).
  destruct (choice_p_uniform (length (seeds self)) (choice_sample d)
              Hn Hu0 Hu1) as (k & Hk & Hkn & H1 & H2).
  destruct (lookup_lt_is_Some_2 (seeds self) k Hkn) as [seed Hseed].
  exists k, seed. split; [|done].
  unfold _sample_replay_level. rewrite bind_run.
  cbn [enter value final calls]. rewrite bind_run.
  rewrite Hw. cbn [value final calls]. cbv zeta.
  assert (Hw' : w <> []) by (intros ->; cbn in Lw; lia).
  destruct (replay_distribution_uniform w Hw' Hz) as [-> _].
  destruct (sample_weights_frame d self) as (_ & Hseeds & _).
  pose proof (sample_weights_dims d self) as Hd.
  unfold keeps in Hseeds, Hd. apply dims_lengths in Hd as (_ & _ & Hd3).
  destruct Hsh as (_ & _ & L3).
  apply (draw_tail_ok _ _ _ k).
  - rewrite Hseeds, Lw. exact Hk.
  - by rewrite Hseeds.
  - rewrite Hd3, L3. exact Hkn.
Qed.

(** C2 (as amended). Normalisation: on a sampler whose unseen, score and
    staleness vectors have one entry per seed, for every transform name,
    score vector, staleness vector and unseen mask on which
    [sample_weights()] returns, the returned vector sums to 1 whenever the
    masked score weights are finite with a positive sum (and, with
    staleness weighting enabled, the masked staleness weights as well);
    with staleness weighting disabled, masked weights without a positive
    sum are returned as they are, so the all-zero vector stays all-zero.
    The uniform fallback is applied by the caller, [_sample_replay_level]:
    when the weights [sample_weights()] returns sum to (numerically) zero
    and there is at least one seed, [_sample_replay_level] draws the level
    from the uniform distribution over all seeds: with the uniform sample
    u in [0, 1) and N seeds, it returns the seed at the index k with
    k <= u·N < k + 1. *)
Theorem sample_weights_normalised (d : draws) (self : LevelSampler)
    (w : list fnum) :
  per_seed_arrays self ->
  value (sample_weights d self) = Ok w ->
  exists mw1,
    value (masked_weights (score_transform (config self))
             (temperature (config self)) Ref_seed_scores (tie_scores d) self)
    = Ok mw1
    /\ (Qcltb 0 (staleness_coef (config self)) = false ->
          (all_finite mw1 -> fgt (fsum mw1) f0 = true -> fsum w = f1)
          /\ (fgt (fsum mw1) f0 = false -> w = mw1))
    /\ (Qcltb 0 (staleness_coef (config self)) = true ->
          exists mw2,
            value (masked_weights (staleness_transform (config self))
                     (staleness_temperature (config self)) Ref_seed_staleness
                     (tie_staleness d)
                     (final (masked_weights (score_transform (config self))
                               (temperature (config self)) Ref_seed_scores
                               (tie_scores d) self)))
            = Ok mw2
            /\ (all_finite mw1 -> all_finite mw2 ->
                fgt (fsum mw1) f0 = true -> fgt (fsum mw2) f0 = true ->
                fsum w = f1))
    /\ (isclose (fsum w) f0 = true ->
        seeds self <> [] ->
        (0 <= choice_sample d)%Qc -> (choice_sample d < 1)%Qc ->
        exists k seed,
          value (_sample_replay_level d self) = Ok seed
          /\ seeds self !! k = Some seed
          /\ (N2Qc k <= choice_sample d * N2Qc (length (seeds self)))%Qc
          /\ (choice_sample d * N2Qc (length (seeds self)) < N2Qc k + 1)%Qc).
Proof.
  intros Hsh Hv0. pose proof Hv0 as Hv. unfold sample_weights in Hv.
  rewrite !gets_bind_run in Hv. rewrite masked_bind in Hv.
  rewrite bind_run in Hv.
  pose proof (masked_weights_static (score_transform (config self))
                (temperature (config self)) Ref_seed_scores (tie_scores d)
                self) as (Hc & Hseeds & _).
  pose proof (masked_weights_length (score_transform (config self))
                (temperature (config self)) Ref_seed_scores (tie_scores d)
                self) as HL1.
  pose proof (masked_weights_keeps_lengths (score_transform (config self))
                (temperature (config self)) Ref_seed_scores (tie_scores d)
                self Hsh) as (M1 & M2 & M3).
  destruct Hsh as (L1 & L2 & L3).
  unfold keeps in Hc, Hseeds.
  set (o1 := masked_weights _ _ _ _ self) in *.
  revert Hv.
  destruct (value o1) as [mw1|e]; cbn [value final calls]; intros Hv.
  2: discriminate.
  specialize (HL1 mw1 eq_refl ltac:(cbn [deref]; congruence)).
  exists mw1. split; [reflexivity|]. cbv zeta in Hv.
  rewrite gets_bind_run, Hc in Hv.
  split; [|split].
  - intros Ec. rewrite Ec in Hv. cbn in Hv. injection Hv as <-. split.
    + intros Hfin Hpos. by apply normalize_positive.
    + apply normalize_not_positive.
  - intros Ec. rewrite Ec in Hv.
    rewrite !gets_bind_run, Hc in Hv. rewrite masked_bind in Hv.
    rewrite bind_run in Hv. revert Hv.
    pose proof (masked_weights_length (staleness_transform (config self))
                  (staleness_temperature (config self)) Ref_seed_staleness
                  (tie_staleness d) (final o1)) as HL2.
    destruct (value (masked_weights _ _ Ref_seed_staleness _ (final o1)))
      as [mw2|e]; cbn [value final calls]; intros Hv; [|discriminate].
    specialize (HL2 mw2 eq_refl ltac:(cbn [deref]; congruence)).
    exists mw2. split; [reflexivity|].
    intros F1 F2 P1 P2. cbv zeta in Hv. cbn [lift value] in Hv.
    destruct (normalize_positive mw1 F1 P1) as (N1 & S1 & K1).
    destruct (normalize_positive mw2 F2 P2) as (N2 & S2 & K2).
    eapply combine_sums_to_one; [exact N1|exact N2| |exact S1|exact S2|exact Hv].
    rewrite K1, K2, HL1, HL2, M1, Hseeds, L1. reflexivity.
  - intros Hz Hne Hu0 Hu1.
    by apply (_sample_replay_level_fallback d self w).
Qed.
(** ** The fixed schedule, in the specification's words *)

(** The proportion of seeds seen so far: the seeds whose unseen flag has
    been cleared, over all seeds. *)
Definition seen_fraction (self : LevelSampler) : fnum :=
  fdiv (fN (length (filter (fun u => u = f0) (unseen_seed_weights self))))
       (fN (length (seeds self))).

(** The rule of the fixed schedule: replay when the proportion seen has
    reached rho and either the uniform draw r exceeds nu or every seed
    has been seen. *)
Definition fixed_replay (self : LevelSampler) (r : Qc) : bool :=
  fge (seen_fraction self) (Fin (rho (config self)))
  && (fgt (Fin r) (Fin (nu (config self))) || fge (seen_fraction self) f1).

Lemma flags_partition (l : list fnum) :
  Forall is_flag l ->
  length (filter (fun u => u = f0) l)
  + length (filter (fun u => fgt u f0 = true) l)
  = length l.
Proof.
  induction 1 as [|u l [-> | ->] _ IH]; [done| |].
  - rewrite filter_cons_True by done.
    rewrite (filter_cons_False (fun u => fgt u f0 = true)) by (by vm_compute).
    cbn [length]. lia.
  - rewrite filter_cons_False by (by vm_compute).
    rewrite (filter_cons_True (fun u => fgt u f0 = true)) by (by vm_compute).
    cbn [length]. lia.
Qed.

(** On flags that are 0 or 1, one per seed, the proportion [sample]
    computes is the proportion of seeds seen. *)
Lemma proportion_seen_is_seen_fraction (self : LevelSampler) :
  Forall is_flag (unseen_seed_weights self) ->
  length (unseen_seed_weights self) = length (seeds self) ->
  proportion_seen self = seen_fraction self.
Proof.
  intros Hflags Hlen. pose proof (flags_partition _ Hflags) as Hp.
  unfold proportion_seen, seen_fraction, num_unseen, fN.
  cbn [fsub fneg fadd]. do 2 f_equal.
  set (k := length (filter (fun u => fgt u f0 = true) _)) in *.
  set (s := length (filter (fun u => u = f0) _)) in *.
  replace s with (length (seeds self) - k) by lia.
  rewrite N2Qc_sub by lia. reflexivity.
Qed.

(** X30. Fixed-schedule decision rule.  For a score-driven strategy under the
    'fixed' replay schedule, on flags that are 0 or 1 and per-seed vectors
    with one entry per seed, with the uniform draw r and the uniform
    sample behind [np.random.choice] given: when the proportion of seeds
    seen is at least rho and (r > nu or every seed is seen), [sample()] is
    [_sample_replay_level()], and a seed it returns is a seen one unless
    the weights sum to (nearly) zero and the uniform fallback is taken;
    in every other case [sample()] is [_sample_unseen_level()], which
    returns an unseen seed whenever there is one. *)
Theorem fixed_schedule_decision (strategy_arg : option string) (d : draws)
    (self : LevelSampler) :
  score_driven (effective_strategy strategy_arg self) ->
  replay_schedule (config self) = "fixed" ->
  Forall is_flag (unseen_seed_weights self) ->
  per_seed_arrays self ->
  (0 <= choice_sample d)%Qc -> (choice_sample d < 1)%Qc ->
  (fixed_replay self (rand d) = true ->
     sample strategy_arg d self = _sample_replay_level d self
     /\ (Call_sample_replay_level ∈ calls (sample strategy_arg d self))
     /\ forall seed w,
          value (sample strategy_arg d self) = Ok seed ->
          value (sample_weights d self) = Ok w ->
          isclose (fsum w) f0 = false ->
          exists idx, seeds self !! idx = Some seed
                      /\ unseen_seed_weights self !! idx = Some f0)
  /\ (fixed_replay self (rand d) = false ->
      sample strategy_arg d self = _sample_unseen_level d self
      /\ (Call_sample_unseen_level ∈ calls (sample strategy_arg d self))
      /\ ((exists j, unseen_seed_weights self !! j = Some f1) ->
          exists idx seed,
            value (sample strategy_arg d self) = Ok seed
            /\ seeds self !! idx = Some seed
            /\ unseen_seed_weights self !! idx = Some f1)).
Proof.
  intros Hs Hf Hflags (L1 & L2 & L3) Hu0 Hu1.
  rewrite (sample_score_driven _ _ _ Hs), Hf.
  change ("fixed" =? "fixed") with true. cbn match.
  assert (E : replay_fixed self d = fixed_replay self (rand d)).
  { unfold replay_fixed, fixed_replay.
    by rewrite (proportion_seen_is_seen_fraction self Hflags L1). }
  rewrite E. split; intros Hc; rewrite Hc.
  - split; [reflexivity|]. split; [apply replay_level_log|].
    intros seed w Hv Hw Hz.
    by apply (_sample_replay_level_draw d self w seed).
  - split; [reflexivity|]. split; [apply unseen_level_log|].
    intros Hex.
    by destruct (_sample_unseen_level_draw d self Hflags L1 L3 Hu0 Hu1)
      as [H _]; apply H.
Qed.
(** ** [after_update], seed by seed *)

(** A loop over [range(n)] whose invariant is indexed by the number of
    iterations done. *)
Lemma for_each_seq (J : nat -> LevelSampler -> Prop) (body : nat -> M unit)
    (n : nat) :
  (forall k st, k < n -> J k st ->
     value (body k st) = Ok tt /\ J (S k) (final (body k st))) ->
  forall st, J 0 st ->
    value (for_each body (seq 0 n) st) = Ok tt
    /\ J n (final (for_each body (seq 0 n) st)).
Proof.
  intros Hbody.
  assert (G : forall m start st, start + m = n -> J start st ->
            value (for_each body (seq start m) st) = Ok tt
            /\ J n (final (for_each body (seq start m) st))).
  { induction m as [|m IH]; intros start st E HJ.
    - cbn. assert (start = n) as <- by lia. done.
    - cbn [seq for_each]. rewrite bind_run.
      destruct (Hbody start st ltac:(lia) HJ) as [Ev HJ'].
      rewrite Ev. cbn [value final].
      apply IH; [lia|exact HJ']. }
  intros st HJ. by apply G.
Qed.

(** The accumulators the workers hold for seed [s], in worker order: partial
    score and step count. *)
Definition pending (s : nat) (self : LevelSampler) : list (fnum * Z) :=
  zip_with (fun rowS rowN => (default f0 (rowS !! s), default 0%Z (rowN !! s)))
           (partial_seed_scores self) (partial_seed_steps self).

(** What [after_update] does to the score of a seed on meeting one of its
    accumulators: nothing if the partial score is zero, otherwise the
    update of [update_seed_score] with an empty last segment. *)
Definition flush_step (a : Qc) (sc : fnum) (pn : fnum * Z) : fnum :=
  if fne (fst pn) f0 then ema a sc (merge (fst pn) (snd pn) f0 0) else sc.

Lemma pending_length (W N s : nat) (self : LevelSampler) :
  shaped W N self -> length (pending s self) = W.
Proof.
  intros (L1 & L2 & _). unfold pending. rewrite length_zip_with. lia.
Qed.

Lemma pending_lookup (W N s : nat) (self : LevelSampler) (a : nat)
    (p : fnum) (n : Z) :
  shaped W N self -> s < N ->
  pending s self !! a = Some (p, n)
  <-> index2 (partial_seed_scores self) a s = Ok p
      /\ index2 (partial_seed_steps self) a s = Ok n.
Proof.
  intros (L1 & L2 & F1 & F2 & _) Hs. unfold pending.
  rewrite lookup_zip_with_Some, !index2_Ok.
  rewrite Forall_lookup in F1. rewrite Forall_lookup in F2. split.
  - intros (rowS & rowN & [= -> ->] & HS & HN).
    destruct (lookup_lt_is_Some_2 rowS s) as [x Hx];
      [rewrite (F1 _ _ HS); lia|].
    destruct (lookup_lt_is_Some_2 rowN s) as [y Hy];
      [rewrite (F2 _ _ HN); lia|].
    rewrite Hx, Hy. cbn. split; eexists; split; eassumption.
  - intros [(rowS & HS & Hp) (rowN & HN & Hn)].
    exists rowS, rowN. by rewrite Hp, Hn.
Qed.

Lemma pending_in_range (W N s : nat) (self : LevelSampler) (a : nat) :
  shaped W N self -> s < N -> a < W ->
  exists p n, pending s self !! a = Some (p, n).
Proof.
  intros Hsh Hs Ha.
  destruct (lookup_lt_is_Some_2 (pending s self) a) as [[p n] H].
  - by rewrite (pending_length W N).
  - eauto.
Qed.

Section Column.

Variables (W N s : nat) (old : fnum) (self : LevelSampler).

Hypothesis self_shaped : shaped W N self.
Hypothesis s_in_range : s < N.

(** The state of column [s] once the accumulators of the first [m] workers
    have been visited. *)
Definition flushed_to (m : nat) (st : LevelSampler) : Prop :=
  shaped W N st /\ config st = config self
  /\ (forall a, m <= a ->
        index2 (partial_seed_scores st) a s
        = index2 (partial_seed_scores self) a s
        /\ index2 (partial_seed_steps st) a s
           = index2 (partial_seed_steps self) a s)
  /\ seed_scores st !! s
     = Some (fold_left (flush_step (alpha (config self)))
                       (take m (pending s self)) old)
  /\ unseen_seed_weights st !! s
     = if existsb (fun pn => fne (fst pn) f0) (take m (pending s self))
       then Some f0 else unseen_seed_weights self !! s.

Lemma after_update_seed_flushed (a k : nat) (st : LevelSampler) :
  a < W -> k < N ->
  flushed_to (if decide (k <= s) then a else S a) st ->
  value (after_update_seed a k st) = Ok tt
  /\ flushed_to (if decide (S k <= s) then a else S a)
                (final (after_update_seed a k st)).
Proof.
  intros Ha Hk. destruct (decide (k = s)) as [->|Hne].
  - rewrite decide_True by lia. rewrite decide_False by lia.
    intros (Hsh & Hcfg & Hcells & Hsc & Hun).
    destruct (pending_in_range W N s self a self_shaped s_in_range Ha)
      as (p & n & Hpn).
    pose proof Hpn as Hpn'.
    apply (pending_lookup W N s self a p n self_shaped s_in_range)
      in Hpn' as [E1 E2].
    destruct (Hcells a ltac:(lia)) as [C1 C2]. rewrite E1 in C1.
    rewrite E2 in C2. unfold flushed_to.
    rewrite (take_S_r _ _ _ Hpn), fold_left_app, existsb_app.
    cbn [fold_left existsb fst snd]. unfold flush_step at 1. cbn [fst snd].
    unfold after_update_seed. rewrite bind_run.
    cbn [reads value final calls]. rewrite C1. cbn [value final calls].
    destruct (fne p f0) eqn:Hfne.
    + pose proof C1 as C1'. pose proof C2 as C2'.
      apply index2_Ok in C1' as (rowS & HS & Hp).
      apply index2_Ok in C2' as (rowN & HN & Hn).
      assert (Hu : s < length (unseen_seed_weights st))
        by (destruct Hsh as (_ & _ & _ & _ & L & _); lia).
      rewrite (update_seed_score_run _ _ _ _ _ _ _ _ _ _ HS Hp HN Hn Hu Hsc).
      cbn [value final calls]. split; [done|].
      destruct Hsh as (L1 & L2 & F1 & F2 & L3 & L4).
      split; [|split; [done|split; [|split]]].
      * unfold shaped. cbn. rewrite !length_insert.
        repeat split; try done; by apply Forall_insert_length.
      * intros a' Ha'. destruct (Hcells a' ltac:(lia)) as [<- <-].
        cbn. unfold index2, index.
        rewrite !list_lookup_insert_ne by lia. done.
      * cbn [seed_scores set_seed_scores set_unseen_seed_weights
             set_partial_seed_steps set_partial_seed_scores config].
        rewrite Hcfg. apply list_lookup_insert_eq. lia.
      * cbn [unseen_seed_weights set_seed_scores set_unseen_seed_weights].
        rewrite orb_true_r. apply list_lookup_insert_eq. lia.
    + cbn [mret M_ret value final]. split; [done|].
      rewrite orb_false_r. split; [done|]. split; [done|].
      split; [|done]. intros a' Ha'. apply Hcells. lia.
  - assert (E : (if decide (S k <= s) then a else S a)
               = (if decide (k <= s) then a else S a)).
    { destruct (decide (S k <= s)), (decide (k <= s)); lia. }
    rewrite E. intros (Hsh & Hcfg & Hcells & Hsc & Hun).
    destruct (after_update_seed_other_column W N st a k s Hsh Ha Hk Hne)
      as (Ev & Hsh' & Hcfg' & Hsc' & Hps & Hpn & Hun').
    split; [exact Ev|]. split; [exact Hsh'|]. split; [congruence|].
    split; [|split].
    + intros a' Ha'. rewrite Hps, Hpn. by apply Hcells.
    + by rewrite Hsc'.
    + by rewrite Hun'.
Qed.

Lemma after_update_actor_flushed (a : nat) (st : LevelSampler) :
  a < W -> flushed_to a st ->
  let m := for_each (fun seed_idx => after_update_seed a seed_idx) (seq 0 N) in
  value (m st) = Ok tt /\ flushed_to (S a) (final (m st)).
Proof.
  intros Ha HJ. cbv zeta.
  destruct (for_each_seq
              (fun k => flushed_to (if decide (k <= s) then a else S a))
              (fun seed_idx => after_update_seed a seed_idx) N)
    with (st := st) as [Ev HJ'].
  - intros k st' Hk. by apply after_update_seed_flushed.
  - by rewrite decide_True by lia.
  - split; [exact Ev|]. by rewrite decide_False in HJ' by lia.
Qed.

Lemma after_update_loops_flushed (n1 : nat) :
  (0 < W -> n1 = N) ->
  seed_scores self !! s = Some old ->
  let m := for_each (fun actor_index =>
             for_each (fun seed_idx => after_update_seed actor_index seed_idx)
                      (seq 0 n1)) (seq 0 W) in
  value (m self) = Ok tt /\ flushed_to W (final (m self)).
Proof.
  intros Hn1 Hold. cbv zeta. apply (for_each_seq flushed_to).
  - intros a st Ha HJ. rewrite Hn1 by lia.
    by apply after_update_actor_flushed.
  - split; [exact self_shaped|]. split; [done|]. split; [done|].
    by rewrite take_0.
Qed.

End Column.

(** [after_update()], seen from one seed: the call returns, every
    accumulator ends at (0, 0), the score of the seed has gone through the
    flush of each worker's accumulator in worker order, and the seed's
    unseen flag is cleared if one of those partial scores was non-zero. *)
Lemma after_update_column (W N s : nat) (old : fnum) (self : LevelSampler) :
  shaped W N self -> s < N -> seed_scores self !! s = Some old ->
  value (after_update self) = Ok tt
  /\ (forall a i, a < W -> i < N ->
        index2 (partial_seed_scores (final (after_update self))) a i = Ok f0
        /\ index2 (partial_seed_steps (final (after_update self))) a i
           = Ok 0%Z)
  /\ seed_scores (final (after_update self)) !! s
     = Some (fold_left (flush_step (alpha (config self)))
                       (pending s self) old)
  /\ unseen_seed_weights (final (after_update self)) !! s
     = if existsb (fun pn => fne (fst pn) f0) (pending s self)
       then Some f0 else unseen_seed_weights self !! s.
Proof.
  intros Hsh Hs Hold.
  destruct (after_update_loops_flushed W N s old self Hsh Hs
              (shape1 (partial_seed_scores self))
              (shape1_shaped W N self Hsh) Hold) as [Ev HJ].
  cbv zeta in Ev, HJ.
  unfold after_update. rewrite gets_bind_run. cbn [fst snd].
  pose proof Hsh as (LW & _). rewrite LW. rewrite bind_run.
  set (loops := for_each _ (seq 0 W)) in *.
  rewrite Ev. cbn [value final calls]. run_monad.
  destruct HJ as (Hsh' & _ & _ & Hsc & Hun).
  destruct Hsh' as (L1 & L2 & F1 & F2 & _ & _).
  rewrite take_ge in Hsc, Hun
    by (rewrite (pending_length W N); [lia|exact Hsh]).
  split; [reflexivity|]. split; [|split].
  - intros a i Ha Hi. cbn. split; by apply (index2_fill W N).
  - cbn. exact Hsc.
  - cbn. exact Hun.
Qed.

(** ** The flush, in the specification's words *)

(** One EMA step [(1 - alpha)·old + alpha·p] for each pending (non-zero)
    partial score [p], in worker order; an accumulator whose partial score
    is exactly 0 contributes none. *)
Definition flush_all (a : Qc) (partials : list fnum) (old : fnum) : fnum :=
  fold_left (fun sc p => if fne p f0 then ema a sc p else sc) partials old.

(** The partial scores the workers hold for seed [s], in worker order. *)
Definition partials_of (s : nat) (self : LevelSampler) : list fnum :=
  map (fun row => default f0 (row !! s)) (partial_seed_scores self).

Lemma partials_of_pending (W N s : nat) (self : LevelSampler) :
  shaped W N self -> map fst (pending s self) = partials_of s self.
Proof.
  intros (L1 & L2 & _). unfold pending, partials_of.
  revert L1 L2. generalize W.
  generalize (partial_seed_steps self).
  induction (partial_seed_scores self) as [|rowS m IH];
    intros [|rowN m'] W' L1 L2; cbn in *; try lia; [done|].
  f_equal. apply (IH m' (length m)); [done|lia].
Qed.

Lemma flush_steps_are_ema (a : Qc) (l : list (fnum * Z)) :
  Forall (fun pn => fne (fst pn) f0 = true ->
                    merge (fst pn) (snd pn) f0 0 = fst pn) l ->
  forall old,
    fold_left (flush_step a) l old = flush_all a (map fst l) old.
Proof.
  unfold flush_all.
  induction 1 as [|[p n] l Hpn _ IH]; intros old; [done|].
  cbn [map fold_left fst]. rewrite <- IH. f_equal.
  unfold flush_step. cbn [fst snd] in *.
  destruct (fne p f0); [|done]. by rewrite Hpn.
Qed.

Lemma flush_all_zeros (a : Qc) (l : list fnum) (old : fnum) :
  Forall (fun p => p = f0) l -> flush_all a l old = old.
Proof.
  unfold flush_all. induction 1 as [|p l -> _ IH]; [done|].
  cbn [fold_left]. exact IH.
Qed.

Lemma flush_all_single (a : Qc) (l : list fnum) (w : nat) (p old : fnum) :
  l !! w = Some p -> fne p f0 = true ->
  (forall b q, b <> w -> l !! b = Some q -> q = f0) ->
  flush_all a l old = ema a old p.
Proof.
  intros Hw Hp Hothers.
  rewrite <- (take_drop_middle l w p Hw).
  unfold flush_all. rewrite fold_left_app. cbn [fold_left].
  fold (flush_all a (take w l) old). rewrite flush_all_zeros.
  - rewrite Hp. apply flush_all_zeros.
    apply Forall_lookup. intros b q Hq. rewrite lookup_drop in Hq.
    apply (Hothers (S w + b)); [lia|done].
  - apply Forall_lookup. intros b q Hq.
    pose proof (lookup_lt_Some _ _ _ Hq) as Hb. rewrite length_take in Hb.
    rewrite lookup_take_lt in Hq by lia.
    apply (Hothers b); [lia|done].
Qed.

(** C7 (as amended). [after_update] flush.  On a sampler for W workers
    and N seeds, [after_update()] returns and leaves every partial
    accumulator at exactly (0, 0).  For every seed s whose non-zero
    partial scores are numbers held over a step count n > 0,
    seed_scores[s] has received one EMA step (1 - alpha)·old + alpha·p for
    each worker holding a non-zero partial score p for s, in worker order:
    exactly one step when a single worker w holds one.  An accumulator
    whose partial score is exactly 0 is cleared without an EMA step,
    whatever its step count: when every partial score for s is 0,
    seed_scores[s] is left as it was. *)
Theorem after_update_flushes_partial (W N : nat) (self : LevelSampler) :
  shaped W N self ->
  value (after_update self) = Ok tt
  /\ (forall a i, a < W -> i < N ->
        index2 (partial_seed_scores (final (after_update self))) a i = Ok f0
        /\ index2 (partial_seed_steps (final (after_update self))) a i
           = Ok 0%Z)
  /\ (forall s old,
        s < N -> seed_scores self !! s = Some old ->
        (forall a p n,
            index2 (partial_seed_scores self) a s = Ok p ->
            index2 (partial_seed_steps self) a s = Ok n ->
            fne p f0 = true -> is_finite p = true /\ (0 < n)%Z) ->
        seed_scores (final (after_update self)) !! s
        = Some (flush_all (alpha (config self)) (partials_of s self) old)
        /\ forall w p,
             partials_of s self !! w = Some p -> fne p f0 = true ->
             (forall a q, a <> w -> partials_of s self !! a = Some q ->
                          q = f0) ->
             seed_scores (final (after_update self)) !! s
             = Some (ema (alpha (config self)) old p))
  /\ (forall s old,
        s < N -> seed_scores self !! s = Some old ->
        (forall a q, partials_of s self !! a = Some q -> q = f0) ->
        seed_scores (final (after_update self)) !! s = Some old).
Proof.
  intros Hsh.
  assert (Hret : value (after_update self) = Ok tt
            /\ (forall a i, a < W -> i < N ->
                  index2 (partial_seed_scores (final (after_update self))) a i
                  = Ok f0
                  /\ index2 (partial_seed_steps (final (after_update self)))
                            a i = Ok 0%Z)).
  { destruct (decide (0 < N)) as [HN|HN].
    - destruct (lookup_lt_is_Some_2 (seed_scores self) 0) as [old Hold].
      { destruct Hsh as (_ & _ & _ & _ & _ & L). lia. }
      destruct (after_update_column W N 0 old self Hsh HN Hold)
        as (Ev & Hz & _).
      done.
    - destruct (after_update_loops_shaped W N self
                  (shape1 (partial_seed_scores self)) Hsh
                  (shape1_shaped W N self Hsh)) as [Ev _].
      cbv zeta in Ev. split; [|intros a i _ Hi; lia].
      unfold after_update. rewrite gets_bind_run. cbn [fst snd].
      destruct Hsh as (LW & _). rewrite LW. rewrite bind_run.
      rewrite Ev. reflexivity. }
  destruct Hret as [Ev Hz]. split; [exact Ev|]. split; [exact Hz|].
  split.
  - intros s old Hs Hold Hproper.
    destruct (after_update_column W N s old self Hsh Hs Hold)
      as (_ & _ & Hsc & _).
    assert (E : fold_left (flush_step (alpha (config self)))
                          (pending s self) old
                = flush_all (alpha (config self)) (partials_of s self) old).
    { rewrite <- (partials_of_pending W N s self Hsh).
      apply flush_steps_are_ema. apply Forall_lookup.
      intros a [p n] Hpn Hne. cbn [fst snd] in *.
      apply (pending_lookup W N s self a p n Hsh Hs) in Hpn as [E1 E2].
      destruct (Hproper a p n E1 E2 Hne) as [Hfin Hn].
      destruct p as [q| | |]; try discriminate. by apply merge_flush. }
    rewrite E in Hsc. split; [exact Hsc|].
    intros w p Hw Hp Hothers. rewrite Hsc. f_equal.
    by apply (flush_all_single _ _ w).
  - intros s old Hs Hold Hzero.
    destruct (after_update_column W N s old self Hsh Hs Hold)
      as (_ & _ & Hsc & _).
    rewrite Hsc. f_equal.
    rewrite flush_steps_are_ema.
    + rewrite (partials_of_pending W N s self Hsh).
      apply flush_all_zeros. apply Forall_lookup. intros a q Hq.
      by apply (Hzero a).
    + apply Forall_lookup. intros a [p n] Hpn Hne. cbn [fst snd] in *.
      assert (Hp : partials_of s self !! a = Some p).
      { rewrite <- (partials_of_pending W N s self Hsh).
        by rewrite list_lookup_fmap, Hpn. }
      rewrite (Hzero a p Hp) in Hne. discriminate.
Qed.
(** ** Episodes that end inside a batch *)

Lemma filter_ext_elem {A : Type} (P Q : A -> Prop)
    `{!forall x, Decision (P x)} `{!forall x, Decision (Q x)} (l : list A) :
  (forall x, x ∈ l -> (P x <-> Q x)) -> filter P l = filter Q l.
Proof.
  induction l as [|x l IH]; intros Hiff; [done|].
  assert (Hx : P x <-> Q x) by (apply Hiff, list_elem_of_here).
  assert (Hl : filter P l = filter Q l)
    by (apply IH; intros y Hy; by apply Hiff, list_elem_of_further).
  destruct (decide (P x)) as [HP|HP].
  - rewrite !filter_cons_True by tauto. by rewrite Hl.
  - rewrite !filter_cons_False by tauto. exact Hl.
Qed.

(** [nonzero] lists the positions of [True] in ascending order. *)
Lemma nonzero_from (l : list bool) :
  forall k,
    map fst (filter (fun p : nat * bool => snd p = true)
                    (imap (fun i b => (k + i, b)) l))
    = filter (fun t => l !! (t - k) = Some true) (seq k (length l)).
Proof.
  induction l as [|b l IH]; intros k; [done|].
  rewrite imap_cons. cbn [length seq].
  assert (E : imap ((fun i b => (k + i, b)) ∘ S) l
              = imap (fun i b => (S k + i, b)) l).
  { apply imap_ext. intros i x _. cbn. f_equal. lia. }
  rewrite E.
  assert (Et : filter (fun t => (b :: l) !! (t - k) = Some true)
                      (seq (S k) (length l))
               = filter (fun t => l !! (t - S k) = Some true)
                        (seq (S k) (length l))).
  { apply filter_ext_elem. intros t Ht. apply elem_of_seq in Ht.
    replace (t - k) with (S (t - S k)) by lia. reflexivity. }
  destruct b.
  - rewrite filter_cons_True by reflexivity.
    rewrite (filter_cons_True (fun t => (true :: l) !! (t - k) = Some true))
      by (by rewrite Nat.sub_diag).
    rewrite Nat.add_0_r. cbn [map fst]. f_equal. rewrite Et. apply IH.
  - rewrite filter_cons_False by (cbn; discriminate).
    rewrite (filter_cons_False (fun t => (false :: l) !! (t - k) = Some true))
      by (rewrite Nat.sub_diag; cbn; discriminate).
    rewrite Et. apply IH.
Qed.

Lemma nonzero_filter (l : list bool) :
  nonzero l = filter (fun t => l !! t = Some true) (seq 0 (length l)).
Proof.
  unfold nonzero. rewrite <- (imap_ext (fun i b => (0 + i, b))) by done.
  rewrite nonzero_from. apply filter_ext_elem. intros t _.
  by rewrite Nat.sub_0_r.
Qed.

Lemma filter_seq_sorted (P : nat -> Prop) `{!forall x, Decision (P x)}
    (n : nat) :
  forall a,
    StronglySorted lt (filter P (seq a n))
    /\ Forall (fun x => a <= x) (filter P (seq a n)).
Proof.
  induction n as [|n IH]; intros a; cbn [seq].
  - split; constructor.
  - destruct (IH (S a)) as [Hs Hf].
    assert (Hf' : Forall (fun x => a < x) (filter P (seq (S a) n)))
      by (eapply Forall_impl; [exact Hf|]; intros x Hx; cbn in Hx; lia).
    destruct (decide (P a)).
    + rewrite filter_cons_True by done. split.
      * apply StronglySorted_cons. done.
      * constructor; [lia|]. eapply Forall_impl; [exact Hf'|].
        intros x Hx. cbn in Hx. lia.
    + rewrite filter_cons_False by done. split; [exact Hs|].
      eapply Forall_impl; [exact Hf'|]. intros x Hx. cbn in Hx. lia.
Qed.

Lemma sorted_take {A : Type} (R : relation A) (l : list A) (k : nat) :
  StronglySorted R l -> StronglySorted R (take k l).
Proof.
  intros H. rewrite <- (take_drop k l) in H.
  by apply StronglySorted_app_1_l in H.
Qed.

Lemma mapR_lookup {A B : Type} (f : A -> result B) (l : list A)
    (ys : list B) (t : nat) (x : A) :
  mapR f l = Ok ys -> l !! t = Some x ->
  exists y, f x = Ok y /\ ys !! t = Some y.
Proof.
  revert ys t. induction l as [|x0 l IH]; intros ys t; cbn [mapR];
    [intros _ H; discriminate|].
  destruct (f x0) as [y0|e] eqn:E0; cbn; [|discriminate].
  destruct (mapR f l) as [ys'|e]; cbn; [|discriminate].
  intros [= <-] Ht. destruct t as [|t].
  - injection Ht as <-. eauto.
  - cbn in Ht. destruct (IH ys' t eq_refl Ht) as (y & Hy & Hl). eauto.
Qed.

(** Step [t] of the batch is flagged as the first step of a new episode of
    worker [a]: its mask is not positive. *)
Definition is_done (r : RolloutStorage) (a t : nat) : bool :=
  match index2 (masks r) t a with
  | Ok m => negb (fgt m f0)
  | Raise _ => false
  end.

(** The done steps of worker [a] that [update_with_rollouts] goes through,
    in ascending order: the first [T] of them, [T] being the number of
    steps of the batch. *)
Definition done_steps (r : RolloutStorage) (a : nat) : list nat :=
  take (length (action_log_dist r))
       (filter (fun t => is_done r a t = true) (seq 0 (length (masks r)))).

Lemma done_steps_sorted (r : RolloutStorage) (a : nat) :
  StronglySorted lt (done_steps r a).
Proof. apply sorted_take. apply filter_seq_sorted. Qed.

Lemma done_steps_of_spec (r : RolloutStorage) (a : nat) (ds : list nat) :
  done_steps_of r (length (action_log_dist r)) a = Ok ds ->
  ds = done_steps r a.
Proof.
  unfold done_steps_of, column, done_steps.
  destruct (mapR (fun row => index row a) (masks r)) as [col|e] eqn:Ecol;
    cbn; [|discriminate].
  intros [= <-]. f_equal. rewrite nonzero_filter, length_map.
  rewrite (mapR_length _ _ _ Ecol).
  apply filter_ext_elem. intros t Ht. apply elem_of_seq in Ht.
  destruct (lookup_lt_is_Some_2 (masks r) t) as [row Hrow]; [lia|].
  destruct (mapR_lookup _ _ _ t row Ecol Hrow) as (m & Hm & Hcol).
  rewrite list_lookup_fmap, Hcol.
  assert (E2 : index2 (masks r) t a = Ok m)
    by (apply index2_Ok; exists row; split; [done|]; by apply index_Ok).
  unfold is_done. rewrite E2.
  change (Some (negb (fgt m f0)) = Some true <-> negb (fgt m f0) = true).
  split; [intros [= H]; exact H|intros H; f_equal; exact H].
Qed.

(** An episode of worker [a] ends inside the batch: it runs from step
    [start], which is the first step of the batch or a done step, and is
    ended by a later done step. *)
Definition episode_ends_from (r : RolloutStorage) (a start : nat) : Prop :=
  (start = 0 \/ start ∈ done_steps r a)
  /\ start < length (action_log_dist r)
  /\ exists t, t ∈ done_steps r a /\ start < t.

(** The seed worker [a] plays at step [start] is the seed of index [i]. *)
Definition seed_at (r : RolloutStorage) (self : LevelSampler)
    (start a i : nat) : Prop :=
  exists seed, index2 (level_seeds r) start a = Ok seed
               /\ seed2index self !! seed = Some i.

(** The batch holds the end of an episode of the seed of index [i], and the
    strategy scores episodes. *)
Definition episode_ends (r : RolloutStorage) (self : LevelSampler) (i : nat)
  : Prop :=
  strategy (config self) <> "random"
  /\ exists a start,
       a < shape1 (action_log_dist r)
       /\ episode_ends_from r a start
       /\ seed_at r self start a i.

(** [after_update] finds a non-zero partial score for the seed of index
    [i]. *)
Definition flushes (self : LevelSampler) (i : nat) : Prop :=
  exists a p, index2 (partial_seed_scores self) a i = Ok p
              /\ fne p f0 = true.

(** ** The log of [update_with_rollouts] *)

Lemma bind_Ok {A B : Type} (m : M A) (f : A -> M B) (st : LevelSampler)
    (b : B) :
  value ((m ≫= f) st) = Ok b ->
  exists x, value (m st) = Ok x
            /\ value (f x (final (m st))) = Ok b
            /\ calls ((m ≫= f) st)
               = (calls (m st) ++ calls (f x (final (m st))))%list
            /\ final ((m ≫= f) st) = final (f x (final (m st))).
Proof.
  rewrite bind_run. destruct (value (m st)) as [x|e];
    cbn [value final calls]; [|discriminate].
  intros H. by exists x.
Qed.

Lemma no_calls (l : list call) : Forall (fun _ => False) l -> l = [].
Proof. destruct 1; [done|contradiction]. Qed.

Definition silent : rel :=
  both (keeps (fun s : LevelSampler => s)) (logs (fun _ => False)).

#[global] Instance silent_sequential : Sequential silent.
Proof. unfold silent. typeclasses eauto. Qed.

Lemma silent_run {A : Type} (m : M A) (st : LevelSampler) :
  respects silent m -> final (m st) = st /\ calls (m st) = [].
Proof. intros H. destruct (H st) as [E Hl]. split; [exact E|by apply no_calls]. Qed.

Lemma segment_kwargs_silent (r : RolloutStorage) (start_t : nat)
    (stop : option nat) (a : nat) :
  respects silent (segment_kwargs r start_t stop a).
Proof. unfold segment_kwargs. respects_walk. Qed.

Lemma seed_index_at_silent (r : RolloutStorage) (start_t a : nat) :
  respects silent (seed_index_at r start_t a).
Proof. unfold seed_index_at. respects_walk. Qed.

Lemma seed_index_at_Ok (r : RolloutStorage) (start_t a : nat)
    (st : LevelSampler) (i : nat) :
  value (seed_index_at r start_t a st) = Ok i <-> seed_at r st start_t a i.
Proof.
  unfold seed_index_at, seed_at. run_monad.
  destruct (index2 (level_seeds r) start_t a) as [seed|e]; cbn.
  - destruct (seed2index st !! seed) as [j|] eqn:E; cbn; split.
    + intros [= <-]. eauto.
    + intros (sd & [= <-] & H). congruence.
    + discriminate.
    + intros (sd & [= <-] & H). congruence.
  - split; [discriminate|]. intros (sd & H & _). discriminate.
Qed.

Lemma update_seed_score_calls (a i : nat) (sc : fnum) (n : Z)
    (st : LevelSampler) :
  exists l, calls (update_seed_score a i sc n st)
            = Call_update_seed_score a i :: l
            /\ Forall (fun c => ~ is_update_seed_score c) l.
Proof.
  unfold update_seed_score. rewrite bind_run. cbn [enter value calls final].
  eexists. split; [reflexivity|].
  match goal with |- Forall _ (calls (?m st)) =>
    assert (H : respects (logs (fun c => ~ is_update_seed_score c)) m) end.
  { respects_walk.
    - eapply respects_weaken; [|apply _partial_update_seed_score_unseen].
      intros s l b s' [_ Hl]. exact Hl.
    - apply respects_updates; [typeclasses eauto|]. intros; constructor.
    - apply respects_updates; [typeclasses eauto|]. intros; constructor. }
  apply H.
Qed.

Lemma update_seed_score_log (a i : nat) (sc : fnum) (n : Z)
    (st : LevelSampler) (a' i' : nat) :
  Call_update_seed_score a' i' ∈ calls (update_seed_score a i sc n st)
  <-> a' = a /\ i' = i.
Proof.
  destruct (update_seed_score_calls a i sc n st) as (l & -> & Hl).
  rewrite elem_of_cons. split.
  - intros [[= -> ->]|Hin]; [done|].
    rewrite Forall_forall in Hl. exfalso. apply (Hl _ Hin). by exists a', i'.
  - intros [-> ->]. by left.
Qed.

(** The finalisations of one worker's loop over its done steps, when the
    loop returns: one for the segment that starts at [start_t] and one for
    each later segment that starts at a done step before the end of the
    batch and is ended by a further done step. *)
Lemma done_loop_log (sf : kwargs -> result fnum) (r : RolloutStorage)
    (T a : nat) (ds : list nat) :
  StronglySorted lt ds ->
  forall (s0 : nat) (st : LevelSampler) (s_end : nat),
    Forall (fun t => t = 0 \/ s0 < t) ds ->
    value (done_loop sf r T a ds s0 st) = Ok s_end ->
    forall a' i,
      Call_update_seed_score a' i ∈ calls (done_loop sf r T a ds s0 st)
      <-> a' = a
          /\ exists x,
               (x = s0 \/ (x ∈ ds /\ x <> 0)) /\ x < T
               /\ (exists t, t ∈ ds /\ t <> 0 /\ x < t)
               /\ seed_at r st x a i.
Proof.
  induction 1 as [|t ds Hsorted IH Hlt]; intros s0 st s_end Hall Hv a' i.
  - cbn. split.
    + intros H. by apply elem_of_nil in H.
    + intros (_ & x & _ & _ & (t & Ht & _) & _). by apply elem_of_nil in Ht.
  - apply Forall_cons in Hall as [Ht Hall]. cbn [done_loop] in Hv |- *.
    destruct (s0 <? T)%nat eqn:Es0; cbn [negb] in Hv |- *.
    2: { apply Nat.ltb_ge in Es0. cbn. split.
         - intros H. by apply elem_of_nil in H.
         - intros (_ & x & [->|[Hx Hx0]] & HxT & _); [lia|].
           apply elem_of_cons in Hx as [->|Hx].
           + destruct Ht; lia.
           + rewrite Forall_forall in Hall. destruct (Hall _ Hx); lia. }
    apply Nat.ltb_lt in Es0.
    destruct (t =? 0)%nat eqn:Et.
    { apply Nat.eqb_eq in Et. subst t.
      rewrite (IH s0 st s_end Hall Hv a' i). split.
      - intros (-> & x & Hx & HxT & (t & Ht' & Ht0 & Hxt) & Hseed).
        split; [done|]. exists x. split.
        { destruct Hx as [->|[Hx Hx0]]; [by left|right].
          split; [by apply list_elem_of_further|done]. }
        split; [done|]. split; [|done].
        exists t. split; [by apply list_elem_of_further|done].
      - intros (-> & x & Hx & HxT & (t & Ht' & Ht0 & Hxt) & Hseed).
        split; [done|]. exists x. split.
        { destruct Hx as [->|[Hx Hx0]]; [by left|right].
          apply elem_of_cons in Hx as [->|Hx]; done. }
        split; [done|]. split; [|done].
        exists t. apply elem_of_cons in Ht' as [->|Ht']; done. }
    apply Nat.eqb_neq in Et.
    assert (Hs0t : s0 < t) by (destruct Ht; lia).
    apply bind_Ok in Hv as (i0 & Hi0 & Hv & -> & _).
    destruct (silent_run _ st (seed_index_at_silent r s0 a)) as [E1 E2].
    rewrite E1 in Hv |- *. rewrite E2. clear E1 E2.
    apply seed_index_at_Ok in Hi0.
    apply bind_Ok in Hv as (k & _ & Hv & -> & _).
    destruct (silent_run _ st (segment_kwargs_silent r s0 (Some t) a))
      as [E1 E2].
    rewrite E1 in Hv |- *. rewrite E2. clear E1 E2.
    apply bind_Ok in Hv as (score & _ & Hv & -> & _).
    cbn [lift final calls] in Hv |- *.
    apply bind_Ok in Hv as ([] & _ & Hv & -> & _).
    set (o := update_seed_score a i0 score _ st) in *.
    assert (Hstatic : seed2index (final o) = seed2index st).
    { subst o. by destruct (update_seed_score_static a i0 score
                             (Z.of_nat (length (kw_episode_logits k))) st)
        as (_ & _ & H). }
    assert (Hall' : Forall (fun t' => t' = 0 \/ t < t') ds)
      by (eapply Forall_impl; [exact Hlt|]; intros; by right).
    cbn [app]. rewrite elem_of_app. subst o.
    rewrite update_seed_score_log.
    rewrite (IH t _ s_end Hall' Hv a' i).
    assert (Hseed : forall x j,
               seed_at r (final (update_seed_score a i0 score
                            (Z.of_nat (length (kw_episode_logits k))) st))
                       x a j
               <-> seed_at r st x a j).
    { intros x j. unfold seed_at. by rewrite Hstatic. }
    rewrite Forall_forall in Hlt.
    split.
    + intros [[-> ->]|(-> & x & Hx & HxT & (t' & Ht' & Ht0 & Hxt) & Hsx)].
      * split; [done|]. exists s0. split; [by left|]. split; [done|].
        split; [|done]. exists t. split; [apply list_elem_of_here|done].
      * split; [done|]. exists x. split.
        { right. destruct Hx as [->|[Hx Hx0]].
          - split; [apply list_elem_of_here|done].
          - split; [by apply list_elem_of_further|done]. }
        split; [done|]. split; [|by apply Hseed].
        exists t'. split; [by apply list_elem_of_further|done].
    + intros (-> & x & Hx & HxT & (t' & Ht' & Ht0 & Hxt) & Hsx).
      destruct Hx as [->|[Hx Hx0]].
      * left. split; [done|].
        destruct Hi0 as (sd & E1 & E2), Hsx as (sd' & E1' & E2').
        congruence.
      * right. split; [done|]. exists x.
        assert (Ht'' : t' ∈ ds).
        { apply elem_of_cons in Ht' as [->|Ht']; [|done].
          apply elem_of_cons in Hx as [->|Hx]; [lia|].
          specialize (Hlt _ Hx). lia. }
        split.
        { apply elem_of_cons in Hx as [->|Hx]; [by left|by right]. }
        split; [done|]. split; [|by apply Hseed]. by exists t'.
Qed.

Lemma update_actor_static (sf : kwargs -> result fnum) (r : RolloutStorage)
    (T a : nat) :
  respects static_frame (update_actor sf r T a).
Proof.
  unfold update_actor, seed_index_at, segment_kwargs. static_walk;
    try apply done_loop_static; apply _partial_update_seed_score_static.
Qed.

(** The finalisations of one worker: one per episode of the worker that
    ends inside the batch. *)
Lemma update_actor_log (sf : kwargs -> result fnum) (r : RolloutStorage)
    (a : nat) (st : LevelSampler) :
  value (update_actor sf r (length (action_log_dist r)) a st) = Ok tt ->
  forall a' i,
    Call_update_seed_score a' i
      ∈ calls (update_actor sf r (length (action_log_dist r)) a st)
    <-> a' = a
        /\ exists start, episode_ends_from r a start /\ seed_at r st start a i.
Proof.
  intros Hv a' i. unfold update_actor in Hv |- *.
  apply bind_Ok in Hv as (ds & Hds & Hv & -> & _).
  cbn [lift value final calls] in Hds, Hv |- *.
  apply done_steps_of_spec in Hds. subst ds.
  apply bind_Ok in Hv as (start_t & Hloop & _ & -> & _).
  cbn [app]. rewrite elem_of_app.
  match goal with
  | |- _ ∨ Call_update_seed_score a' i ∈ calls (?tail ?s) <-> _ =>
      assert (Htail : Call_update_seed_score a' i ∉ calls (tail s))
  end.
  { match goal with
    | |- _ ∉ calls (?tail ?s) =>
        assert (H : respects unseen_frame (fun st => tail st))
    end.
    { intros s. destruct (start_t <? length (action_log_dist r))%nat.
      - match goal with
        | |- unseen_frame s (calls (?m s)) _ _ =>
            assert (Hm : respects unseen_frame m)
        end.
        { respects_walk.
          - apply seed_index_at_unseen.
          - apply segment_kwargs_unseen.
          - apply _partial_update_seed_score_unseen. }
        apply Hm.
      - apply (respects_ret unseen_frame tt). }
    destruct (H (final (done_loop sf r (length (action_log_dist r)) a
                          (done_steps r a) 0 st))) as [_ Hl].
    intros Hin. unfold logs in Hl. rewrite Forall_forall in Hl.
    apply (Hl _ Hin). by exists a', i. }
  rewrite (done_loop_log sf r _ a _ (done_steps_sorted r a) 0 st start_t
             ltac:(apply Forall_forall; intros; lia) Hloop a' i).
  split.
  - intros [(-> & x & Hx & HxT & (t & Ht & _ & Hxt) & Hseed)|H]; [|done].
    split; [done|]. exists x. split; [|done]. split.
    { destruct Hx as [->|[Hx _]]; [by left|by right]. }
    split; [done|]. by exists t.
  - intros (-> & x & (Hx & HxT & (t & Ht & Hxt)) & Hseed). left.
    split; [done|]. exists x. split.
    { destruct Hx as [->|Hx]; [by left|].
      destruct (decide (x = 0)) as [->|Hx0]; [by left|by right]. }
    split; [done|]. split; [|done]. exists t. split; [done|]. split; lia.
Qed.

Lemma update_actors_log (sf : kwargs -> result fnum) (r : RolloutStorage)
    (l : list nat) :
  forall st,
    value (for_each (update_actor sf r (length (action_log_dist r))) l st)
    = Ok tt ->
    forall a i,
      Call_update_seed_score a i
        ∈ calls (for_each (update_actor sf r (length (action_log_dist r)))
                          l st)
      <-> a ∈ l
          /\ exists start, episode_ends_from r a start
                           /\ seed_at r st start a i.
Proof.
  induction l as [|a0 l IH]; intros st Hv a i.
  - cbn. split.
    + intros H. by apply elem_of_nil in H.
    + intros [H _]. by apply elem_of_nil in H.
  - cbn [for_each] in Hv |- *.
    apply bind_Ok in Hv as ([] & Hv0 & Hv & -> & _).
    rewrite elem_of_app, (update_actor_log sf r a0 st Hv0 a i), (IH _ Hv a i).
    destruct (update_actor_static sf r (length (action_log_dist r)) a0 st)
      as (_ & _ & Hstatic).
    unfold keeps in Hstatic. unfold seed_at. rewrite Hstatic.
    rewrite elem_of_cons. split.
    + intros [(-> & H)|(Hin & H)]; [by split; [left|]|by split; [right|]].
    + intros ([->|Hin] & H); [by left|by right].
Qed.

(** The finalisations of [update_with_rollouts], when it returns: it enters
    [update_seed_score] for the seed of index [i] exactly when the strategy
    scores episodes and the batch holds the end of an episode of that
    seed. *)
Lemma update_with_rollouts_log (r : RolloutStorage) (st : LevelSampler)
    (i : nat) :
  value (update_with_rollouts r st) = Ok tt ->
  (exists a, Call_update_seed_score a i ∈ calls (update_with_rollouts r st))
  <-> episode_ends r st i.
Proof.
  unfold update_with_rollouts, episode_ends. rewrite gets_bind_run.
  destruct (strategy (config st) =? "random") eqn:Es.
  - apply String.eqb_eq in Es. intros _. cbn. split.
    + intros [a H]. by apply elem_of_nil in H.
    + intros [H _]. done.
  - apply String.eqb_neq in Es. rewrite gets_bind_run. intros Hv.
    apply bind_Ok in Hv as (sf & _ & Hv & -> & _).
    match goal with
    | |- context [calls (?sel st)] =>
        assert (Hsel : respects silent sel) by respects_walk
    end.
    destruct (silent_run _ st Hsel) as [E1 E2].
    rewrite E1 in Hv |- *. rewrite E2. clear E1 E2 Hsel. cbn [app].
    unfold _update_with_rollouts in Hv |- *. cbv zeta in Hv |- *.
    split.
    + intros [a H].
      apply (update_actors_log sf r _ st Hv a i) in H as [Ha H].
      split; [done|]. exists a.
      destruct H as (start & H1 & H2). exists start.
      apply elem_of_seq in Ha. split; [lia|done].
    + intros (_ & a & start & Ha & H1 & H2). exists a.
      apply (update_actors_log sf r _ st Hv a i). split.
      * apply elem_of_seq. lia.
      * by exists start.
Qed.

(** ** The unseen flags, operation by operation *)

(** What an operation does that clears the unseen flag of the seed of
    index [i]: [update_with_rollouts] on a batch that holds the end of an
    episode of the seed, [after_update] on a non-zero partial score of the
    seed; [sample] clears nothing. *)
Definition clears (op : operation) (self : LevelSampler) (i : nat) : Prop :=
  match op with
  | Op_update_with_rollouts r => episode_ends r self i
  | Op_after_update => flushes self i
  | Op_sample _ _ => False
  end.

Lemma flushes_pending (W N : nat) (self : LevelSampler) (s : nat) :
  shaped W N self -> s < N ->
  existsb (fun pn : fnum * Z => fne (fst pn) f0) (pending s self) = true
  <-> flushes self s.
Proof.
  intros Hsh Hs. rewrite existsb_exists. unfold flushes. split.
  - intros ([p n] & Hin & Hne). cbn [fst] in Hne.
    apply list_elem_of_In, list_elem_of_lookup in Hin as [a Ha].
    apply (pending_lookup W N s self a p n Hsh Hs) in Ha as [E1 _].
    by exists a, p.
  - intros (a & p & E1 & Hne).
    assert (Ha : a < W).
    { apply index2_Ok in E1 as (row & Hrow & _).
      apply lookup_lt_Some in Hrow. destruct Hsh as (L & _). lia. }
    destruct (pending_in_range W N s self a Hsh Hs Ha) as (p' & n & Hpn).
    pose proof Hpn as Hpn'.
    apply (pending_lookup W N s self a p' n Hsh Hs) in Hpn' as [E1' _].
    assert (p' = p) as -> by congruence.
    exists (p, n). split; [|done].
    apply list_elem_of_In, list_elem_of_lookup. by exists a.
Qed.

Lemma ok_unit (v : result unit) : is_ok v = true -> v = Ok tt.
Proof. by destruct v as [[]|]. Qed.

(** An operation that returns clears the flags [clears] names, and no
    other. *)
Lemma run_clears (op : operation) (self : LevelSampler) (W i : nat) :
  shaped W (length (seeds self)) self -> i < length (seeds self) ->
  is_ok (value (run op self)) = true ->
  (clears op self i ->
     unseen_seed_weights (final (run op self)) !! i = Some f0)
  /\ (~ clears op self i ->
      unseen_seed_weights (final (run op self)) !! i
      = unseen_seed_weights self !! i).
Proof.
  intros Hsh Hi Hok. destruct op as [r| |strategy_arg d]; cbn [run clears] in *.
  - apply ok_unit in Hok.
    pose proof (update_with_rollouts_unseen r self) as [H1 H2].
    rewrite Hok in H2. cbn [is_ok] in H2.
    pose proof (update_with_rollouts_log r self i Hok) as Hlog. split.
    + intros Hc. apply Hlog in Hc as [a Ha]. by apply (H2 eq_refl a).
    + intros Hn. destruct (H1 i) as [E|(_ & _ & a & Ha)]; [exact E|].
      exfalso. apply Hn, Hlog. by exists a.
  - destruct (lookup_lt_is_Some_2 (seed_scores self) i) as [old Hold].
    { destruct Hsh as (_ & _ & _ & _ & _ & L). lia. }
    destruct (after_update_column W _ i old self Hsh Hi Hold)
      as (_ & _ & _ & Hun).
    pose proof (flushes_pending W _ self i Hsh Hi) as Hf.
    rewrite Hun. split.
    + intros Hc. apply Hf in Hc. by rewrite Hc.
    + intros Hn. destruct (existsb _ (pending i self)); [|done].
      exfalso. by apply Hn, Hf.
  - split; [done|]. intros _.
    assert (H : respects unseen_frame (sample strategy_arg d;; mret tt)).
    { respects_walk. apply sample_unseen. }
    destruct (H self) as [E _]. unfold keeps in E. by rewrite E.
Qed.

(** States reached from a fresh sampler by operations that return normally,
    with the operations applied and the state each was applied to. *)
Inductive history : LevelSampler -> list (operation * LevelSampler) -> Prop :=
| history_init (pool : list Z) (num_actors : nat) (c : Config) :
    history (__init__ pool num_actors c) []
| history_step (s : LevelSampler) (h : list (operation * LevelSampler))
    (op : operation) :
    history s h ->
    is_ok (value (run op s)) = true ->
    history (final (run op s)) (h ++ [(op, s)]).

Lemma history_reachable (s : LevelSampler)
    (h : list (operation * LevelSampler)) :
  history s h -> exists l, reachable s l.
Proof.
  induction 1 as [pool n c|s h op _ [l IH] Hok].
  - exists []. constructor.
  - eexists. by apply reachable_step.
Qed.

Lemma history_shaped (s : LevelSampler)
    (h : list (operation * LevelSampler)) :
  history s h -> exists W, shaped W (length (seeds s)) s.
Proof.
  intros H. destruct (history_reachable s h H) as [l Hr].
  destruct (reachable_dims s l Hr) as [W Hd]. exists W.
  by apply dims_shaped in Hd as [Hsh _].
Qed.

(** C6 (as amended). Unseen-flag invariant.  No operation
    (update_with_rollouts, after_update, sample) ever sets a cleared flag
    back: a flag that is 0 stays 0.  And in every state reached from the
    constructor by operations that returned, the flag of a seed is exactly
    0 if, at some operation of the history, an episode of the seed ended
    inside the batch given to [update_with_rollouts] (under a strategy
    other than 'random') or [after_update] found a non-zero partial score
    of the seed to flush, and exactly 1 otherwise. *)
Theorem unseen_flag_cleared_once :
  (forall (op : operation) (self : LevelSampler) (i : nat),
      unseen_seed_weights self !! i = Some f0 ->
      unseen_seed_weights (final (run op self)) !! i = Some f0)
  /\ (forall (s : LevelSampler) (h : list (operation * LevelSampler)),
        history s h ->
        forall i, i < length (seeds s) ->
          ((exists op s', (op, s') ∈ h /\ clears op s' i) ->
           unseen_seed_weights s !! i = Some f0)
          /\ (~ (exists op s', (op, s') ∈ h /\ clears op s' i) ->
              unseen_seed_weights s !! i = Some f1)).
Proof.
  assert (Hmono : forall (op : operation) (self : LevelSampler) (i : nat),
             unseen_seed_weights self !! i = Some f0 ->
             unseen_seed_weights (final (run op self)) !! i = Some f0).
  { intros op self i H. destruct (run_unseen op self) as [H1 _].
    destruct (H1 i) as [E|(_ & E & _)]; congruence. }
  split; [exact Hmono|].
  induction 1 as [pool n c|s h op Hh IH Hok]; intros i Hi.
  - cbn in Hi |- *. split.
    + intros (op & s' & Hin & _). by apply elem_of_nil in Hin.
    + intros _. by apply lookup_replicate_2.
  - pose proof (run_static op s) as (_ & Hseeds & _).
    unfold keeps in Hseeds. rewrite Hseeds in Hi.
    destruct (history_shaped s h Hh) as [W Hsh].
    destruct (run_clears op s W i Hsh Hi Hok) as [Hc Hn].
    destruct (IH i Hi) as [IH0 IH1]. split.
    + intros (op' & s' & Hin & Hcl).
      apply elem_of_app in Hin as [Hin|Hin].
      * apply Hmono, IH0. by exists op', s'.
      * apply list_elem_of_singleton in Hin. injection Hin as -> ->.
        by apply Hc.
    + intros Hnone. rewrite Hn.
      * apply IH1. intros (op' & s' & Hin & Hcl). apply Hnone.
        exists op', s'. split; [|done]. apply elem_of_app. by left.
      * intros Hcl. apply Hnone. exists op, s. split; [|done].
        apply elem_of_app. right. by apply list_elem_of_singleton.
Qed.

End Sampler.

(** ** Closed instances *)

(** The executions below use the value-based score functions and the
    'power' transform at temperature 1 or the 'max' transform.  None of
    them consults [exp] or [log] for what it asserts, and the only power
    taken is the first one. *)
Definition not_consulted (x : fnum) : fnum := NaN.

Definition first_power (x e : fnum) : fnum := if feq e f1 then x else NaN.

(** The constructor's defaults, with the strategy, the score transform and
    the staleness coefficient chosen per example. *)
Definition example_config (strategy transform : string) (coef : Qc) : Config :=
  {| num_actions := 2;
     strategy := strategy;
     replay_schedule := "fixed";
     score_transform := transform;
     temperature := 1%Qc;
     eps := Q2Qc (1 # 20);
     rho := Q2Qc (1 # 5);
     nu := Q2Qc (1 # 2);
     alpha := 1%Qc;
     staleness_coef := coef;
     staleness_transform := "power";
     staleness_temperature := 1%Qc |}.

(** One worker, three steps: the episode on seed 10 ends after two steps
    (returns 3, 2 against value estimates 1, 1), and a new episode on seed 11
    has begun (return 1 against value estimate 1). *)
Definition batch_episode_ends : RolloutStorage :=
  {| level_seeds := [[10%Z]; [10%Z]; [11%Z]];
     action_log_dist := [[[f0; f0]]; [[f0; f0]]; [[f0; f0]]];
     masks := [[f1]; [f1]; [f0]];
     returns := [[fZ 3]; [fZ 2]; [fZ 1]];
     rewards := [[fZ 1]; [fZ 1]; [fZ 1]];
     value_preds := [[fZ 1]; [fZ 1]; [fZ 1]] |}.

(** One worker, two steps on seed 10, no episode end: returns 3, 2 against
    value estimates 1, 1. *)
Definition batch_unfinished : RolloutStorage :=
  {| level_seeds := [[10%Z]; [10%Z]];
     action_log_dist := [[[f0; f0]]; [[f0; f0]]];
     masks := [[f1]; [f1]];
     returns := [[fZ 3]; [fZ 2]];
     rewards := [[fZ 1]; [fZ 1]];
     value_preds := [[fZ 1]; [fZ 1]] |}.

(** The same two steps with returns equal to the value estimates: the
    segment's value-L1 score is exactly 0. *)
Definition batch_unfinished_zero : RolloutStorage :=
  {| level_seeds := [[10%Z]; [10%Z]];
     action_log_dist := [[[f0; f0]]; [[f0; f0]]];
     masks := [[f1]; [f1]];
     returns := [[fZ 1]; [fZ 1]];
     rewards := [[fZ 1]; [fZ 1]];
     value_preds := [[fZ 1]; [fZ 1]] |}.

Definition example_draws : draws :=
  {| rand := Q2Qc (9 # 10);
     choice_sample := Q2Qc (1 # 2);
     choice_index := 0;
     tie_scores := 0;
     tie_staleness := 0 |}.

Definition exec (op : operation) (self : LevelSampler) : outcome unit :=
  run not_consulted not_consulted first_power op self.

(** A fresh sampler over two seeds. *)
Definition fresh_two (strategy transform : string) (coef : Qc) : LevelSampler :=
  __init__ [10%Z; 11%Z] 1 (example_config strategy transform coef).

(** One of two seeds seen: seed 10 has a finalised score 3/2, seed 11 is
    unseen with a pending partial score 0 over one step. *)
Definition one_seen (transform : string) (coef : Qc) : LevelSampler :=
  final (exec (Op_update_with_rollouts batch_episode_ends)
              (fresh_two "value_l1" transform coef)).

(** A single seed with a pending partial score 3/2 over two steps. *)
Definition pending_partial : LevelSampler :=
  final (exec (Op_update_with_rollouts batch_unfinished)
              (__init__ [10%Z] 1 (example_config "value_l1" "power" 0%Qc))).

(** A single seed, seen: its first episode has ended (and the next one on
    the same seed has begun). *)
Definition batch_restart : RolloutStorage :=
  {| level_seeds := [[10%Z]; [10%Z]; [10%Z]];
     action_log_dist := [[[f0; f0]]; [[f0; f0]]; [[f0; f0]]];
     masks := [[f1]; [f1]; [f0]];
     returns := [[fZ 3]; [fZ 2]; [fZ 1]];
     rewards := [[fZ 1]; [fZ 1]; [fZ 1]];
     value_preds := [[fZ 1]; [fZ 1]; [fZ 1]] |}.

Definition all_seen : LevelSampler :=
  final (exec (Op_update_with_rollouts batch_restart)
              (__init__ [10%Z] 1 (example_config "value_l1" "power" 0%Qc))).

(** Five seeds of which one is seen: the specification's scenario for the
    fixed schedule (rho = 0.2, nu = 0.5, a uniform draw of 0.9). *)
Definition five_one_seen : LevelSampler :=
  final (exec (Op_update_with_rollouts batch_episode_ends)
              (__init__ [10%Z; 11%Z; 12%Z; 13%Z; 14%Z] 1
                    (example_config "value_l1" "power" 0%Qc))).

(** A segment of three steps for the TD-error score. *)
Definition td_segment : kwargs :=
  {| kw_episode_logits := [];
     kw_returns := None;
     kw_rewards := Some [fZ 1; fZ 2; fZ 3];
     kw_value_preds := Some [fZ 1; fZ 1; fZ 1] |}.

(** After one call of [sample()] on a fresh sampler with staleness
    weighting: seed 11 (index 1) was selected, seed 10 has staleness 1. *)
Definition after_first_sample : LevelSampler :=
  final (sample not_consulted first_power None example_draws
                (fresh_two "value_l1" "power" (Q2Qc (1 # 10)))).

(** ... and after seed 11's episode has then ended: the only seen seed is
    the one selected last. *)
Definition batch_episode_ends_11 : RolloutStorage :=
  {| level_seeds := [[11%Z]; [11%Z]; [10%Z]];
     action_log_dist := [[[f0; f0]]; [[f0; f0]]; [[f0; f0]]];
     masks := [[f1]; [f1]; [f0]];
     returns := [[fZ 3]; [fZ 2]; [fZ 1]];
     rewards := [[fZ 1]; [fZ 1]; [fZ 1]];
     value_preds := [[fZ 1]; [fZ 1]; [fZ 1]] |}.

Definition last_selected_only_seen : LevelSampler :=
  final (exec (Op_update_with_rollouts batch_episode_ends_11)
              after_first_sample).

Ltac by_evaluation := apply (bool_decide_unpack _); vm_compute; exact I.
Ltac differs_by_evaluation :=
  apply (bool_decide_eq_false_1 _); vm_compute; reflexivity.

(** C1 at a concrete input: two segments (score 1 over 2 steps, score 3
    over 2 steps) merged into a fresh accumulator. *)
Lemma merge_is_weighted_mean_witness :
  value ((feed_partial 0 0 [(1%Qc, 2%Z)];;
          _partial_update_seed_score 0 0 (Fin (Q2Qc 3)) 2 false)
           (fresh_two "value_l1" "power" 0%Qc))
  = Ok (Fin (weighted_mean ([(1%Qc, 2%Z)] ++ [(Q2Qc 3, 2%Z)]))).
Proof.
  apply (merge_is_weighted_mean (fresh_two "value_l1" "power" 0%Qc) 0 0
           [(1%Qc, 2%Z)] (Q2Qc 3) 2 false).
  - reflexivity.
  - reflexivity.
  - repeat constructor; by vm_compute.
Defined.

(** C9 at a concrete input: a segment of three steps. *)
Lemma one_step_td_error_witness :
  _one_step_td_error td_segment
  = Ok (td_error_spec [fZ 1; fZ 2; fZ 3] [fZ 1; fZ 1; fZ 1]).
Proof.
  apply (one_step_td_error_is_mean_abs_td td_segment).
  - reflexivity.
  - reflexivity.
  - cbn. lia.
  - cbn. lia.
Defined.

(** C10 at a concrete input: a sampler under the 'random' strategy. *)
Lemma update_with_rollouts_random_witness :
  update_with_rollouts not_consulted not_consulted batch_episode_ends
                       (fresh_two "random" "power" 0%Qc)
  = Outcome (fresh_two "random" "power" 0%Qc) [] (Ok tt).
Proof.
  apply (update_with_rollouts_random_noop not_consulted not_consulted).
  reflexivity.
Defined.

(** With staleness weighting enabled the returned weights can also sum to
    neither 0 nor 1: when the only seen seed is the one selected last, the
    staleness weights have no mass, [sample_weights()] sums to
    1 - staleness_coef = 9/10, no fallback applies, and [sample()] raises
    [ValueError] inside [np.random.choice]. *)
Lemma sample_raises_without_staleness_mass :
  value (sample_weights not_consulted first_power example_draws
           last_selected_only_seen)
  = Ok [f0; Fin (Q2Qc (9 # 10))]
  /\ value (sample not_consulted first_power None example_draws
              last_selected_only_seen)
     = Raise ValueError.
Proof. split; by_evaluation. Qed.

(** C3, evaluated at the failing input: with the 'max' score transform and
    seed 11 still unseen, [sample_weights()] overwrites seed_scores[1]
    with -inf, directly and through [sample()]. *)
Lemma max_transform_overwrites_seed_scores :
  seed_scores (one_seen "max" 0%Qc) !! 1 = Some f0
  /\ seed_scores
       (final (sample_weights not_consulted first_power example_draws
                 (one_seen "max" 0%Qc))) !! 1
     = Some NInf
  /\ value (sample not_consulted first_power None example_draws
              (one_seen "max" 0%Qc))
     = Ok 10%Z
  /\ seed_scores
       (final (sample not_consulted first_power None example_draws
                 (one_seen "max" 0%Qc))) !! 1
     = Some NInf.
Proof. repeat split; by_evaluation. Qed.

(** ** Further properties at concrete inputs *)

(** X1 at a concrete input: a sampler configured with 'sequential', which
    [sample] accepts and [update_with_rollouts] does not. *)
Lemma update_with_rollouts_unsupported_strategy_witness :
  update_with_rollouts not_consulted not_consulted batch_episode_ends
                       (fresh_two "sequential" "power" 0%Qc)
  = Outcome (fresh_two "sequential" "power" 0%Qc) [] (Raise ValueError).
Proof.
  apply (update_with_rollouts_unsupported_strategy not_consulted
           not_consulted).
  - by vm_compute.
  - unfold supported_strategy. vm_compute.
    intros [H|[H|[H|[H|[H|H]]]]]; discriminate.
Defined.

(** A segment of a single step. *)
Definition single_step_segment : kwargs :=
  {| kw_episode_logits := [];
     kw_returns := None;
     kw_rewards := Some [fZ 1];
     kw_value_preds := Some [fZ 1; fZ 2] |}.

(** X2 at a concrete input. *)
Lemma one_step_td_error_single_step_witness :
  _one_step_td_error single_step_segment = Ok NaN.
Proof.
  apply (one_step_td_error_single_step single_step_segment (fZ 1)
           [fZ 1; fZ 2]); reflexivity.
Defined.

(** The same object under another replay schedule. *)
Definition with_schedule (schedule : string) (self : LevelSampler)
  : LevelSampler :=
  {| config :=
       {| num_actions := num_actions (config self);
          strategy := strategy (config self);
          replay_schedule := schedule;
          score_transform := score_transform (config self);
          temperature := temperature (config self);
          eps := eps (config self);
          rho := rho (config self);
          nu := nu (config self);
          alpha := alpha (config self);
          staleness_coef := staleness_coef (config self);
          staleness_transform := staleness_transform (config self);
          staleness_temperature := staleness_temperature (config self) |};
     seeds := seeds self;
     seed2index := seed2index self;
     unseen_seed_weights := unseen_seed_weights self;
     seed_scores := seed_scores self;
     partial_seed_scores := partial_seed_scores self;
     partial_seed_steps := partial_seed_steps self;
     seed_staleness := seed_staleness self;
     next_seed_index := next_seed_index self |}.


(** X4 at a concrete input: a 'random' draw on five seeds. *)
Lemma sample_random_is_pure_witness :
  exists seed,
    seeds five_one_seen
      !! (choice_index example_draws mod length (seeds five_one_seen))
    = Some seed
    /\ sample not_consulted first_power (Some "random") example_draws
              five_one_seen
       = Outcome five_one_seen [] (Ok seed).
Proof.
  destruct (sample_random_is_pure not_consulted first_power (Some "random")
              example_draws five_one_seen) as [_ H].
  - reflexivity.
  - apply H. by vm_compute.
Defined.

(** X5 at a concrete input: two 'sequential' calls on a pool of two. *)
Lemma sequential_round_robin_witness :
  sample_each not_consulted first_power (Some "sequential")
              [example_draws; example_draws]
              (fresh_two "value_l1" "power" 0%Qc)
  = Outcome (fresh_two "value_l1" "power" 0%Qc) []
      (Ok (drop (next_seed_index (fresh_two "value_l1" "power" 0%Qc))
                (seeds (fresh_two "value_l1" "power" 0%Qc))
           ++ take (next_seed_index (fresh_two "value_l1" "power" 0%Qc))
                   (seeds (fresh_two "value_l1" "power" 0%Qc)))%list).
Proof.
  apply (sequential_round_robin not_consulted first_power (Some "sequential")
           [example_draws; example_draws]
           (fresh_two "value_l1" "power" 0%Qc)).
  - reflexivity.
  - vm_compute. lia.
  - reflexivity.
Defined.

(** X6 at a concrete input: the replayed seed of the five-seed scenario. *)
Lemma sample_returns_pool_seed_witness : 10%Z ∈ seeds five_one_seen.
Proof.
  apply (sample_returns_pool_seed not_consulted first_power None
           example_draws five_one_seen 10%Z).
  by_evaluation.
Defined.

(** X10 at a concrete input: one worker, one seed, a pending partial
    score. *)
Lemma after_update_clears_and_is_idempotent_witness :
  value (after_update pending_partial) = Ok tt
  /\ partial_seed_scores (final (after_update pending_partial))
     = replicate 1 (replicate 1 f0)
  /\ partial_seed_steps (final (after_update pending_partial))
     = replicate 1 (replicate 1 0%Z)
  /\ after_update (final (after_update pending_partial))
     = Outcome (final (after_update pending_partial)) [] (Ok tt).
Proof.
  apply (after_update_clears_and_is_idempotent 1 1 pending_partial).
  unfold shaped. vm_compute. repeat split; repeat constructor.
Defined.

(** X11 at a concrete input: the pending partial score 3/2 over two steps
    is finalised with alpha = 1. *)
Lemma update_seed_score_replaces_witness :
  seed_scores (final (update_seed_score 0 0 f0 0 pending_partial)) !! 0
  = Some (merge (Fin (Q2Qc (3 # 2))) 2 f0 0).
Proof.
  destruct (update_seed_score_replaces_when_alpha_is_one pending_partial 0 0
              f0 0%Z (Fin (Q2Qc (3 # 2))) 2%Z 0%Qc) as (_ & H & _).
  - by_evaluation.
  - by_evaluation.
  - by_evaluation.
  - vm_compute. lia.
  - by_evaluation.
  - exact H.
Defined.

(** X12 at a concrete input: the same sampler with a score that is NaN. *)
Lemma update_seed_score_keeps_nan_witness :
  value (update_seed_score 0 0 f1 1 (set_seed_scores [NaN] pending_partial))
  = Ok tt
  /\ seed_scores
       (final (update_seed_score 0 0 f1 1
                 (set_seed_scores [NaN] pending_partial))) !! 0
     = Some NaN.
Proof.
  apply (update_seed_score_keeps_nan (set_seed_scores [NaN] pending_partial)
           0 0 f1 1%Z (Fin (Q2Qc (3 # 2))) 2%Z NaN).
  - by_evaluation.
  - by_evaluation.
  - vm_compute. lia.
  - reflexivity.
  - by left.
Defined.

(** X14 at a concrete input: a replay under the 'power' transform with
    staleness weighting disabled. *)
Lemma sample_is_read_only_witness :
  final (sample not_consulted first_power None example_draws five_one_seen)
  = five_one_seen.
Proof.
  apply (sample_is_read_only not_consulted first_power None example_draws
           five_one_seen).
  - by vm_compute.
  - by vm_compute.
  - by vm_compute.
Defined.

(** X17 at a concrete input: the state reached from a fresh sampler by one
    [update_with_rollouts]. *)
Lemma sequential_cursor_in_range_witness :
  next_seed_index (one_seen "power" 0%Qc)
  < length (seeds (one_seen "power" 0%Qc)).
Proof.
  destruct (sequential_cursor_in_range not_consulted not_consulted first_power
              (one_seen "power" 0%Qc)
              ([] ++ calls (exec (Op_update_with_rollouts batch_episode_ends)
                                 (fresh_two "value_l1" "power" 0%Qc)))
              None example_draws) as [H _].
  - apply (reachable_step not_consulted not_consulted first_power
             (fresh_two "value_l1" "power" 0%Qc) []
             (Op_update_with_rollouts batch_episode_ends)).
    + apply reachable_init.
    + by vm_compute.
  - by vm_compute.
  - exact H.
Defined.

(** X18 at a concrete input: of two seeds the second is unseen. *)
Lemma unseen_level_draws_unseen_seed_witness :
  exists idx seed,
    value (_sample_unseen_level example_draws (one_seen "power" 0%Qc))
    = Ok seed
    /\ seeds (one_seen "power" 0%Qc) !! idx = Some seed
    /\ unseen_seed_weights (one_seen "power" 0%Qc) !! idx = Some f1.
Proof.
  destruct (unseen_level_draws_unseen_seed example_draws
              (one_seen "power" 0%Qc)) as [H _].
  - unfold is_flag. by_evaluation.
  - reflexivity.
  - reflexivity.
  - by vm_compute.
  - by vm_compute.
  - apply H. exists 1. by_evaluation.
Defined.

(** The weights [sample_weights()] returns when one of two seeds is
    seen. *)
Definition one_seen_weights : list fnum :=
  match value (sample_weights not_consulted first_power example_draws
                 (one_seen "power" 0%Qc)) with
  | Ok w => w
  | Raise _ => []
  end.

(** X19 at a concrete input: the replayed seed is the seen one. *)
Lemma replay_level_draws_seen_seed_witness :
  exists idx,
    seeds (one_seen "power" 0%Qc) !! idx = Some 10%Z
    /\ unseen_seed_weights (one_seen "power" 0%Qc) !! idx = Some f0.
Proof.
  apply (replay_level_draws_seen_seed not_consulted first_power example_draws
           (one_seen "power" 0%Qc) one_seen_weights 10%Z).
  - unfold is_flag. by_evaluation.
  - reflexivity.
  - reflexivity.
  - reflexivity.
  - by vm_compute.
  - by vm_compute.
  - by_evaluation.
  - by vm_compute.
  - by_evaluation.
Defined.



(** One worker, two steps on seed 10; the done flag at step 0 closes the
    episode of the previous batch. *)
Definition batch_done_at_start : RolloutStorage :=
  {| level_seeds := [[10%Z]; [10%Z]];
     action_log_dist := [[[f0; f0]]; [[f0; f0]]];
     masks := [[f0]; [f1]];
     returns := [[fZ 3]; [fZ 2]];
     rewards := [[fZ 1]; [fZ 1]];
     value_preds := [[fZ 1]; [fZ 1]] |}.

(** X22 at a concrete input. *)
Lemma unfinished_batch_finalises_nothing_witness :
  seed_scores (final (update_with_rollouts not_consulted not_consulted
                        batch_done_at_start
                        (fresh_two "value_l1" "power" 0%Qc)))
  = seed_scores (fresh_two "value_l1" "power" 0%Qc)
  /\ unseen_seed_weights
       (final (update_with_rollouts not_consulted not_consulted
                 batch_done_at_start (fresh_two "value_l1" "power" 0%Qc)))
     = unseen_seed_weights (fresh_two "value_l1" "power" 0%Qc)
  /\ Forall (fun c => ~ is_update_seed_score c)
            (calls (update_with_rollouts not_consulted not_consulted
                      batch_done_at_start
                      (fresh_two "value_l1" "power" 0%Qc))).
Proof.
  apply (unfinished_batch_finalises_nothing not_consulted not_consulted
           batch_done_at_start (fresh_two "value_l1" "power" 0%Qc)).
  cbn. repeat constructor.
Defined.

(** X23 at a concrete input: a misspelt transform name. *)
Lemma unknown_transform_is_unbound_witness :
  _score_transform not_consulted first_power "sofmax" 1%Qc Ref_seed_scores 0
                   all_seen
  = Outcome all_seen [] (Raise UnboundLocalError).
Proof.
  refine (proj1 (unknown_transform_is_unbound not_consulted first_power
                   "sofmax" 1%Qc Ref_seed_scores 0 example_draws all_seen
                   _ _ _ _ _ _));
    discriminate.
Defined.



(** X25 at a concrete input: the first [sample] of a fresh sampler. *)
Lemma nothing_seen_samples_unseen_witness :
  sample not_consulted first_power None example_draws
         (fresh_two "value_l1" "power" 0%Qc)
  = _sample_unseen_level example_draws (fresh_two "value_l1" "power" 0%Qc)
  /\ exists seed,
       value (sample not_consulted first_power None example_draws
                     (fresh_two "value_l1" "power" 0%Qc)) = Ok seed
       /\ seed ∈ seeds (fresh_two "value_l1" "power" 0%Qc).
Proof.
  apply (nothing_seen_samples_unseen not_consulted first_power None
           example_draws (fresh_two "value_l1" "power" 0%Qc)).
  - split; by vm_compute.
  - by vm_compute.
  - discriminate.
  - cbn. repeat constructor.
  - reflexivity.
  - reflexivity.
  - by vm_compute.
  - by vm_compute.
Defined.

(** X27 at a concrete input: of two seeds the first is seen. *)
Lemma constant_transform_is_uniform_over_seen_witness :
  sample_weights not_consulted first_power example_draws
                 (one_seen "constant" 0%Qc)
  = Outcome (one_seen "constant" 0%Qc) []
      (Ok (map (fun u =>
                  fdiv (fsub f1 u)
                       (fN (length (unseen_seed_weights
                                      (one_seen "constant" 0%Qc))
                            - num_unseen (one_seen "constant" 0%Qc))))
               (unseen_seed_weights (one_seen "constant" 0%Qc)))).
Proof.
  apply (constant_transform_is_uniform_over_seen not_consulted first_power
           example_draws (one_seen "constant" 0%Qc)).
  - reflexivity.
  - by vm_compute.
  - unfold is_flag. by_evaluation.
  - reflexivity.
  - vm_compute. lia.
Defined.



(** X29 at a concrete input: of two seeds the first is seen, with score
    3/2. *)
Lemma max_transform_picks_best_seen_witness :
  exists j x M,
    value (_score_transform not_consulted first_power "max" 1%Qc
             Ref_seed_scores 0 (one_seen "max" 0%Qc))
    = Ok (<[j := f1]> (map (fun _ => f0) (seed_scores (one_seen "max" 0%Qc))))
    /\ unseen_seed_weights (one_seen "max" 0%Qc) !! j = Some f0
    /\ seed_scores (one_seen "max" 0%Qc) !! j = Some (Fin x)
    /\ isclose (Fin x) (Fin M) = true
    /\ (exists i, unseen_seed_weights (one_seen "max" 0%Qc) !! i = Some f0
                  /\ seed_scores (one_seen "max" 0%Qc) !! i = Some (Fin M))
    /\ (forall i y,
          unseen_seed_weights (one_seen "max" 0%Qc) !! i = Some f0 ->
          seed_scores (one_seen "max" 0%Qc) !! i = Some (Fin y) ->
          (y <= M)%Qc).
Proof.
  apply (max_transform_picks_best_seen not_consulted first_power 1%Qc 0
           (one_seen "max" 0%Qc)).
  - unfold all_finite. by_evaluation.
  - unfold is_flag. by_evaluation.
  - reflexivity.
  - exists 0. by_evaluation.
Defined.

(** ** Sampling, flushing and unseen flags at concrete inputs *)

(** The same object with another staleness transform. *)
Definition with_staleness_transform (transform : string) (self : LevelSampler)
  : LevelSampler :=
  {| config :=
       {| num_actions := num_actions (config self);
          strategy := strategy (config self);
          replay_schedule := replay_schedule (config self);
          score_transform := score_transform (config self);
          temperature := temperature (config self);
          eps := eps (config self);
          rho := rho (config self);
          nu := nu (config self);
          alpha := alpha (config self);
          staleness_coef := staleness_coef (config self);
          staleness_transform := transform;
          staleness_temperature := staleness_temperature (config self) |};
     seeds := seeds self;
     seed2index := seed2index self;
     unseen_seed_weights := unseen_seed_weights self;
     seed_scores := seed_scores self;
     partial_seed_scores := partial_seed_scores self;
     partial_seed_steps := partial_seed_steps self;
     seed_staleness := seed_staleness self;
     next_seed_index := next_seed_index self |}.

(** Draws whose uniform sample for [np.random.choice] is 1/4. *)
Definition low_draws : draws :=
  {| rand := Q2Qc (9 # 10);
     choice_sample := Q2Qc (1 # 4);
     choice_index := 0;
     tie_scores := 0;
     tie_staleness := 0 |}.

(** Three seeds with staleness weighting: [sample()] has selected seed 11,
    then seed 10, and seed 11's episode has then ended.  Seed 11 is the
    only seen seed; the stalenesses are 0, 1, 2. *)
Definition replay_ready : LevelSampler :=
  final (exec (Op_update_with_rollouts batch_episode_ends_11)
           (final (sample not_consulted first_power None low_draws
                     (final (sample not_consulted first_power None
                               example_draws
                               (__init__ [10%Z; 11%Z; 12%Z] 1
                                  (example_config "value_l1" "power"
                                     (Q2Qc (1 # 10))))))))).

(** Two seeds with staleness weighting under the 'max' staleness
    transform. *)
Definition fresh_max : LevelSampler :=
  with_staleness_transform "max"
    (fresh_two "value_l1" "power" (Q2Qc (1 # 10))).

(** ... after [sample()] has selected seed 11 and seed 11's episode has
    ended: seed 10 is unseen with staleness 1, seed 11 is seen with
    staleness 0. *)
Definition max_unseen_stale : LevelSampler :=
  final (exec (Op_update_with_rollouts batch_episode_ends_11)
           (final (sample not_consulted first_power None example_draws
                     fresh_max))).

(** C8 (as amended) at concrete inputs.  On the replay path under the
    'power' transform [sample()] returns seed 11 from stalenesses 0, 1, 2;
    on the unseen path under the 'max' transform it returns seed 11 from
    stalenesses 0, 0.  In both the selected seed's staleness is 0
    afterwards and every other staleness is one more than before. *)
Lemma staleness_reset_witness :
  (seed_staleness replay_ready = [f0; f1; fZ 2]
   /\ Call_sample_replay_level
        ∈ calls (sample not_consulted first_power None example_draws
                   replay_ready)
   /\ exists idx,
        seeds replay_ready !! idx = Some 11%Z
        /\ seed_staleness
             (final (sample not_consulted first_power None example_draws
                       replay_ready)) !! idx = Some f0
        /\ forall j x, j <> idx ->
             seed_staleness replay_ready !! j = Some x ->
             seed_staleness
               (final (sample not_consulted first_power None example_draws
                         replay_ready)) !! j = Some (fadd x f1))
  /\ (staleness_transform (config fresh_max) = "max"
      /\ exists idx,
           seeds fresh_max !! idx = Some 11%Z
           /\ seed_staleness
                (final (sample not_consulted first_power None example_draws
                          fresh_max)) !! idx = Some f0
           /\ forall j x, j <> idx ->
                seed_staleness fresh_max !! j = Some x ->
                seed_staleness
                  (final (sample not_consulted first_power None example_draws
                            fresh_max)) !! j = Some (fadd x f1)).
Proof.
  split.
  - split; [by_evaluation|]. split; [by_evaluation|].
    destruct (staleness_reset not_consulted first_power None example_draws
                replay_ready 11%Z) as [H _].
    + by vm_compute.
    + by_evaluation.
    + destruct H as (idx & H1 & H2 & H3).
      * split; by vm_compute.
      * exists idx. split; [exact H1|]. split; [exact H2|].
        intros j x Hj Hx. apply (H3 j x Hj Hx).
        intros (Hmax & _). vm_compute in Hmax. discriminate Hmax.
  - split; [reflexivity|].
    destruct (staleness_reset not_consulted first_power None example_draws
                fresh_max 11%Z) as [H _].
    + by vm_compute.
    + by_evaluation.
    + destruct H as (idx & H1 & H2 & H3).
      * split; by vm_compute.
      * exists idx. split; [exact H1|]. split; [exact H2|].
        intros j x Hj Hx. apply (H3 j x Hj Hx).
        intros (_ & Hin & _). revert Hin.
        apply (bool_decide_unpack _). vm_compute. exact I.
Defined.

(** C8, the claim as stated fails.  With staleness weighting enabled,
    [sample(strategy='sequential')] and [sample(strategy='random')]
    succeed and return seed 10 (index 0) but leave the staleness vector as
    it was: the selected seed's staleness is still 1.  And under the 'max'
    staleness transform, a [sample()] that takes the replay branch returns
    seed 11 and leaves seed 10, still unseen and of staleness 1, with
    staleness -inf instead of 2. *)
Lemma sample_breaks_staleness_reset :
  ((0 < staleness_coef (config after_first_sample))%Qc
   /\ seed_staleness after_first_sample = [f1; f0]
   /\ seeds after_first_sample !! 0 = Some 10%Z
   /\ value (sample not_consulted first_power (Some "sequential")
               example_draws after_first_sample)
      = Ok 10%Z
   /\ seed_staleness
        (final (sample not_consulted first_power (Some "sequential")
                  example_draws after_first_sample))
      = [f1; f0]
   /\ value (sample not_consulted first_power (Some "random")
               example_draws after_first_sample)
      = Ok 10%Z
   /\ seed_staleness
        (final (sample not_consulted first_power (Some "random")
                  example_draws after_first_sample))
      = [f1; f0])
  /\ ((0 < staleness_coef (config max_unseen_stale))%Qc
      /\ staleness_transform (config max_unseen_stale) = "max"
      /\ seeds max_unseen_stale = [10%Z; 11%Z]
      /\ unseen_seed_weights max_unseen_stale = [f1; f0]
      /\ seed_staleness max_unseen_stale = [f1; f0]
      /\ sample not_consulted first_power None example_draws max_unseen_stale
         = _sample_replay_level not_consulted first_power example_draws
             max_unseen_stale
      /\ value (sample not_consulted first_power None example_draws
                  max_unseen_stale)
         = Ok 11%Z
      /\ seed_staleness
           (final (sample not_consulted first_power None example_draws
                     max_unseen_stale))
         = [NInf; f0]
      /\ NInf <> fadd f1 f1).
Proof.
  split.
  - split; [by vm_compute|]. repeat split; by_evaluation.
  - split; [by vm_compute|]. repeat split; try by_evaluation.
    all: by vm_compute.
Qed.
(** The same object with another replay threshold rho. *)
Definition with_rho (r : Qc) (self : LevelSampler) : LevelSampler :=
  {| config :=
       {| num_actions := num_actions (config self);
          strategy := strategy (config self);
          replay_schedule := replay_schedule (config self);
          score_transform := score_transform (config self);
          temperature := temperature (config self);
          eps := eps (config self);
          rho := r;
          nu := nu (config self);
          alpha := alpha (config self);
          staleness_coef := staleness_coef (config self);
          staleness_transform := staleness_transform (config self);
          staleness_temperature := staleness_temperature (config self) |};
     seeds := seeds self;
     seed2index := seed2index self;
     unseen_seed_weights := unseen_seed_weights self;
     seed_scores := seed_scores self;
     partial_seed_scores := partial_seed_scores self;
     partial_seed_steps := partial_seed_steps self;
     seed_staleness := seed_staleness self;
     next_seed_index := next_seed_index self |}.

(** A single seed under the threshold rho = 3/2, fresh and after its first
    episode has ended. *)
Definition fresh_above_one : LevelSampler :=
  with_rho (Q2Qc (3 # 2))
    (__init__ [10%Z] 1 (example_config "value_l1" "power" 0%Qc)).

Definition seen_above_one : LevelSampler :=
  final (exec (Op_update_with_rollouts batch_restart) fresh_above_one).

(** A sampler over an empty pool of seeds. *)
Definition fresh_empty : LevelSampler :=
  __init__ [] 1 (example_config "value_l1" "power" 0%Qc).

(** C5 (as amended) at concrete inputs: the single seed of the pool is
    seen, under the 'fixed' and under the 'proportionate' schedule. *)
Lemma unseen_exhaustion_witness :
  (Call_sample_unseen_level
     ∉ calls (sample not_consulted first_power None example_draws all_seen))
  /\ (Call_sample_unseen_level
        ∉ calls (sample not_consulted first_power None example_draws
                   (with_schedule "proportionate" all_seen))).
Proof.
  split.
  - apply (unseen_exhaustion not_consulted first_power None example_draws
             all_seen).
    + split; by vm_compute.
    + by vm_compute.
    + vm_compute. repeat constructor.
    + by vm_compute.
    + by vm_compute.
  - apply (unseen_exhaustion not_consulted first_power None example_draws
             (with_schedule "proportionate" all_seen)).
    + split; by vm_compute.
    + by vm_compute.
    + vm_compute. repeat constructor.
    + by vm_compute.
    + by vm_compute.
Defined.

(** C5, the claim as stated fails.  With the threshold rho = 3/2 the
    state in which the only seed has completed an episode is reachable, its
    unseen vector is all-zero, and a score-driven [sample()] enters
    [_sample_unseen_level] (proportion_seen = 1 is below rho).  So does
    [sample()] on a fresh sampler over an empty pool, whose unseen vector
    is empty. *)
Lemma unseen_level_entered_after_exhaustion :
  (reachable not_consulted not_consulted first_power seen_above_one
     ([] ++ calls (exec (Op_update_with_rollouts batch_restart)
                        fresh_above_one))
   /\ unseen_seed_weights seen_above_one = [f0]
   /\ score_driven (effective_strategy None seen_above_one)
   /\ replay_schedule (config seen_above_one) = "fixed"
   /\ Call_sample_unseen_level
        ∈ calls (sample not_consulted first_power None example_draws
                   seen_above_one)
   /\ Call_sample_unseen_level
        ∈ calls (sample not_consulted first_power None example_draws
                   (with_schedule "proportionate" seen_above_one)))
  /\ (reachable not_consulted not_consulted first_power fresh_empty []
      /\ unseen_seed_weights fresh_empty = []
      /\ score_driven (effective_strategy None fresh_empty)
      /\ Call_sample_unseen_level
           ∈ calls (sample not_consulted first_power None example_draws
                      fresh_empty)).
Proof.
  split.
  - split.
    { apply (reachable_step not_consulted not_consulted first_power
               fresh_above_one [] (Op_update_with_rollouts batch_restart)).
      - apply (reachable_init not_consulted not_consulted first_power
                 [10%Z] 1
                 (config fresh_above_one)).
      - by vm_compute. }
    split; [by_evaluation|]. split; [split; by vm_compute|].
    split; [by vm_compute|]. split; by_evaluation.
  - split; [apply reachable_init|]. split; [reflexivity|].
    split; [split; by vm_compute|]. by_evaluation.
Qed.
(** One of two seeds seen, with staleness weighting: [sample()] has
    selected seed 11, and seed 10's episode has then ended.  Seed 10 is
    seen with score 3/2 and staleness 1. *)
Definition stale_seen : LevelSampler :=
  final (exec (Op_update_with_rollouts batch_episode_ends) after_first_sample).

(** One of two seeds seen, its score infinite. *)
Definition infinite_score : LevelSampler :=
  set_seed_scores [PInf; f0] (one_seen "power" 0%Qc).

(** C2 (as amended) at concrete inputs.  With one of two seeds seen,
    [sample_weights()] sums to 1, without staleness weighting and with it.
    On a fresh sampler, where [sample_weights()] returns the all-zero
    vector, [_sample_replay_level] falls back to the uniform distribution:
    with the uniform sample u = 1/2 it returns seed 11, at index 1 of 2. *)
Lemma sample_weights_normalised_witness :
  (staleness_coef (config (one_seen "power" 0%Qc)) = 0%Qc
   /\ exists w,
        value (sample_weights not_consulted first_power example_draws
                 (one_seen "power" 0%Qc)) = Ok w
        /\ fsum w = f1)
  /\ ((0 < staleness_coef (config stale_seen))%Qc
      /\ exists w,
           value (sample_weights not_consulted first_power example_draws
                    stale_seen) = Ok w
           /\ fsum w = f1)
  /\ (value (sample_weights not_consulted first_power example_draws
               (fresh_two "value_l1" "power" 0%Qc)) = Ok [f0; f0]
      /\ exists k seed,
           value (_sample_replay_level not_consulted first_power
                    example_draws (fresh_two "value_l1" "power" 0%Qc))
           = Ok seed
           /\ seeds (fresh_two "value_l1" "power" 0%Qc) !! k = Some seed
           /\ (N2Qc k <= choice_sample example_draws * N2Qc 2)%Qc
           /\ (choice_sample example_draws * N2Qc 2 < N2Qc k + 1)%Qc).
Proof.
  split; [|split].
  - split; [reflexivity|]. exists [f1; f0]. split; [by_evaluation|].
    destruct (sample_weights_normalised not_consulted first_power
                example_draws (one_seen "power" 0%Qc) [f1; f0])
      as (mw1 & E1 & Hoff & _ & _).
    + repeat split; reflexivity.
    + by_evaluation.
    + vm_compute in E1. injection E1 as <-.
      destruct Hoff as [H _]; [by vm_compute|]. apply H.
      * repeat constructor.
      * by vm_compute.
  - split; [by vm_compute|]. exists [f1; f0]. split; [by_evaluation|].
    destruct (sample_weights_normalised not_consulted first_power
                example_draws stale_seen [f1; f0])
      as (mw1 & E1 & _ & Hon & _).
    + repeat split; reflexivity.
    + by_evaluation.
    + vm_compute in E1. injection E1 as <-.
      destruct Hon as (mw2 & E2 & H); [by vm_compute|].
      vm_compute in E2. injection E2 as <-. apply H.
      * repeat constructor.
      * repeat constructor.
      * by vm_compute.
      * by vm_compute.
  - split; [by_evaluation|].
    destruct (sample_weights_normalised not_consulted first_power
                example_draws (fresh_two "value_l1" "power" 0%Qc) [f0; f0])
      as (_ & _ & _ & _ & H).
    + repeat split; reflexivity.
    + by_evaluation.
    + apply H; by vm_compute.
Defined.

(** C2, the claim as stated fails.  On a fresh sampler (every seed unseen)
    [sample_weights()] returns the all-zero vector, which sums to 0 and is
    not the uniform distribution.  And when the score of the only seen seed
    is infinite, the masked weights have the infinite sum that
    normalisation divides by: [sample_weights()] returns [NaN, 0], whose
    sum is not 1. *)
Lemma sample_weights_all_unseen_is_zero :
  (value (sample_weights not_consulted first_power example_draws
            (fresh_two "value_l1" "power" 0%Qc))
   = Ok [f0; f0]
   /\ fsum [f0; f0] <> f1
   /\ [f0; f0] <> [Fin (Q2Qc (1 # 2)); Fin (Q2Qc (1 # 2))])
  /\ (unseen_seed_weights infinite_score = [f0; f1]
      /\ seed_scores infinite_score = [PInf; f0]
      /\ value (masked_weights not_consulted first_power
                  (score_transform (config infinite_score))
                  (temperature (config infinite_score))
                  Ref_seed_scores 0 infinite_score)
         = Ok [PInf; f0]
      /\ value (sample_weights not_consulted first_power example_draws
                  infinite_score)
         = Ok [NaN; f0]
      /\ fsum [NaN; f0] <> f1).
Proof.
  split.
  - split; [by_evaluation|]. split; differs_by_evaluation.
  - repeat split; by_evaluation.
Qed.
(** C4, evaluated at the failing input.  Of two seeds, seed 11 is seen and
    was the last one selected, with staleness weighting enabled: the
    proportion seen is 1/2 >= rho = 1/5 and the draw r = 9/10 exceeds
    nu = 1/2, so the rule of the fixed schedule asks for a replay level.
    [sample()] takes the replay branch, where [sample_weights()] returns
    [0, 9/10] (the staleness weights have no mass), and raises
    [ValueError] in [np.random.choice] instead of returning a level. *)
Lemma fixed_schedule_replay_raises :
  reachable not_consulted not_consulted first_power last_selected_only_seen
    (([] ++ calls (exec (Op_sample None example_draws)
                        (fresh_two "value_l1" "power" (Q2Qc (1 # 10)))))
     ++ calls (exec (Op_update_with_rollouts batch_episode_ends_11)
                    after_first_sample))
  /\ score_driven (effective_strategy None last_selected_only_seen)
  /\ replay_schedule (config last_selected_only_seen) = "fixed"
  /\ seeds last_selected_only_seen = [10%Z; 11%Z]
  /\ unseen_seed_weights last_selected_only_seen = [f1; f0]
  /\ seed_staleness last_selected_only_seen = [f1; f0]
  /\ seen_fraction last_selected_only_seen = Fin (Q2Qc (1 # 2))
  /\ rho (config last_selected_only_seen) = Q2Qc (1 # 5)
  /\ nu (config last_selected_only_seen) = Q2Qc (1 # 2)
  /\ rand example_draws = Q2Qc (9 # 10)
  /\ fixed_replay last_selected_only_seen (rand example_draws) = true
  /\ (Call_sample_replay_level
        ∈ calls (sample not_consulted first_power None example_draws
                   last_selected_only_seen))
  /\ value (sample_weights not_consulted first_power example_draws
              last_selected_only_seen)
     = Ok [f0; Fin (Q2Qc (9 # 10))]
  /\ value (sample not_consulted first_power None example_draws
              last_selected_only_seen)
     = Raise ValueError.
Proof.
  split.
  { apply (reachable_step not_consulted not_consulted first_power
             after_first_sample _
             (Op_update_with_rollouts batch_episode_ends_11)).
    - apply (reachable_step not_consulted not_consulted first_power
               (fresh_two "value_l1" "power" (Q2Qc (1 # 10))) []
               (Op_sample None example_draws)).
      + apply reachable_init.
      + by vm_compute.
    - by vm_compute. }
  split; [split; by vm_compute|]. repeat split; by_evaluation.
Qed.

(** X30 at the specification's scenario for the fixed schedule: one
    of five seeds seen (proportion seen 0.2 = rho) and a draw of
    0.9 > nu.  [sample()] is [_sample_replay_level()] and returns seed 10,
    the seen one. *)
Lemma fixed_schedule_decision_witness :
  fixed_replay five_one_seen (rand example_draws) = true
  /\ sample not_consulted first_power None example_draws five_one_seen
     = _sample_replay_level not_consulted first_power example_draws
         five_one_seen
  /\ value (sample not_consulted first_power None example_draws five_one_seen)
     = Ok 10%Z
  /\ exists idx,
       seeds five_one_seen !! idx = Some 10%Z
       /\ unseen_seed_weights five_one_seen !! idx = Some f0.
Proof.
  assert (Hc : fixed_replay five_one_seen (rand example_draws) = true)
    by (by vm_compute).
  assert (Hv : value (sample not_consulted first_power None example_draws
                        five_one_seen) = Ok 10%Z) by by_evaluation.
  destruct (fixed_schedule_decision not_consulted first_power None
              example_draws five_one_seen) as [H _].
  - split; by vm_compute.
  - by vm_compute.
  - unfold is_flag. by_evaluation.
  - repeat split; reflexivity.
  - by vm_compute.
  - by vm_compute.
  - destruct (H Hc) as (E & _ & Hret).
    split; [exact Hc|]. split; [exact E|]. split; [exact Hv|].
    apply (Hret 10%Z [f1; f0; f0; f0; f0] Hv).
    + by_evaluation.
    + by vm_compute.
Defined.
(** The same object with another smoothing factor alpha. *)
Definition with_alpha (a : Qc) (self : LevelSampler) : LevelSampler :=
  {| config :=
       {| num_actions := num_actions (config self);
          strategy := strategy (config self);
          replay_schedule := replay_schedule (config self);
          score_transform := score_transform (config self);
          temperature := temperature (config self);
          eps := eps (config self);
          rho := rho (config self);
          nu := nu (config self);
          alpha := a;
          staleness_coef := staleness_coef (config self);
          staleness_transform := staleness_transform (config self);
          staleness_temperature := staleness_temperature (config self) |};
     seeds := seeds self;
     seed2index := seed2index self;
     unseen_seed_weights := unseen_seed_weights self;
     seed_scores := seed_scores self;
     partial_seed_scores := partial_seed_scores self;
     partial_seed_steps := partial_seed_steps self;
     seed_staleness := seed_staleness self;
     next_seed_index := next_seed_index self |}.

(** One seed, two workers, smoothing factor 1/2. *)
Definition fresh_two_workers : LevelSampler :=
  with_alpha (Q2Qc (1 # 2))
    (__init__ [10%Z] 2 (example_config "value_l1" "power" 0%Qc)).

(** Two workers, one step on seed 10 each, no episode end: returns 3 and 5
    against value estimates 1 and 1. *)
Definition batch_two_workers : RolloutStorage :=
  {| level_seeds := [[10%Z; 10%Z]];
     action_log_dist := [[[f0; f0]; [f0; f0]]];
     masks := [[f1; f1]];
     returns := [[fZ 3; fZ 5]];
     rewards := [[fZ 1; fZ 1]];
     value_preds := [[fZ 1; fZ 1]] |}.

(** Both workers hold a pending partial score for the unseen seed 10: 2 and
    4, over one step each. *)
Definition two_workers_pending : LevelSampler :=
  final (exec (Op_update_with_rollouts batch_two_workers) fresh_two_workers).

(** Two workers, three steps on seed 10.  Worker 0's episode ends after two
    steps (returns 3, 2 against value estimates 1, 1) and its next episode
    has begun (return 3); worker 1's episode does not end (returns 5, 5,
    5). *)
Definition batch_two_workers_end : RolloutStorage :=
  {| level_seeds := [[10%Z; 10%Z]; [10%Z; 10%Z]; [10%Z; 10%Z]];
     action_log_dist :=
       [[[f0; f0]; [f0; f0]]; [[f0; f0]; [f0; f0]]; [[f0; f0]; [f0; f0]]];
     masks := [[f1; f1]; [f1; f1]; [f0; f1]];
     returns := [[fZ 3; fZ 5]; [fZ 2; fZ 5]; [fZ 3; fZ 5]];
     rewards := [[fZ 1; fZ 1]; [fZ 1; fZ 1]; [fZ 1; fZ 1]];
     value_preds := [[fZ 1; fZ 1]; [fZ 1; fZ 1]; [fZ 1; fZ 1]] |}.

(** Seed 10 is seen with score 3/4, and both workers hold a pending partial
    score for it: 2 over one step and 4 over three steps. *)
Definition two_pending_seen : LevelSampler :=
  final (exec (Op_update_with_rollouts batch_two_workers_end)
              fresh_two_workers).

(** C7 (as amended) at a concrete input: two workers, smoothing factor
    1/2, a seed of score 3/4 for which the workers hold the partial scores
    2 and 4.  After [after_update()] every accumulator is (0, 0) and the
    score has received two EMA steps: 3/4 -> 11/8 -> 43/16. *)
Lemma after_update_flushes_partial_witness :
  seed_scores two_pending_seen = [Fin (Q2Qc (3 # 4))]
  /\ partial_seed_scores two_pending_seen = [[fZ 2]; [fZ 4]]
  /\ partial_seed_steps two_pending_seen = [[1%Z]; [3%Z]]
  /\ alpha (config two_pending_seen) = Q2Qc (1 # 2)
  /\ value (after_update two_pending_seen) = Ok tt
  /\ (forall a i, a < 2 -> i < 1 ->
        index2 (partial_seed_scores (final (after_update two_pending_seen)))
               a i = Ok f0
        /\ index2 (partial_seed_steps (final (after_update two_pending_seen)))
                  a i = Ok 0%Z)
  /\ seed_scores (final (after_update two_pending_seen)) !! 0
     = Some (flush_all (Q2Qc (1 # 2)) [fZ 2; fZ 4] (Fin (Q2Qc (3 # 4))))
  /\ flush_all (Q2Qc (1 # 2)) [fZ 2; fZ 4] (Fin (Q2Qc (3 # 4)))
     = ema (Q2Qc (1 # 2)) (ema (Q2Qc (1 # 2)) (Fin (Q2Qc (3 # 4))) (fZ 2))
           (fZ 4)
  /\ flush_all (Q2Qc (1 # 2)) [fZ 2; fZ 4] (Fin (Q2Qc (3 # 4)))
     = Fin (Q2Qc (43 # 16)).
Proof.
  split; [by_evaluation|]. split; [by_evaluation|]. split; [by_evaluation|].
  split; [by vm_compute|].
  destruct (after_update_flushes_partial 2 1 two_pending_seen)
    as (Ev & Hz & Hflush & _).
  - unfold shaped. vm_compute. repeat split; repeat constructor.
  - split; [exact Ev|]. split; [exact Hz|]. split.
    + destruct (Hflush 0 (Fin (Q2Qc (3 # 4)))) as [H _].
      * lia.
      * by_evaluation.
      * intros a p n E1 E2 Hne. destruct a as [|[|a]].
        -- vm_compute in E1, E2. injection E1 as <-. injection E2 as <-.
           split; [reflexivity|lia].
        -- vm_compute in E1, E2. injection E1 as <-. injection E2 as <-.
           split; [reflexivity|lia].
        -- vm_compute in E1. discriminate E1.
      * exact H.
    + split; [reflexivity|by_evaluation].
Defined.

(** C7, the claim as stated fails.  The accumulator of (worker 0,
    seed 10) holds the partial score 0 over 1 step; [after_update()] clears
    it without an EMA step: seed_scores[0] stays 3/2, where one EMA step
    with alpha = 1 and the partial value 0 gives 0.  And when two workers
    hold the partial scores 2 and 4 for the same seed, of score 0, the
    seed receives two EMA steps with alpha = 1/2: its score becomes 5/2,
    where exactly one EMA step gives 1 (with 2) or 2 (with 4). *)
Lemma after_update_discards_zero_partial :
  (index2 (partial_seed_scores all_seen) 0 0 = Ok f0
   /\ index2 (partial_seed_steps all_seen) 0 0 = Ok 1%Z
   /\ seed_scores all_seen !! 0 = Some (Fin (Q2Qc (3 # 2)))
   /\ value (after_update all_seen) = Ok tt
   /\ calls (after_update all_seen) = []
   /\ index2 (partial_seed_steps (final (after_update all_seen))) 0 0 = Ok 0%Z
   /\ seed_scores (final (after_update all_seen)) !! 0
      = Some (Fin (Q2Qc (3 # 2)))
   /\ Fin (Q2Qc (3 # 2))
      <> ema (alpha (config all_seen)) (Fin (Q2Qc (3 # 2))) f0)
  /\ (partial_seed_scores two_workers_pending = [[fZ 2]; [fZ 4]]
      /\ partial_seed_steps two_workers_pending = [[1%Z]; [1%Z]]
      /\ seed_scores two_workers_pending = [f0]
      /\ alpha (config two_workers_pending) = Q2Qc (1 # 2)
      /\ value (after_update two_workers_pending) = Ok tt
      /\ seed_scores (final (after_update two_workers_pending))
         = [Fin (Q2Qc (5 # 2))]
      /\ ema (Q2Qc (1 # 2)) f0 (fZ 2) = f1
      /\ ema (Q2Qc (1 # 2)) f0 (fZ 4) = fZ 2
      /\ Fin (Q2Qc (5 # 2)) <> f1
      /\ Fin (Q2Qc (5 # 2)) <> fZ 2).
Proof.
  split.
  - repeat split; by_evaluation.
  - split; [by_evaluation|]. split; [by_evaluation|].
    split; [by_evaluation|]. split; [by vm_compute|].
    repeat split; by_evaluation.
Qed.
(** A single seed, fresh: the state [pending_partial] and [all_seen] are
    reached from. *)
Definition fresh_one : LevelSampler :=
  __init__ [10%Z] 1 (example_config "value_l1" "power" 0%Qc).

(** C6 (as amended) at concrete inputs, a single seed throughout.  After a
    batch in which no episode ends the flag is still 1; [after_update()]
    then flushes the pending partial score 3/2 and the flag is 0.  After a
    batch in which the episode that began at step 0 ends at step 2 the
    flag is 0. *)
Lemma unseen_flag_cleared_once_witness :
  (done_steps batch_unfinished 0 = []
   /\ unseen_seed_weights pending_partial !! 0 = Some f1)
  /\ (index2 (partial_seed_scores pending_partial) 0 0
      = Ok (Fin (Q2Qc (3 # 2)))
      /\ unseen_seed_weights (final (exec Op_after_update pending_partial))
           !! 0 = Some f0)
  /\ (done_steps batch_restart 0 = [2]
      /\ unseen_seed_weights all_seen !! 0 = Some f0).
Proof.
  destruct (unseen_flag_cleared_once not_consulted not_consulted first_power)
    as [_ H].
  assert (H0 : history not_consulted not_consulted first_power fresh_one [])
    by apply history_init.
  assert (H1 : history not_consulted not_consulted first_power pending_partial
                 ([] ++ [(Op_update_with_rollouts batch_unfinished,
                          fresh_one)])).
  { apply (history_step not_consulted not_consulted first_power fresh_one []
             (Op_update_with_rollouts batch_unfinished) H0).
    by vm_compute. }
  assert (H2 : history not_consulted not_consulted first_power
                 (final (exec Op_after_update pending_partial))
                 (([] ++ [(Op_update_with_rollouts batch_unfinished,
                           fresh_one)])
                  ++ [(Op_after_update, pending_partial)])).
  { apply (history_step not_consulted not_consulted first_power
             pending_partial _ Op_after_update H1).
    by vm_compute. }
  assert (H3 : history not_consulted not_consulted first_power all_seen
                 ([] ++ [(Op_update_with_rollouts batch_restart,
                          fresh_one)])).
  { apply (history_step not_consulted not_consulted first_power fresh_one []
             (Op_update_with_rollouts batch_restart) H0).
    by vm_compute. }
  split; [|split].
  - split; [by vm_compute|].
    destruct (H _ _ H1 0) as [_ Hn]; [vm_compute; lia|]. apply Hn.
    intros (op & s' & Hin & Hcl).
    apply list_elem_of_singleton in Hin. injection Hin as -> ->.
    destruct Hcl as (_ & a & start & Ha & (_ & _ & t & Ht & _) & _).
    assert (a = 0) as -> by (vm_compute in Ha; lia).
    vm_compute in Ht. by apply elem_of_nil in Ht.
  - split; [by_evaluation|].
    destruct (H _ _ H2 0) as [Hc _]; [vm_compute; lia|]. apply Hc.
    exists Op_after_update, pending_partial. split.
    + apply elem_of_app. right. apply list_elem_of_here.
    + exists 0, (Fin (Q2Qc (3 # 2))). split; [by_evaluation|by vm_compute].
  - split; [by vm_compute|].
    destruct (H _ _ H3 0) as [Hc _]; [vm_compute; lia|]. apply Hc.
    exists (Op_update_with_rollouts batch_restart), fresh_one. split.
    + apply list_elem_of_here.
    + split; [by vm_compute|]. exists 0, 0. split; [vm_compute; lia|]. split.
      * split; [by left|]. split; [vm_compute; lia|]. exists 2.
        split; [|lia]. vm_compute. apply list_elem_of_here.
      * exists 10%Z. split; by_evaluation.
Defined.

(** C6, the claim as stated fails: seed 10 has not completed an episode (the
    only batch contains no done step, so no episode end), yet after
    [after_update()] its unseen flag is 0. *)
Lemma unseen_cleared_without_finished_episode :
  pending_partial
  = final (exec (Op_update_with_rollouts batch_unfinished) fresh_one)
  /\ done_steps_of batch_unfinished 2 0 = Ok []
  /\ done_steps batch_unfinished 0 = []
  /\ unseen_seed_weights pending_partial = [f1]
  /\ value (exec Op_after_update pending_partial) = Ok tt
  /\ unseen_seed_weights (final (exec Op_after_update pending_partial)) = [f0].
Proof.
  split; [reflexivity|]. split; [by_evaluation|]. split; [by vm_compute|].
  repeat split; by_evaluation.
Qed.
